(** * DigiX GitHub commit monitor: a shallow embedding of the monitoring engine

    The development embeds the persistent store ([database.py]), the remote
    client ([github_api.py]), the monitoring engine ([monitor.py]) and the
    commands of the bot ([bot.py]) as executable Rocq functions, and states
    the properties of the specification over them.

    Conventions.
    - A Python [datetime] is the number of microseconds of a naive timestamp,
      an integer.  A wire timestamp ([%Y-%m-%dT%H:%M:%SZ]) names a whole
      second; [strftime] with that format drops the microseconds.
    - A SQLite table is the list of its rows in rowid order; [AUTOINCREMENT]
      inserts append.  A query answers in that order, but for the one that
      SQLite answers from the index of [UNIQUE(chat_id, repo_full_name)],
      the subscribers of a repository, which come in ascending [chat_id].
      Columns filled by a SQL default that no statement of the program reads
      ([joined_date], [detected_at]) are left out.
    - A Python [str] is held as its UTF-8 encoding, a [string] of bytes;
      [len], slices and [strip] count and cut code points.
    - Effects are threaded through a state-and-exception monad over a
      [World]; the clock, the remote host, the delivery sink and store
      faults are oracles of an environment [Env], indexed by the number of
      calls made so far, so that every behaviour of the outside is covered.
    - Calls to [logger] and [time.sleep] have no effect on the state that is
      modelled and are left out. *)

From Stdlib Require Import ZArith List String Ascii Bool Lia Arith.
From Stdlib Require Import Sorted Permutation DecimalString.
Import ListNotations.

Local Open Scope string_scope.
Local Open Scope Z_scope.
Local Open Scope list_scope.

(** ** Data *)

Definition ChatId := Z.

(** Microseconds of a naive [datetime]. *)
Definition datetime := Z.

Definition MICROS : Z := 1000000.

(** [timedelta(hours=h)]. *)
Definition timedelta_hours (h : Z) : Z := h * 3600 * MICROS.

(** [t.strftime('%Y-%m-%dT%H:%M:%SZ')]: the whole second [t] falls in. *)
Definition strftime_wire (t : datetime) : Z := t / MICROS.

(** [datetime.strptime(s, '%Y-%m-%dT%H:%M:%SZ')] on the wire second [s]. *)
Definition strptime_wire (s : Z) : datetime := s * MICROS.

(** The [commit_info] dictionary built by [GitHubAPI.get_latest_commits]. *)
Record Commit := mkCommit {
  sha : string;
  message : string;
  author_name : string;
  author_email : string;
  date : datetime;
  url : string;
  repo_full_name : string;
  added : nat;
  removed : nat;
  modified : nat;
  files : list string
}.

(** Table [users]. *)
Record UserRow := mkUserRow {
  u_chat_id : ChatId;
  u_username : option string;
  u_language : string
}.

(** Table [repositories]: one row per (chat_id, repo_full_name). *)
Record RepoRow := mkRepoRow {
  r_id : Z;
  r_chat_id : ChatId;
  r_repo_full_name : string;
  r_repo_url : string;
  r_last_commit_sha : option string;
  r_last_check : option datetime;
  r_last_commit_date : option datetime;
  r_branch : string
}.

(** Table [commit_history]. *)
Record HistoryRow := mkHistoryRow {
  h_id : Z;
  h_repo_full_name : string;
  h_commit_sha : string;
  h_commit_message : string;
  h_author_name : string;
  h_author_email : string;
  h_commit_date : datetime;
  h_commit_url : string;
  h_added : nat;
  h_removed : nat;
  h_modified : nat
}.

Record Database := mkDatabase {
  users : list UserRow;
  repositories : list RepoRow;
  repositories_seq : Z;
  commit_history : list HistoryRow;
  commit_history_seq : Z
}.

(** The state right after [init_db] on a fresh file. *)
Definition init_db : Database := mkDatabase [] [] 0 [] 0.

(** ** Remote host: requests and responses *)

Inductive RawDate :=
| DateMissing
| DateMalformed
| DateAt (seconds : Z).

(** One element of the JSON array answered by [/repos/{repo}/commits];
    [None] is a key that is absent. *)
Record RawCommit := mkRawCommit {
  rc_sha : option string;
  rc_message : option string;
  rc_author_name : option string;
  rc_author_email : option string;
  rc_date : RawDate;
  rc_html_url : option string
}.

Record RawFile := mkRawFile {
  rf_status : option string;
  rf_filename : option string
}.

Record RepoInfo := mkRepoInfo {
  default_branch : option string;
  html_url : option string
}.

Inductive Body :=
| JsonCommits (l : list RawCommit)
| JsonDetail (detail_files : option (list RawFile))
| JsonRepo (info : RepoInfo)
| JsonOther.

Inductive Response :=
| Http (status : Z) (body : Body)
| RaisedTimeout
| RaisedConnectionError
| RaisedRequestException
| RaisedUnexpected.

Inductive Request :=
| ReqRepo (repo : string)
| ReqCommits (repo branch : string) (since : option Z)
| ReqCommitDetail (repo : string) (commit_sha : string).

(** ** Outbound messages *)

Inductive Change := FilesAdded (n : nat) | FilesRemoved (n : nat) | FilesModified (n : nat).

(** The fields [_format_commit_message] renders into the text. *)
Record CommitText := mkCommitText {
  ct_repo_full_name : string;
  ct_language : option string;
  ct_commit_message : string;
  ct_author_name : string;
  ct_commit_time : datetime;
  ct_short_hash : string;
  ct_changes : list Change;
  ct_commit_url : string
}.

Inductive Notification :=
| CommitMessage (c : Commit) (text : CommitText)
| CommitSummary (repo : string) (language : option string) (total_commits extra_count : nat)
| UiText (key : string) (language : option string) (arg : string)
| UiEdit (key : string) (language : option string) (arg : string).

(** One call of [bot.send_message] (or [reply_to], [edit_message_text]) with
    the verdict of the sink. *)
Record Delivery := mkDelivery {
  d_chat_id : ChatId;
  d_note : Notification;
  d_ok : bool
}.

(** ** The world and its environment *)

Record Env := mkEnv {
  clock : nat -> datetime;
  github_http : nat -> Request -> Response;
  bot_ok : nat -> ChatId -> Notification -> bool;
  db_ok : nat -> bool;
  ADMIN_CHAT_ID : list ChatId
}.

(** [journal] keeps every state the store was committed in, oldest first;
    [outbox] every call of the delivery sink; [reqlog] every request sent to
    the remote host. *)
Record World := mkWorld {
  db : Database;
  journal : list Database;
  outbox : list Delivery;
  reqlog : list Request;
  nclock : nat;
  ndb : nat
}.

Definition set_db (d : Database) (w : World) : World :=
  mkWorld d (journal w ++ [d]) (outbox w) (reqlog w) (nclock w) (ndb w).

Inductive Exn := StoreError | DeliveryFailure | KeyError.

Inductive Result (A : Type) :=
| Ok (a : A)
| Raised (e : Exn).
Arguments Ok {A} a.
Arguments Raised {A} e.

Definition M (A : Type) : Type := World -> Result A * World.

Definition ret {A} (a : A) : M A := fun w => (Ok a, w).

Definition raise {A} (e : Exn) : M A := fun w => (Raised e, w).

Definition bind {A B} (m : M A) (k : A -> M B) : M B :=
  fun w => match m w with
           | (Ok a, w1) => k a w1
           | (Raised e, w1) => (Raised e, w1)
           end.

Declare Scope monad_scope.
Delimit Scope monad_scope with monad.
Notation "x <- m ;; k" := (bind m (fun x => k))
  (at level 100, m at next level, right associativity) : monad_scope.
Notation "m ;; k" := (bind m (fun _ => k))
  (at level 100, right associativity) : monad_scope.
Local Open Scope monad_scope.

(** [try: body  except Exception: handler]. *)
Definition try_except {A} (body : M A) (handler : Exn -> M A) : M A :=
  fun w => match body w with
           | (Ok a, w1) => (Ok a, w1)
           | (Raised e, w1) => handler e w1
           end.

(** [for x in l: body(x)]. *)
Fixpoint for_each {X} (l : list X) (body : X -> M unit) : M unit :=
  match l with
  | [] => ret tt
  | x :: rest => body x ;; for_each rest body
  end.

Definition exec {A} (m : M A) (w : World) : World := snd (m w).
Definition outcome {A} (m : M A) (w : World) : Result A := fst (m w).

Section Primitives.
Variable E : Env.

(** [datetime.now()]. *)
Definition now : M datetime :=
  fun w => (Ok (clock E (nclock w)),
            mkWorld (db w) (journal w) (outbox w) (reqlog w) (S (nclock w)) (ndb w)).

(** Opening a store operation ([with self.lock: conn = sqlite3.connect ...
    conn.commit()]): either the whole operation goes through or it raises
    and nothing is committed. *)
Definition db_begin : M unit :=
  fun w => let w1 := mkWorld (db w) (journal w) (outbox w) (reqlog w) (nclock w) (S (ndb w)) in
           if db_ok E (ndb w) then (Ok tt, w1) else (Raised StoreError, w1).

Definition db_read {A} (q : Database -> A) : M A :=
  fun w => (Ok (q (db w)), w).

Definition db_write (f : Database -> Database) : M unit :=
  fun w => (Ok tt, set_db (f (db w)) w).

(** [requests.get(...)]: the exceptions of [requests] are constructors of
    the response, every caller catches them. *)
Definition http_get (req : Request) : M Response :=
  fun w => (Ok (github_http E (List.length (reqlog w)) req),
            mkWorld (db w) (journal w) (outbox w) (reqlog w ++ [req]) (nclock w) (ndb w)).

(** [bot.send_message(chat_id, text, ...)]. *)
Definition bot_send (chat_id : ChatId) (note : Notification) : M unit :=
  fun w => let ok := bot_ok E (List.length (outbox w)) chat_id note in
           let w1 := mkWorld (db w) (journal w) (outbox w ++ [mkDelivery chat_id note ok])
                             (reqlog w) (nclock w) (ndb w) in
           if ok then (Ok tt, w1) else (Raised DeliveryFailure, w1).
End Primitives.

(** ** database.py: the statements, as functions on the tables *)

Definition DEFAULT_LANGUAGE : string := "en".

Definition user_exists (chat_id : ChatId) (d : Database) : bool :=
  existsb (fun u => u_chat_id u =? chat_id) (users d).

(** [INSERT OR IGNORE INTO users (chat_id, username, language)]:
    [chat_id] is the primary key. *)
Definition insert_or_ignore_user (chat_id : ChatId) (username : option string)
    (language : string) (d : Database) : Database :=
  if user_exists chat_id d then d
  else mkDatabase (users d ++ [mkUserRow chat_id username language])
                  (repositories d) (repositories_seq d)
                  (commit_history d) (commit_history_seq d).

(** [SELECT language FROM users WHERE chat_id = ?], [fetchone]. *)
Definition get_user_language_sql (chat_id : ChatId) (d : Database) : option string :=
  match find (fun u => u_chat_id u =? chat_id) (users d) with
  | Some u => Some (u_language u)
  | None => None
  end.

Definition same_subscription (chat_id : ChatId) (repo : string) (r : RepoRow) : bool :=
  (r_chat_id r =? chat_id) && String.eqb (r_repo_full_name r) repo.

(** [add_repository]: make sure the user exists, [DELETE] the row of this
    (chat_id, repo_full_name), [INSERT] a fresh one; the watermark columns
    of the inserted row are NULL. *)
Definition add_repository_sql (chat_id : ChatId) (repo repo_url branch : string)
    (checked_at : datetime) (d : Database) : Database :=
  let d1 := if user_exists chat_id d then d
            else insert_or_ignore_user chat_id None DEFAULT_LANGUAGE d in
  let kept := filter (fun r => negb (same_subscription chat_id repo r)) (repositories d1) in
  let id := repositories_seq d1 + 1 in
  mkDatabase (users d1)
             (kept ++ [mkRepoRow id chat_id repo repo_url None (Some checked_at) None branch])
             id
             (commit_history d1) (commit_history_seq d1).

Definition remove_repository_sql (chat_id : ChatId) (repo : string) (d : Database) : Database :=
  mkDatabase (users d)
             (filter (fun r => negb (same_subscription chat_id repo r)) (repositories d))
             (repositories_seq d)
             (commit_history d) (commit_history_seq d).

(** A row of [SELECT DISTINCT repo_full_name, repo_url, branch]. *)
Record MonitoredRepo := mkMonitoredRepo {
  m_repo_full_name : string;
  m_repo_url : string;
  m_branch : string
}.

Definition monitored_eqb (a b : MonitoredRepo) : bool :=
  String.eqb (m_repo_full_name a) (m_repo_full_name b)
  && String.eqb (m_repo_url a) (m_repo_url b)
  && String.eqb (m_branch a) (m_branch b).

(** [DISTINCT]: each row once, at its first occurrence. *)
Fixpoint distinct (seen l : list MonitoredRepo) : list MonitoredRepo :=
  match l with
  | [] => []
  | x :: rest =>
      if existsb (monitored_eqb x) seen then distinct seen rest
      else x :: distinct (x :: seen) rest
  end.

Definition get_all_monitored_repos_sql (d : Database) : list MonitoredRepo :=
  distinct []
    (map (fun r => mkMonitoredRepo (r_repo_full_name r) (r_repo_url r) (r_branch r))
         (repositories d)).

(** Ascending order of [chat_id]; rows of one [chat_id] keep their order. *)
Fixpoint insert_by_chat (c : ChatId) (l : list ChatId) : list ChatId :=
  match l with
  | [] => [c]
  | y :: rest => if c <=? y then c :: y :: rest else y :: insert_by_chat c rest
  end.

Definition order_by_chat (l : list ChatId) : list ChatId :=
  fold_right insert_by_chat [] l.

(** [SELECT chat_id FROM repositories WHERE repo_full_name = ?].  The
    statement names no order; SQLite answers it from the index of
    [UNIQUE(chat_id, repo_full_name)], which covers both columns, so the
    rows come in ascending order of [chat_id]. *)
Definition get_repo_subscribers_sql (repo : string) (d : Database) : list ChatId :=
  order_by_chat
    (map r_chat_id (filter (fun r => String.eqb (r_repo_full_name r) repo) (repositories d))).

(** [UPDATE repositories SET last_commit_sha, last_commit_date, last_check
    WHERE repo_full_name = ?]: every row of the repository, whoever the
    subscriber. *)
Definition set_watermark (repo commit_sha : string) (commit_date checked_at : datetime)
    (r : RepoRow) : RepoRow :=
  if String.eqb (r_repo_full_name r) repo
  then mkRepoRow (r_id r) (r_chat_id r) (r_repo_full_name r) (r_repo_url r)
                 (Some commit_sha) (Some checked_at) (Some commit_date) (r_branch r)
  else r.

Definition update_last_commit_sql (repo commit_sha : string)
    (commit_date checked_at : datetime) (d : Database) : Database :=
  mkDatabase (users d)
             (map (set_watermark repo commit_sha commit_date checked_at) (repositories d))
             (repositories_seq d)
             (commit_history d) (commit_history_seq d).

(** [INSERT INTO commit_history (...)]: a plain insert, the table has no
    uniqueness constraint. *)
Definition log_commit_sql (c : Commit) (d : Database) : Database :=
  let id := commit_history_seq d + 1 in
  mkDatabase (users d) (repositories d) (repositories_seq d)
             (commit_history d ++
                [mkHistoryRow id (repo_full_name c) (sha c) (message c) (author_name c)
                              (author_email c) (date c) (url c)
                              (added c) (removed c) (modified c)])
             id.

(** [SELECT 1 FROM commit_history WHERE repo_full_name = ? AND commit_sha = ?
    LIMIT 1]. *)
Definition is_commit_logged_sql (repo commit_sha : string) (d : Database) : bool :=
  existsb (fun h => String.eqb (h_repo_full_name h) repo && String.eqb (h_commit_sha h) commit_sha)
          (commit_history d).

(** [SELECT last_commit_date FROM repositories WHERE repo_full_name = ?],
    [fetchone]: the column of the first row of the repository.  The stored
    text is the one SQLite wrote for the [datetime], parsing it gives the
    value back. *)
Definition get_last_commit_date_sql (repo : string) (d : Database) : option datetime :=
  match find (fun r => String.eqb (r_repo_full_name r) repo) (repositories d) with
  | Some r => r_last_commit_date r
  | None => None
  end.

(** ** database.py: the methods *)

Section DatabaseMethods.
Variable E : Env.

Definition add_user (chat_id : ChatId) (username : option string) (language : string)
  : M unit :=
  db_begin E ;; db_write (insert_or_ignore_user chat_id username language).

Definition get_user_language (chat_id : ChatId) : M (option string) :=
  db_begin E ;; db_read (get_user_language_sql chat_id).

Definition add_repository (chat_id : ChatId) (repo repo_url branch : string) : M unit :=
  db_begin E ;;
  t <- now E ;;
  db_write (add_repository_sql chat_id repo repo_url branch t).

Definition remove_repository (chat_id : ChatId) (repo : string) : M unit :=
  db_begin E ;; db_write (remove_repository_sql chat_id repo).

Definition get_all_monitored_repos : M (list MonitoredRepo) :=
  db_begin E ;; db_read get_all_monitored_repos_sql.

Definition get_repo_subscribers (repo : string) : M (list ChatId) :=
  db_begin E ;; db_read (get_repo_subscribers_sql repo).

Definition update_last_commit (repo commit_sha : string) (commit_date : datetime)
  : M unit :=
  db_begin E ;;
  t <- now E ;;
  db_write (update_last_commit_sql repo commit_sha commit_date t).

Definition log_commit (commit_data : Commit) : M unit :=
  db_begin E ;; db_write (log_commit_sql commit_data).

Definition is_commit_logged (repo commit_sha : string) : M bool :=
  db_begin E ;; db_read (is_commit_logged_sql repo commit_sha).

Definition get_last_commit_date (repo : string) : M (option datetime) :=
  db_begin E ;; db_read (get_last_commit_date_sql repo).
End DatabaseMethods.

(** ** github_api.py *)

(** A Python [str] is a sequence of code points; a [string] of the model
    holds its UTF-8 encoding, one [ascii] for each byte.  [len], slices and
    [strip] count code points, so they go through [code_points]; equality,
    [count] and [startswith] of ASCII text give the same on the bytes. *)

(** A byte [10xxxxxx] continues the code point of the byte before it. *)
Definition is_continuation (a : ascii) : bool :=
  let n := nat_of_ascii a in ((128 <=? n) && (n <? 192))%nat.

Definition continues (s : string) : bool :=
  match s with
  | EmptyString => false
  | String b _ => is_continuation b
  end.

(** The code points of a text, each as the bytes that encode it. *)
Fixpoint code_points (s : string) : list string :=
  match s with
  | EmptyString => []
  | String a rest =>
      match code_points rest with
      | [] => [String a EmptyString]
      | point :: points =>
          if continues rest then String a point :: points
          else String a EmptyString :: point :: points
      end
  end.

Definition join (points : list string) : string :=
  fold_right String.append EmptyString points.

(** [len(s)]. *)
Definition len (s : string) : nat := List.length (code_points s).

(** [s[:n]]. *)
Definition slice_to (n : nat) (s : string) : string :=
  join (firstn n (code_points s)).

(** [str.isspace] on one code point: U+0009 to U+000D, U+001C to U+0020,
    U+0085, U+00A0, U+1680, U+2000 to U+200A, U+2028, U+2029, U+202F, U+205F
    and U+3000, by their encodings. *)
Definition is_space (point : string) : bool :=
  match map nat_of_ascii (list_ascii_of_string point) with
  | [a] => ((9 <=? a) && (a <=? 13) || (28 <=? a) && (a <=? 32))%nat
  | [a; b] => ((a =? 194) && ((b =? 133) || (b =? 160)))%nat
  | [a; b; c] =>
      ((a =? 225) && (b =? 154) && (c =? 128)
       || (a =? 226) && (b =? 128)
          && ((128 <=? c) && (c <=? 138) || (c =? 168) || (c =? 169) || (c =? 175))
       || (a =? 226) && (b =? 129) && (c =? 159)
       || (a =? 227) && (b =? 128) && (c =? 128))%nat
  | _ => false
  end.

Fixpoint drop_spaces (points : list string) : list string :=
  match points with
  | [] => []
  | point :: rest => if is_space point then drop_spaces rest else points
  end.

(** [s.strip()]: white space is dropped at both ends. *)
Definition strip (s : string) : string :=
  join (rev (drop_spaces (rev (drop_spaces (code_points s))))).

(** The dictionary literal of lines 72-87: a missing key or a date that does
    not parse skips the commit. *)
Definition parse_commit_info (repo : string) (raw : RawCommit) : option Commit :=
  match rc_sha raw, rc_message raw, rc_author_name raw, rc_author_email raw,
        rc_date raw, rc_html_url raw with
  | Some s, Some m, Some an, Some ae, DateAt secs, Some u =>
      Some (mkCommit s (strip m) an ae (strptime_wire secs) u repo 0 0 0 [])
  | _, _, _, _, _, _ => None
  end.

Definition count_status (status : string) (fs : list RawFile) : nat :=
  List.length (filter (fun f => match rf_status f with
                                | Some s => String.eqb s status
                                | None => false
                                end) fs).

(** [[f['filename'] for f in l]]: [None] when a key is missing. *)
Fixpoint filenames (l : list RawFile) : option (list string) :=
  match l with
  | [] => Some []
  | f :: rest =>
      match rf_filename f, filenames rest with
      | Some n, Some ns => Some (n :: ns)
      | _, _ => None
      end
  end.

(** Lines 94-106, on the answer to the detail request: the counters are
    updated in place before the file names are read. *)
Definition apply_detail (resp : Response) (c : Commit) : Commit :=
  match resp with
  | Http status (JsonDetail (Some fs)) =>
      if status =? 200 then
        mkCommit (sha c) (message c) (author_name c) (author_email c) (date c) (url c)
                 (repo_full_name c)
                 (added c + count_status "added" fs)
                 (removed c + count_status "removed" fs)
                 (modified c + count_status "modified" fs)
                 (match filenames (firstn 5 fs) with
                  | Some names => names
                  | None => files c
                  end)
      else c
  | _ => c
  end.

Section GitHubAPI.
Variable E : Env.

(** [GitHubAPI.get_repo_info]: the repository object on a 200, [None] on
    any other answer. *)
Definition get_repo_info (repo : string) : M (option RepoInfo) :=
  resp <- http_get E (ReqRepo repo) ;;
  match resp with
  | Http status (JsonRepo info) => if status =? 200 then ret (Some info) else ret None
  | _ => ret None
  end.

(** The loop of lines 69-122. *)
Fixpoint parse_commits (repo : string) (raws : list RawCommit) : M (list Commit) :=
  match raws with
  | [] => ret []
  | raw :: rest =>
      match parse_commit_info repo raw with
      | Some info =>
          detail <- http_get E (ReqCommitDetail repo (sha info)) ;;
          parsed <- parse_commits repo rest ;;
          ret (apply_detail detail info :: parsed)
      | None => parse_commits repo rest
      end
  end.

(** [GitHubAPI.get_latest_commits], lines 50-145: the parsed listing on a
    200, the empty list on any other status and on any exception. *)
Definition get_latest_commits (repo branch : string) (since : option datetime)
  : M (list Commit) :=
  resp <- http_get E (ReqCommits repo branch (option_map strftime_wire since)) ;;
  match resp with
  | Http status (JsonCommits raws) =>
      if status =? 200 then parse_commits repo raws else ret []
  | _ => ret []
  end.
End GitHubAPI.

(** ** monitor.py *)

(** Lines 120-122. *)
Definition truncate_message (m : string) : string :=
  if (300 <? len m)%nat then slice_to 297 m ++ "..." else m.

(** Lines 134-151: a line for each count that is not zero. *)
Definition changes_of (c : Commit) : list Change :=
  (if (0 <? added c)%nat then [FilesAdded (added c)] else [])
  ++ (if (0 <? removed c)%nat then [FilesRemoved (removed c)] else [])
  ++ (if (0 <? modified c)%nat then [FilesModified (modified c)] else []).

(** [MonitorManager._format_commit_message], lines 116-168; the wording of
    the text comes from the translation file of the language. *)
Definition _format_commit_message (repo : string) (c : Commit) (language : option string)
  : CommitText :=
  mkCommitText repo language (truncate_message (message c)) (author_name c) (date c)
               (slice_to 7 (sha c)) (changes_of c) (url c).

(** [commits.sort(key=lambda x: x['date'], reverse=True)]: a stable sort,
    commits of equal date keep their order. *)
Fixpoint insert_by_date (c : Commit) (l : list Commit) : list Commit :=
  match l with
  | [] => [c]
  | y :: rest => if date y <=? date c then c :: y :: rest else y :: insert_by_date c rest
  end.

Definition sort_newest_first (l : list Commit) : list Commit :=
  fold_right insert_by_date [] l.

Section MonitorManager.
Variable E : Env.

(** [MonitorManager.send_commit_notification], lines 85-114. *)
Definition send_commit_notification (chat_id : ChatId) (repo : string)
    (commits : list Commit) (language : option string) : M unit :=
  match commits with
  | [] => ret tt
  | _ =>
      for_each (firstn 5 commits)
        (fun c => try_except
                    (bot_send E chat_id
                       (CommitMessage c (_format_commit_message repo c language)))
                    (fun _ => ret tt)) ;;
      if (5 <? List.length commits)%nat then
        try_except
          (bot_send E chat_id
             (CommitSummary repo language (List.length commits) (List.length commits - 5)))
          (fun _ => ret tt)
      else ret tt
  end.

(** Lines 78-83: the fan-out loop. *)
Definition notify_subscribers (repo : string) (commits : list Commit)
    (subscribers : list ChatId) : M unit :=
  for_each subscribers
    (fun chat_id => try_except
                      (language <- get_user_language E chat_id ;;
                       send_commit_notification chat_id repo commits language)
                      (fun _ => ret tt)).

(** [MonitorManager.process_new_commits], lines 65-83. *)
Definition process_new_commits (repo : string) (commits : list Commit) : M unit :=
  let commits := sort_newest_first commits in
  for_each commits (log_commit E) ;;
  match commits with
  | [] => ret tt
  | latest_commit :: _ =>
      update_last_commit E repo (sha latest_commit) (date latest_commit) ;;
      subscribers <- get_repo_subscribers E repo ;;
      notify_subscribers repo commits subscribers
  end.

(** Lines 51-54. *)
Fixpoint select_new_commits (repo : string) (commits : list Commit) : M (list Commit) :=
  match commits with
  | [] => ret []
  | c :: rest =>
      logged <- is_commit_logged E repo (sha c) ;;
      new_commits <- select_new_commits repo rest ;;
      ret (if logged then new_commits else c :: new_commits)
  end.

(** [MonitorManager.check_repository], lines 35-63. *)
Definition check_repository (repo branch : string) : M unit :=
  try_except
    (stored <- get_last_commit_date E repo ;;
     last_commit_date <- match stored with
                         | Some d => ret d
                         | None => t <- now E ;; ret (t - timedelta_hours 24)
                         end ;;
     commits <- get_latest_commits E repo branch (Some last_commit_date) ;;
     match commits with
     | [] => ret tt
     | _ =>
         new_commits <- select_new_commits repo commits ;;
         match new_commits with
         | [] => ret tt
         | _ => process_new_commits repo new_commits
         end
     end)
    (fun _ => ret tt).

(** The loop of lines 29-30. *)
Definition sweep (repos : list MonitoredRepo) : M unit :=
  for_each repos (fun r => check_repository (m_repo_full_name r) (m_branch r)).

(** [MonitorManager.check_all_repositories], lines 24-33. *)
Definition check_all_repositories : M unit :=
  try_except
    (repos <- get_all_monitored_repos E ;; sweep repos)
    (fun _ => ret tt).
End MonitorManager.

(** ** bot.py: the [/add] command *)

(** [s.count(a)]. *)
Fixpoint count_char (a : ascii) (s : string) : nat :=
  match s with
  | EmptyString => 0%nat
  | String b rest => ((if Ascii.eqb a b then 1 else 0) + count_char a rest)%nat
  end.

Section BotHandler.
Variable E : Env.

(** [BotHandler.check_admin]. *)
Definition check_admin (chat_id : ChatId) : bool :=
  existsb (Z.eqb chat_id) (ADMIN_CHAT_ID E).

(** [BotHandler.get_user_language]. *)
Definition handler_user_language (chat_id : ChatId) : M string :=
  language <- get_user_language E chat_id ;;
  match language with
  | None => add_user E chat_id None DEFAULT_LANGUAGE ;; ret DEFAULT_LANGUAGE
  | Some l => ret l
  end.

(** [handle_add]; [args] is [message.text.split()]. *)
Definition handle_add (chat_id : ChatId) (args : list string) : M unit :=
  if negb (check_admin chat_id) then ret tt else
  language <- handler_user_language chat_id ;;
  match args with
  | _ :: arg :: _ =>
      let repo := strip arg in
      if negb (count_char "/" repo =? 1)%nat then
        bot_send E chat_id (UiText "invalid_format" None repo)
      else
        bot_send E chat_id (UiText "checking" None repo) ;;
        repo_info <- get_repo_info E repo ;;
        match repo_info with
        | None => bot_send E chat_id (UiEdit "repo_not_found" (Some language) repo)
        | Some info =>
            let branch := match default_branch info with Some b => b | None => "main" end in
            match html_url info with
            | None => raise KeyError
            | Some repo_url =>
                add_repository E chat_id repo repo_url branch ;;
                commits <- get_latest_commits E repo branch None ;;
                match commits with
                | latest_commit :: _ =>
                    update_last_commit E repo (sha latest_commit) (date latest_commit) ;;
                    log_commit E latest_commit
                | [] => ret tt
                end ;;
                bot_send E chat_id (UiEdit "repo_added" (Some language) repo)
            end
        end
  | _ => bot_send E chat_id (UiText "repo_not_found" (Some language) "[repository-name]")
  end.
End BotHandler.

(** * Properties *)

(** ** The order of the subscribers *)

Lemma insert_by_chat_In c x l : In x (insert_by_chat c l) <-> x = c \/ In x l.
Proof.
  induction l as [| y rest IH]; simpl.
  - intuition auto.
  - destruct (c <=? y); simpl; [intuition auto |].
    rewrite IH. intuition auto.
Qed.

Lemma order_by_chat_In x l : In x (order_by_chat l) <-> In x l.
Proof.
  induction l as [| c rest IH]; simpl; [tauto |].
  rewrite insert_by_chat_In, IH. intuition auto.
Qed.

Lemma order_by_chat_empty {X} (a b : X) l :
  match order_by_chat l with [] => a | _ :: _ => b end
  = match l with [] => a | _ :: _ => b end.
Proof.
  destruct l as [| c rest]; [reflexivity |]. simpl.
  destruct (order_by_chat rest) as [| y l']; simpl; [reflexivity |].
  destruct (c <=? y); reflexivity.
Qed.

Lemma order_by_chat_nil l : order_by_chat l = [] <-> l = [].
Proof.
  pose proof (order_by_chat_empty True False l) as H.
  split; intros K; [rewrite K in H | subst; reflexivity].
  destruct l; [reflexivity | exfalso; rewrite <- H; exact I].
Qed.

Lemma insert_by_chat_least c l :
  Forall (fun y => c <= y) l -> insert_by_chat c l = c :: l.
Proof.
  destruct l as [| y rest]; [reflexivity |]. intros H. inversion H; subst.
  simpl. destruct (Z.leb_spec c y); [reflexivity | lia].
Qed.

Lemma insert_by_chat_sorted c l :
  StronglySorted Z.le l -> StronglySorted Z.le (insert_by_chat c l).
Proof.
  induction 1 as [| y rest S IH F]; simpl; [repeat constructor |].
  destruct (Z.leb_spec c y).
  - constructor; [constructor; assumption |].
    constructor; [assumption |]. eapply Forall_impl; [| exact F]. simpl. intros; lia.
  - constructor; [exact IH |].
    apply Forall_forall. intros x X. apply insert_by_chat_In in X.
    destruct X as [-> | X]; [lia |]. rewrite Forall_forall in F. auto.
Qed.

Lemma order_by_chat_sorted l : StronglySorted Z.le (order_by_chat l).
Proof.
  induction l as [| c rest IH]; simpl; [constructor | apply insert_by_chat_sorted, IH].
Qed.

Lemma insert_by_chat_filter (p : ChatId -> bool) c l :
  StronglySorted Z.le l ->
  filter p (insert_by_chat c l)
  = if p c then insert_by_chat c (filter p l) else filter p l.
Proof.
  induction 1 as [| y rest S IH F]; simpl.
  - destruct (p c); reflexivity.
  - destruct (Z.leb_spec c y) as [L | L].
    + simpl. destruct (p c); [| reflexivity].
      rewrite insert_by_chat_least; [reflexivity |].
      assert (A : Forall (fun x => c <= x) (y :: rest)).
      { constructor; [exact L |]. eapply Forall_impl; [| exact F]. simpl. intros; lia. }
      apply Forall_forall. intros x X.
      assert (X' : In x (filter p (y :: rest))) by exact X.
      apply filter_In in X'. rewrite Forall_forall in A. apply A, X'.
    + simpl. rewrite IH. destruct (p y), (p c); simpl; try reflexivity.
      destruct (Z.leb_spec c y); [lia | reflexivity].
Qed.

(** Leaving rows out and ordering the rest commute. *)
Lemma order_by_chat_filter (p : ChatId -> bool) l :
  filter p (order_by_chat l) = order_by_chat (filter p l).
Proof.
  induction l as [| c rest IH]; simpl; [reflexivity |].
  rewrite insert_by_chat_filter by apply order_by_chat_sorted.
  rewrite IH. destruct (p c); reflexivity.
Qed.

(** ** Running the monad *)

Lemma bind_inv {A B} (m : M A) (k : A -> M B) w r w' :
  bind m k w = (r, w') ->
  (exists a w1, m w = (Ok a, w1) /\ k a w1 = (r, w'))
  \/ (exists e, m w = (Raised e, w') /\ r = Raised e).
Proof.
  unfold bind. destruct (m w) as [[a | e] w1]; intros H.
  - left. eauto.
  - right. inversion H; subst. eauto.
Qed.

Lemma try_except_inv {A} (body : M A) (handler : Exn -> M A) w r w' :
  try_except body handler w = (r, w') ->
  (exists a, body w = (Ok a, w') /\ r = Ok a)
  \/ (exists e w1, body w = (Raised e, w1) /\ handler e w1 = (r, w')).
Proof.
  unfold try_except. destruct (body w) as [[a | e] w1]; intros H.
  - left. inversion H; subst. eauto.
  - right. eauto.
Qed.

Lemma run_pair {A} (m : M A) w : m w = (outcome m w, exec m w).
Proof. unfold outcome, exec. destruct (m w); reflexivity. Qed.

(** What a step leaves alone: [quiet] steps touch neither the store nor the
    sink, [sends] steps only add deliveries and send the remote host
    nothing. *)
Definition quiet (w w' : World) : Prop :=
  db w' = db w /\ journal w' = journal w /\ outbox w' = outbox w.

Definition sends (w w' : World) (sent : list Delivery) : Prop :=
  db w' = db w /\ journal w' = journal w /\ outbox w' = outbox w ++ sent /\
  reqlog w' = reqlog w.

Lemma quiet_refl w : quiet w w.
Proof. unfold quiet; auto. Qed.

Lemma quiet_trans w1 w2 w3 : quiet w1 w2 -> quiet w2 w3 -> quiet w1 w3.
Proof. unfold quiet; intuition congruence. Qed.

Lemma sends_nil w w' : quiet w w' -> reqlog w' = reqlog w -> sends w w' [].
Proof.
  unfold quiet, sends. intros (D & J & O) L. repeat split; auto.
  rewrite O. symmetry. apply app_nil_r.
Qed.

Lemma sends_trans w1 w2 w3 s1 s2 :
  sends w1 w2 s1 -> sends w2 w3 s2 -> sends w1 w3 (s1 ++ s2).
Proof.
  unfold sends. intros (D1 & J1 & O1 & L1) (D2 & J2 & O2 & L2).
  rewrite D2, J2, O2, L2, D1, J1, O1, L1, app_assoc. auto.
Qed.

#[local] Hint Resolve quiet_refl : core.

(** ** The primitives *)

Section PrimitiveFacts.
Variable E : Env.

(** A read-only store method. *)
Lemma db_query_inv {A} (q : Database -> A) w r w' :
  (db_begin E ;; db_read q) w = (r, w') ->
  quiet w w' /\ reqlog w' = reqlog w /\ nclock w' = nclock w /\
  (if db_ok E (ndb w) then r = Ok (q (db w)) else r = Raised StoreError).
Proof.
  unfold bind, db_begin, db_read.
  destruct (db_ok E (ndb w)); intros H; inversion H; subst; unfold quiet; simpl; auto.
Qed.

(** A store method made of one write. *)
Lemma db_update_inv (f : Database -> Database) w r w' :
  (db_begin E ;; db_write f) w = (r, w') ->
  outbox w' = outbox w /\ reqlog w' = reqlog w /\
  (if db_ok E (ndb w)
   then r = Ok tt /\ db w' = f (db w) /\ journal w' = journal w ++ [f (db w)]
   else r = Raised StoreError /\ db w' = db w /\ journal w' = journal w).
Proof.
  unfold bind, db_begin, db_write, set_db.
  destruct (db_ok E (ndb w)); intros H; inversion H; subst; simpl; auto.
Qed.

(** A store method made of one write stamped with [datetime.now()]. *)
Lemma db_update_now_inv (f : datetime -> Database -> Database) w r w' :
  (db_begin E ;; t <- now E ;; db_write (f t)) w = (r, w') ->
  outbox w' = outbox w /\ reqlog w' = reqlog w /\
  (if db_ok E (ndb w)
   then r = Ok tt /\ db w' = f (clock E (nclock w)) (db w)
        /\ journal w' = journal w ++ [f (clock E (nclock w)) (db w)]
   else r = Raised StoreError /\ db w' = db w /\ journal w' = journal w).
Proof.
  unfold bind, db_begin, now, db_write, set_db.
  destruct (db_ok E (ndb w)); intros H; inversion H; subst; simpl; auto.
Qed.

Lemma http_get_inv req w r w' :
  http_get E req w = (r, w') ->
  r = Ok (github_http E (List.length (reqlog w)) req) /\ quiet w w' /\
  reqlog w' = reqlog w ++ [req] /\ nclock w' = nclock w /\ ndb w' = ndb w.
Proof. unfold http_get, quiet. intros H; inversion H; subst; simpl; auto. Qed.

(** The verdict stored with a delivery is the one the sink gave. *)
Definition sink_verdict (d : Delivery) : Prop :=
  exists n, d_ok d = bot_ok E n (d_chat_id d) (d_note d).

Lemma try_send_inv chat_id note w r w' :
  try_except (bot_send E chat_id note) (fun _ => ret tt) w = (r, w') ->
  r = Ok tt /\
  exists d, sends w w' [d] /\ d_chat_id d = chat_id /\ d_note d = note /\ sink_verdict d.
Proof.
  unfold try_except, bot_send, ret, sends, sink_verdict.
  destruct (bot_ok E (List.length (outbox w)) chat_id note) eqn:V;
    intros H; inversion H; subst; simpl; (split; [reflexivity |]);
    exists (mkDelivery chat_id note (bot_ok E (List.length (outbox w)) chat_id note));
    rewrite V; simpl; repeat split; eauto.
Qed.
End PrimitiveFacts.

(** ** Fan-out to one subscriber *)

(** The messages one subscriber is due for a batch: at most five commits,
    then one summary of the rest. *)
Definition batch_notes (repo : string) (commits : list Commit) (language : option string)
  : list Notification :=
  map (fun c => CommitMessage c (_format_commit_message repo c language)) (firstn 5 commits)
  ++ (if (5 <? List.length commits)%nat
      then [CommitSummary repo language (List.length commits) (List.length commits - 5)]
      else []).

Definition is_commit_message (n : Notification) : bool :=
  match n with CommitMessage _ _ => true | _ => false end.

Definition is_summary (n : Notification) : bool :=
  match n with CommitSummary _ _ _ _ => true | _ => false end.

Section FanOut.
Variable E : Env.

Lemma send_each_inv {X} (note_of : X -> Notification) chat_id (l : list X) :
  forall w r w',
    for_each l (fun x => try_except (bot_send E chat_id (note_of x)) (fun _ => ret tt)) w
    = (r, w') ->
    r = Ok tt /\
    exists sent, sends w w' sent /\ map d_note sent = map note_of l /\
                 Forall (fun d => d_chat_id d = chat_id) sent /\
                 Forall (sink_verdict E) sent.
Proof.
  induction l as [| x rest IH]; intros w r w' H.
  - inversion H; subst. split; [reflexivity |].
    exists []. repeat split; auto. apply sends_nil; auto.
  - simpl in H. apply bind_inv in H.
    destruct H as [(a & w1 & H1 & H2) | (e & H1 & _)];
      apply try_send_inv in H1; destruct H1 as (R1 & d & S1 & C1 & N1 & V1);
      [| discriminate].
    apply IH in H2. destruct H2 as (R2 & sent & S2 & N2 & C2 & V2).
    split; [assumption |].
    exists (d :: sent). split; [apply (sends_trans _ _ _ [d] sent S1 S2) |].
    split; [simpl; congruence |]. split; constructor; assumption.
Qed.

Lemma send_commit_notification_inv chat_id repo commits language w r w' :
  send_commit_notification E chat_id repo commits language w = (r, w') ->
  r = Ok tt /\
  exists sent, sends w w' sent /\
               map d_note sent = batch_notes repo commits language /\
               Forall (fun d => d_chat_id d = chat_id) sent /\
               Forall (sink_verdict E) sent.
Proof.
  unfold send_commit_notification, batch_notes.
  destruct commits as [| c0 cs].
  - intros H; inversion H; subst. split; [reflexivity |].
    exists []. repeat split; auto. apply sends_nil; auto.
  - set (commits := c0 :: cs). intros H.
    apply bind_inv in H. destruct H as [(a & w1 & H1 & H2) | (e & H1 & _)];
      apply send_each_inv in H1; destruct H1 as (R1 & sent & S1 & N1 & C1 & V1);
      [| discriminate].
    destruct (5 <? List.length commits)%nat.
    + apply try_send_inv in H2. destruct H2 as (R2 & d & S2 & C2 & N2 & V2).
      split; [assumption |]. exists (sent ++ [d]).
      split; [apply (sends_trans _ _ _ _ _ S1 S2) |].
      split; [rewrite map_app, N1; simpl; rewrite N2; reflexivity |].
      split; (apply Forall_app; split; [assumption | constructor; auto]).
    + inversion H2; subst. split; [reflexivity |].
      exists sent. rewrite app_nil_r. auto.
Qed.
End FanOut.

Lemma batch_notes_commit_messages repo commits language :
  List.length (filter is_commit_message (batch_notes repo commits language))
  = Nat.min (List.length commits) 5.
Proof.
  unfold batch_notes. rewrite filter_app, length_app.
  assert (A : forall l : list Commit,
             filter is_commit_message
               (map (fun c => CommitMessage c (_format_commit_message repo c language)) l)
             = map (fun c => CommitMessage c (_format_commit_message repo c language)) l).
  { induction l as [| c l IH]; simpl; [reflexivity | now rewrite IH]. }
  rewrite A, length_map, length_firstn.
  destruct (Nat.ltb_spec 5 (List.length commits)); cbn [filter is_commit_message List.length]; lia.
Qed.

Lemma batch_notes_summaries repo commits language :
  filter is_summary (batch_notes repo commits language)
  = if (5 <? List.length commits)%nat
    then [CommitSummary repo language (List.length commits) (List.length commits - 5)]
    else [].
Proof.
  unfold batch_notes. rewrite filter_app.
  assert (A : forall l : list Commit,
             filter is_summary
               (map (fun c => CommitMessage c (_format_commit_message repo c language)) l)
             = []).
  { induction l as [| c l IH]; simpl; [reflexivity | exact IH]. }
  rewrite A. destruct (5 <? List.length commits)%nat; reflexivity.
Qed.

(** C3. For every subscriber, language and batch of N commits, whatever the
    sink answers, [send_commit_notification] returns normally and hands the
    sink, in this order, one formatted message for each of the first
    min(N, 5) commits and then, exactly when N > 5, one summary that carries
    the counts N and N - 5; it hands over nothing else, and every message
    goes to that subscriber.  So there are 5 messages and one summary of
    N - 5 when N > 5, and N messages and no summary when N <= 5. *)
Theorem send_commit_notification_cap :
  forall (E : Env) (chat_id : ChatId) (repo : string) (commits : list Commit)
         (language : option string) (w : World),
    outcome (send_commit_notification E chat_id repo commits language) w = Ok tt /\
    exists sent,
      sends w (exec (send_commit_notification E chat_id repo commits language) w) sent /\
      Forall (fun d => d_chat_id d = chat_id) sent /\
      map d_note sent = batch_notes repo commits language /\
      List.length (filter is_commit_message (map d_note sent))
      = Nat.min (List.length commits) 5 /\
      filter is_summary (map d_note sent)
      = if (5 <? List.length commits)%nat
        then [CommitSummary repo language (List.length commits) (List.length commits - 5)]
        else [].
Proof.
  intros E chat_id repo commits language w.
  pose proof (run_pair (send_commit_notification E chat_id repo commits language) w) as H.
  apply send_commit_notification_inv in H.
  destruct H as (R & sent & S & N & C & _).
  split; [exact R |]. exists sent.
  split; [exact S |]. split; [exact C |]. split; [exact N |]. rewrite N.
  split; [apply batch_notes_commit_messages | apply batch_notes_summaries].
Qed.

(** ** The remote client *)

(** The commits of a listing that parse, before the detail requests. *)
Definition well_formed_commits (repo : string) (raws : list RawCommit) : list Commit :=
  flat_map (fun raw => match parse_commit_info repo raw with
                       | Some c => [c]
                       | None => []
                       end) raws.

(** The listing an answer carries; anything but a 200 with a commit array
    carries none. *)
Definition listed (resp : Response) : list RawCommit :=
  match resp with
  | Http status (JsonCommits raws) => if status =? 200 then raws else []
  | _ => []
  end.

(** The fetch failed: the request raised or the status is not 200. *)
Definition fetch_failed (resp : Response) : bool :=
  match resp with
  | Http status _ => negb (status =? 200)
  | _ => true
  end.

(** Same commit, file statistics apart. *)
Definition same_commit (c c0 : Commit) : Prop :=
  sha c = sha c0 /\ date c = date c0 /\ repo_full_name c = repo_full_name c0.

Lemma apply_detail_same resp c : same_commit (apply_detail resp c) c.
Proof.
  unfold same_commit, apply_detail.
  destruct resp as [status [l | [fs |] | info |] | | | |]; auto.
  destruct (status =? 200); auto.
Qed.

Lemma parse_commit_info_repo repo raw c :
  parse_commit_info repo raw = Some c -> repo_full_name c = repo.
Proof.
  unfold parse_commit_info.
  destruct (rc_sha raw), (rc_message raw), (rc_author_name raw), (rc_author_email raw),
    (rc_date raw), (rc_html_url raw); intros H; inversion H; reflexivity.
Qed.

Lemma well_formed_commits_repo repo raws :
  Forall (fun c => repo_full_name c = repo) (well_formed_commits repo raws).
Proof.
  induction raws as [| raw rest IH]; simpl; [constructor |].
  destruct (parse_commit_info repo raw) eqn:P; simpl; auto.
  constructor; [eapply parse_commit_info_repo; eauto | assumption].
Qed.

Section RemoteFacts.
Variable E : Env.

Lemma parse_commits_inv repo raws :
  forall w r w',
    parse_commits E repo raws w = (r, w') ->
    quiet w w' /\ nclock w' = nclock w /\ ndb w' = ndb w /\
    (exists more, reqlog w' = reqlog w ++ more) /\
    exists cs, r = Ok cs /\ Forall2 same_commit cs (well_formed_commits repo raws).
Proof.
  induction raws as [| raw rest IH]; intros w r w' H; simpl in H.
  - inversion H; subst. repeat split; auto.
    + exists []. now rewrite app_nil_r.
    + exists []. split; [reflexivity | constructor].
  - simpl. destruct (parse_commit_info repo raw) as [info |] eqn:P.
    + apply bind_inv in H. destruct H as [(resp & w1 & H1 & H2) | (e & H1 & _)];
        apply http_get_inv in H1; destruct H1 as (R1 & Q1 & L1 & C1 & N1);
        [| discriminate].
      inversion R1; subst resp; clear R1.
      apply bind_inv in H2. destruct H2 as [(cs & w2 & H2 & H3) | (e & H2 & _)];
        apply IH in H2; destruct H2 as (Q2 & C2 & N2 & (more & L2) & cs' & R2 & F2);
        [| discriminate].
      inversion R2; subst cs'; clear R2. inversion H3; subst.
      repeat split; try (eapply quiet_trans; eauto); try congruence.
      * exists (ReqCommitDetail repo (sha info) :: more).
        rewrite L2, L1, <- app_assoc. reflexivity.
      * eexists. split; [reflexivity |]. simpl.
        constructor; [apply apply_detail_same | assumption].
    + apply IH in H. exact H.
Qed.

Lemma get_latest_commits_inv repo branch since w r w' :
  get_latest_commits E repo branch since w = (r, w') ->
  quiet w w' /\ nclock w' = nclock w /\ ndb w' = ndb w /\
  (exists more,
      reqlog w' = reqlog w ++ ReqCommits repo branch (option_map strftime_wire since) :: more) /\
  exists cs,
    r = Ok cs /\
    Forall2 same_commit cs
      (well_formed_commits repo
         (listed (github_http E (List.length (reqlog w))
                    (ReqCommits repo branch (option_map strftime_wire since))))).
Proof.
  unfold get_latest_commits. intros H.
  apply bind_inv in H. destruct H as [(resp & w1 & H1 & H2) | (e & H1 & _)];
    apply http_get_inv in H1; destruct H1 as (R1 & Q1 & L1 & C1 & N1);
    [| discriminate].
  inversion R1; subst resp; clear R1.
  set (req := ReqCommits repo branch (option_map strftime_wire since)) in *.
  assert (D : forall (r0 : Result (list Commit)) w0,
             ret [] w1 = (r0, w0) ->
             listed (github_http E (List.length (reqlog w)) req) = [] ->
             quiet w w0 /\ nclock w0 = nclock w /\ ndb w0 = ndb w /\
             (exists more, reqlog w0 = reqlog w ++ req :: more) /\
             exists cs, r0 = Ok cs /\
               Forall2 same_commit cs
                 (well_formed_commits repo
                    (listed (github_http E (List.length (reqlog w)) req)))).
  { intros r0 w0 H0 L0. inversion H0; subst. rewrite L0.
    repeat split; try apply Q1; auto.
    - exists []. exact L1.
    - exists []. split; [reflexivity | constructor]. }
  destruct (github_http E (List.length (reqlog w)) req)
    as [status [raws | fs | info |] | | | |] eqn:G; try (apply D; [exact H2 | reflexivity]).
  - destruct (status =? 200) eqn:S; [| apply D; [exact H2 | simpl; now rewrite S]].
    simpl. rewrite S.
    apply parse_commits_inv in H2.
    destruct H2 as (Q2 & C2 & N2 & (more & L2) & cs & R2 & F2).
    repeat split; try (eapply quiet_trans; eauto); try congruence.
    + exists more. rewrite L2, L1, <- app_assoc. reflexivity.
    + exists cs. split; assumption.
Qed.
End RemoteFacts.

(** ** The commit history as a seen-set *)

Definition logged (d : Database) (repo commit_sha : string) : Prop :=
  is_commit_logged_sql repo commit_sha d = true.

(** The history only grows. *)
Definition history_grows (d d' : Database) : Prop :=
  exists more, commit_history d' = commit_history d ++ more.

Lemma history_grows_refl d : history_grows d d.
Proof. exists []. now rewrite app_nil_r. Qed.

Lemma history_grows_trans d1 d2 d3 :
  history_grows d1 d2 -> history_grows d2 d3 -> history_grows d1 d3.
Proof.
  intros (m1 & H1) (m2 & H2). exists (m1 ++ m2). now rewrite H2, H1, app_assoc.
Qed.

Lemma history_same_grows d d' : commit_history d' = commit_history d -> history_grows d d'.
Proof. intros H. exists []. now rewrite app_nil_r. Qed.

Lemma logged_grows d d' repo s : history_grows d d' -> logged d repo s -> logged d' repo s.
Proof.
  unfold logged, is_commit_logged_sql. intros (more & H) L.
  rewrite H, existsb_app, L. reflexivity.
Qed.

Lemma log_commit_sql_grows c d : history_grows d (log_commit_sql c d).
Proof. unfold log_commit_sql. eexists. simpl. reflexivity. Qed.

Lemma log_commit_sql_logged c d : logged (log_commit_sql c d) (repo_full_name c) (sha c).
Proof.
  unfold logged, is_commit_logged_sql, log_commit_sql. simpl.
  rewrite existsb_app. simpl. rewrite !String.eqb_refl. simpl. apply orb_true_r.
Qed.

#[local] Hint Resolve history_grows_refl log_commit_sql_grows log_commit_sql_logged : core.

Section DetectionFacts.
Variable E : Env.

Lemma select_new_commits_inv repo commits :
  forall w r w',
    select_new_commits E repo commits w = (r, w') ->
    quiet w w' /\ reqlog w' = reqlog w /\
    forall news, r = Ok news ->
      news = filter (fun c => negb (is_commit_logged_sql repo (sha c) (db w))) commits.
Proof.
  induction commits as [| c rest IH]; intros w r w' H; simpl in H.
  - inversion H; subst. repeat split; auto. intros news N. inversion N. reflexivity.
  - apply bind_inv in H. destruct H as [(b & w1 & H1 & H2) | (e & H1 & R)].
    + apply db_query_inv in H1. destruct H1 as (Q1 & L1 & _ & R1).
      destruct (db_ok E (ndb w)); [| discriminate]. inversion R1; subst b; clear R1.
      apply bind_inv in H2. destruct H2 as [(news & w2 & H2 & H3) | (e & H2 & R)].
      * apply IH in H2. destruct H2 as (Q2 & L2 & F2).
        inversion H3; subst. repeat split; try (eapply quiet_trans; eauto); try congruence.
        intros news' N. inversion N; subst news'; clear N.
        simpl. specialize (F2 news eq_refl). destruct Q1 as (D1 & _).
        rewrite D1 in F2. rewrite F2.
        destruct (is_commit_logged_sql repo (sha c) (db w)); reflexivity.
      * apply IH in H2. destruct H2 as (Q2 & L2 & _). subst r.
        repeat split; try (eapply quiet_trans; eauto); congruence.
    + apply db_query_inv in H1. destruct H1 as (Q1 & L1 & _ & _). subst r.
      repeat split; try apply Q1; auto; congruence.
Qed.

(** The loop that logs the batch: each commit in turn, stopping at the
    first store error. *)
Lemma log_each_inv commits :
  forall w r w',
    for_each commits (log_commit E) w = (r, w') ->
    outbox w' = outbox w /\ reqlog w' = reqlog w /\
    repositories (db w') = repositories (db w) /\
    history_grows (db w) (db w') /\
    (exists steps, journal w' = journal w ++ steps /\
                   Forall (fun d => repositories d = repositories (db w)) steps) /\
    (r = Ok tt -> Forall (fun c => logged (db w') (repo_full_name c) (sha c)) commits) /\
    ((forall n, db_ok E n = true) ->
       r = Ok tt /\ db w' = fold_left (fun d c => log_commit_sql c d) commits (db w)).
Proof.
  induction commits as [| c rest IH]; intros w r w' H; simpl in H.
  - inversion H; subst. repeat split; auto.
    exists []. split; [now rewrite app_nil_r | constructor].
  - apply bind_inv in H. destruct H as [(u & w1 & H1 & H2) | (e & H1 & R)];
      apply db_update_inv in H1; destruct H1 as (O1 & L1 & F1).
    + destruct (db_ok E (ndb w)) eqn:K; [| destruct F1; discriminate].
      destruct F1 as (_ & D1 & J1).
      apply IH in H2. destruct H2 as (O2 & L2 & P2 & G2 & (steps & J2 & S2) & A2 & N2).
      rewrite D1 in *.
      split; [congruence |]. split; [congruence |].
      split; [rewrite P2; reflexivity |].
      split; [eapply history_grows_trans; [apply log_commit_sql_grows | exact G2] |].
      split; [| split].
      * exists (log_commit_sql c (db w) :: steps). split.
        -- rewrite J2, J1, <- app_assoc. reflexivity.
        -- constructor; [reflexivity | exact S2].
      * intros R. constructor; [| apply A2; exact R].
        eapply logged_grows; [exact G2 | apply log_commit_sql_logged].
      * intros OKS. simpl. apply N2; exact OKS.
    + destruct (db_ok E (ndb w)) eqn:K; [destruct F1 as (F1 & _); subst; discriminate |].
      destruct F1 as (_ & D1 & J1). subst r.
      split; [congruence |]. split; [congruence |].
      split; [rewrite D1; reflexivity |].
      split; [rewrite D1; apply history_grows_refl |].
      split; [| split].
      * exists []. split; [now rewrite app_nil_r | constructor].
      * discriminate.
      * intros OKS. rewrite OKS in K. discriminate.
Qed.
End DetectionFacts.

(** ** Sorting the batch *)

Lemma insert_by_date_In c x l : In x (insert_by_date c l) <-> x = c \/ In x l.
Proof.
  induction l as [| y rest IH]; simpl.
  - intuition auto.
  - destruct (date y <=? date c); simpl; [intuition auto |].
    rewrite IH. intuition auto.
Qed.

Lemma sort_newest_first_In x l : In x (sort_newest_first l) <-> In x l.
Proof.
  induction l as [| c rest IH]; simpl; [tauto |].
  rewrite insert_by_date_In, IH. intuition auto.
Qed.

Lemma insert_by_date_length c l :
  List.length (insert_by_date c l) = S (List.length l).
Proof.
  induction l as [| y rest IH]; simpl; [reflexivity |].
  destruct (date y <=? date c); simpl; [reflexivity | now rewrite IH].
Qed.

Lemma sort_newest_first_length l : List.length (sort_newest_first l) = List.length l.
Proof.
  induction l as [| c rest IH]; simpl; [reflexivity |].
  now rewrite insert_by_date_length, IH.
Qed.

(** ** Fan-out to the subscribers of a repository *)

(** What the loop hands the sink for one subscriber, whose language is read
    by the store operation number [op]: the whole batch in the subscriber's
    language when that read goes through, nothing when it raises. *)
Definition slot_for (E : Env) (d : Database) (repo : string) (commits : list Commit)
    (op : nat) (chat_id : ChatId) (slot : list Delivery) : Prop :=
  Forall (fun x => d_chat_id x = chat_id) slot /\
  Forall (sink_verdict E) slot /\
  map d_note slot
  = if db_ok E op then batch_notes repo commits (get_user_language_sql chat_id d) else [].

(** One slot per subscriber, in the order of the loop; the loop asks the
    store one operation per subscriber, so the language of the subscriber
    at position [i] is read by operation [op + i]. *)
Fixpoint slots_for (E : Env) (d : Database) (repo : string) (commits : list Commit)
    (op : nat) (subscribers : list ChatId) (slots : list (list Delivery)) : Prop :=
  match subscribers, slots with
  | [], [] => True
  | chat_id :: subscribers', slot :: slots' =>
      slot_for E d repo commits op chat_id slot /\
      slots_for E d repo commits (S op) subscribers' slots'
  | _, _ => False
  end.

Section FanOutAll.
Variable E : Env.

Lemma send_each_ndb {X} (note_of : X -> Notification) chat_id (l : list X) :
  forall w r w',
    for_each l (fun x => try_except (bot_send E chat_id (note_of x)) (fun _ => ret tt)) w
    = (r, w') ->
    ndb w' = ndb w.
Proof.
  induction l as [| x rest IH]; intros w r w' H; simpl in H.
  - inversion H; reflexivity.
  - unfold bind, try_except, bot_send, ret in H.
    destruct (bot_ok E (List.length (outbox w)) chat_id (note_of x));
      apply IH in H; exact H.
Qed.

Lemma send_commit_notification_ndb chat_id repo commits language w r w' :
  send_commit_notification E chat_id repo commits language w = (r, w') -> ndb w' = ndb w.
Proof.
  unfold send_commit_notification. destruct commits as [| c0 cs].
  - intros H; inversion H; reflexivity.
  - set (commits := c0 :: cs). intros H.
    apply bind_inv in H. destruct H as [(a & w1 & H1 & H2) | (e & H1 & _)];
      apply send_each_ndb in H1; [| exact H1].
    destruct (5 <? List.length commits)%nat.
    + unfold try_except, bot_send, ret in H2.
      destruct (bot_ok E _ chat_id _); inversion H2; subst; exact H1.
    + inversion H2; subst. exact H1.
Qed.

Lemma notify_one_inv repo commits chat_id w r w' :
  try_except
    (language <- get_user_language E chat_id ;;
     send_commit_notification E chat_id repo commits language)
    (fun _ => ret tt) w = (r, w') ->
  r = Ok tt /\ ndb w' = S (ndb w) /\
  exists slot, sends w w' slot /\ slot_for E (db w) repo commits (ndb w) chat_id slot.
Proof.
  intros H. apply try_except_inv in H.
  destruct H as [(a & H & R) | (e & w1 & H & H')].
  - apply bind_inv in H. destruct H as [(lang & w1 & H1 & H2) | (e & H1 & R')];
      [| discriminate].
    assert (N1 : ndb w1 = S (ndb w)).
    { unfold get_user_language, bind, db_begin, db_read in H1.
      destruct (db_ok E (ndb w)); inversion H1; reflexivity. }
    apply db_query_inv in H1. destruct H1 as (Q1 & L1 & _ & R1).
    destruct (db_ok E (ndb w)) eqn:K; [| discriminate].
    inversion R1; subst lang; clear R1.
    pose proof (send_commit_notification_ndb _ _ _ _ _ _ _ H2) as N2.
    apply send_commit_notification_inv in H2.
    destruct H2 as (R2 & slot & S2 & M2 & C2 & V2).
    split; [congruence |]. split; [congruence |].
    exists slot. split.
    + apply (sends_trans w w1 w' [] slot); [apply sends_nil; assumption | exact S2].
    + unfold slot_for. rewrite K. split; [exact C2 |]. split; [exact V2 | exact M2].
  - inversion H'; subst r w1; clear H'.
    apply bind_inv in H. destruct H as [(lang & w1 & H1 & H2) | (e' & H1 & R')].
    + apply send_commit_notification_inv in H2. destruct H2 as (R2 & _). discriminate.
    + assert (N1 : ndb w' = S (ndb w)).
      { unfold get_user_language, bind, db_begin, db_read in H1.
        destruct (db_ok E (ndb w)); inversion H1; reflexivity. }
      apply db_query_inv in H1. destruct H1 as (Q1 & L1 & _ & R1).
      split; [reflexivity |]. split; [exact N1 |].
      destruct (db_ok E (ndb w)) eqn:K; [discriminate |].
      exists []. split; [apply sends_nil; assumption |].
      unfold slot_for. rewrite K. split; [constructor |]. split; [constructor | reflexivity].
Qed.

Lemma notify_subscribers_inv repo commits subscribers :
  forall w r w',
    notify_subscribers E repo commits subscribers w = (r, w') ->
    r = Ok tt /\
    exists slots, sends w w' (List.concat slots) /\
                  slots_for E (db w) repo commits (ndb w) subscribers slots.
Proof.
  unfold notify_subscribers.
  induction subscribers as [| chat_id rest IH]; intros w r w' H; simpl in H.
  - inversion H; subst. split; [reflexivity |].
    exists []. split; [apply sends_nil; auto | exact I].
  - apply bind_inv in H. destruct H as [(u & w1 & H1 & H2) | (e & H1 & _)];
      apply notify_one_inv in H1; destruct H1 as (R1 & N1 & slot & S1 & F1);
      [| discriminate].
    apply IH in H2. destruct H2 as (R2 & slots & S2 & F2).
    split; [exact R2 |].
    exists (slot :: slots). split.
    + simpl. eapply sends_trans; eauto.
    + cbn [slots_for]. split; [exact F1 |].
      destruct S1 as (D1 & _). rewrite D1, N1 in F2. exact F2.
Qed.
End FanOutAll.

(** ** Processing a batch *)

(** The store never shows a watermark ahead of the history: either the
    [repositories] table is still the one the step started from, or every
    commit of the batch is in the history and the rows of the repository
    carry the first commit of the sorted batch and the check time. *)
Definition watermark_safe (d0 : Database) (repo : string) (commits : list Commit)
    (checked_at : datetime) (d : Database) : Prop :=
  repositories d = repositories d0
  \/ (Forall (fun c => logged d (repo_full_name c) (sha c)) commits /\
      exists latest,
        hd_error (sort_newest_first commits) = Some latest /\
        repositories d
        = map (set_watermark repo (sha latest) (date latest) checked_at) (repositories d0)).

(** The store after a batch went through without a store error. *)
Definition processed_sql (repo : string) (commits : list Commit) (checked_at : datetime)
    (d : Database) : Database :=
  let sorted := sort_newest_first commits in
  let d1 := fold_left (fun d c => log_commit_sql c d) sorted d in
  match sorted with
  | [] => d1
  | latest :: _ => update_last_commit_sql repo (sha latest) (date latest) checked_at d1
  end.

(** The states the store is committed in while the commits of a list are
    recorded one after the other, starting from [d]. *)
Fixpoint log_states (commits : list Commit) (d : Database) : list Database :=
  match commits with
  | [] => []
  | c :: rest => log_commit_sql c d :: log_states rest (log_commit_sql c d)
  end.

(** The states a step over a batch commits the store in when no operation
    fails, in order: one for each commit of the sorted batch, which adds that
    commit to the history, and then one that sets the watermark to the first
    commit of the sorted batch. *)
Definition write_plan (repo : string) (commits : list Commit) (checked_at : datetime)
    (d : Database) : list Database :=
  match sort_newest_first commits with
  | [] => []
  | latest :: rest =>
      log_states (latest :: rest) d
      ++ [update_last_commit_sql repo (sha latest) (date latest) checked_at
            (fold_left (fun d c => log_commit_sql c d) (latest :: rest) d)]
  end.

(** Of the [m] store operations from number [n] on, how many go through
    before the first one that fails. *)
Fixpoint ok_run (E : Env) (n m : nat) : nat :=
  match m with
  | O => O
  | S m' => if db_ok E n then S (ok_run E (S n) m') else O
  end.

Lemma In_firstn {A} (x : A) n l : In x (firstn n l) -> In x l.
Proof.
  revert l. induction n as [| n IH]; intros [| y l]; simpl; try tauto.
  intros [H | H]; [left; exact H | right; apply IH; exact H].
Qed.

Lemma batch_notes_commit repo commits language c t :
  In (CommitMessage c t) (batch_notes repo commits language) -> In c commits.
Proof.
  unfold batch_notes. rewrite in_app_iff, in_map_iff.
  intros [(x & X & I) | I].
  - inversion X; subst. eapply In_firstn; eauto.
  - destruct (5 <? List.length commits)%nat; simpl in I; [| tauto].
    destruct I as [I | []]; discriminate.
Qed.

Lemma slots_commits E d repo commits subscribers :
  forall op slots,
    slots_for E d repo commits op subscribers slots ->
    Forall (fun x => forall c t, d_note x = CommitMessage c t -> In c commits)
           (List.concat slots).
Proof.
  induction subscribers as [| chat_id subs IH]; intros op [| slot slots] H;
    cbn [slots_for] in H; try contradiction; [constructor |].
  destruct H as ((_ & _ & S) & H). simpl.
  apply Forall_app. split; [| exact (IH _ _ H)].
  apply Forall_forall. intros x X c t N.
  destruct (db_ok E op).
  - apply (batch_notes_commit repo commits (get_user_language_sql chat_id d) c t).
    rewrite <- S, <- N. apply in_map. exact X.
  - destruct slot; [destruct X | discriminate].
Qed.

Section Processing.
Variable E : Env.

Definition healthy_store : Prop := forall n, db_ok E n = true.

Lemma log_commit_nclock c w r w' : log_commit E c w = (r, w') -> nclock w' = nclock w.
Proof.
  unfold log_commit, bind, db_begin, db_write.
  destruct (db_ok E (ndb w)); intros H; inversion H; reflexivity.
Qed.

Lemma log_each_nclock commits :
  forall w r w', for_each commits (log_commit E) w = (r, w') -> nclock w' = nclock w.
Proof.
  induction commits as [| c rest IH]; intros w r w' H; simpl in H.
  - inversion H; reflexivity.
  - apply bind_inv in H. destruct H as [(u & w1 & H1 & H2) | (e & H1 & _)];
      apply log_commit_nclock in H1; [| exact H1].
    apply IH in H2. congruence.
Qed.

Lemma process_new_commits_inv repo commits w r w' :
  process_new_commits E repo commits w = (r, w') ->
  history_grows (db w) (db w') /\
  reqlog w' = reqlog w /\
  (exists steps,
      journal w' = journal w ++ steps /\
      Forall (watermark_safe (db w) repo commits (clock E (nclock w))) steps) /\
  watermark_safe (db w) repo commits (clock E (nclock w)) (db w') /\
  (exists sent,
      outbox w' = outbox w ++ sent /\
      Forall (fun x => forall c t, d_note x = CommitMessage c t ->
                                   In c commits /\ logged (db w') (repo_full_name c) (sha c))
             sent) /\
  (healthy_store ->
     r = Ok tt /\ db w' = processed_sql repo commits (clock E (nclock w)) (db w)).
Proof.
  unfold process_new_commits, processed_sql.
  set (sorted := sort_newest_first commits). intros H.
  assert (SI : forall c, In c commits -> In c sorted)
    by (intros c; apply sort_newest_first_In).
  apply bind_inv in H. destruct H as [(u & w1 & H1 & H2) | (e & H1 & R)].
  - pose proof (log_each_nclock _ _ _ _ H1) as C1.
    apply log_each_inv in H1.
    destruct H1 as (O1 & L1 & P1 & G1 & (steps1 & J1 & S1) & A1 & N1).
    destruct u. specialize (A1 eq_refl).
    assert (A1' : forall d, commit_history d = commit_history (db w1) ->
                            Forall (fun c => logged d (repo_full_name c) (sha c)) commits).
    { intros d Hd. apply Forall_forall. intros c I.
      rewrite Forall_forall in A1. specialize (A1 c (SI c I)).
      unfold logged, is_commit_logged_sql in *. rewrite Hd. exact A1. }
    assert (S1' : Forall (watermark_safe (db w) repo commits (clock E (nclock w))) steps1).
    { eapply Forall_impl; [| exact S1]. intros d Hd. left. exact Hd. }
    destruct sorted as [| latest rest] eqn:SRT.
    + inversion H2; subst r w'.
      split; [exact G1 |]. split; [exact L1 |].
      split; [exists steps1; auto |]. split; [left; exact P1 |].
      split; [exists []; rewrite app_nil_r; auto |].
      intros OKS. apply N1 in OKS. destruct OKS as (_ & D). auto.
    + apply bind_inv in H2. destruct H2 as [(u2 & w2 & H2 & H3) | (e & H2 & R)];
        apply db_update_now_inv in H2; destruct H2 as (O2 & L2 & F2);
        rewrite C1 in F2.
      * destruct (db_ok E (ndb w1)) eqn:K2; [| destruct F2; discriminate].
        destruct F2 as (_ & D2 & J2).
        set (t := clock E (nclock w)) in *.
        set (d2 := update_last_commit_sql repo (sha latest) (date latest) t (db w1)) in *.
        assert (W2 : watermark_safe (db w) repo commits t d2).
        { right. split; [apply A1'; reflexivity |].
          exists latest. split; [unfold sorted in SRT; rewrite SRT; reflexivity |].
          unfold d2. simpl. rewrite P1. reflexivity. }
        assert (G2 : history_grows (db w) d2).
        { eapply history_grows_trans; [exact G1 |]. apply history_same_grows. reflexivity. }
        assert (JJ : journal w2 = journal w ++ (steps1 ++ [d2])).
        { rewrite J2, J1, <- app_assoc. reflexivity. }
        assert (SS : Forall (watermark_safe (db w) repo commits t) (steps1 ++ [d2])).
        { apply Forall_app. split; [exact S1' | constructor; [exact W2 | constructor]]. }
        apply bind_inv in H3. destruct H3 as [(subs & w3 & H3 & H4) | (e & H3 & R)];
          apply db_query_inv in H3; destruct H3 as ((D3 & J3 & O3) & L3 & _ & R3).
        -- apply notify_subscribers_inv in H4.
           destruct H4 as (R4 & slots & (D4 & J4 & O4 & L4) & F4).
           assert (DD : db w' = d2) by congruence.
           rewrite DD.
           split; [exact G2 |]. split; [congruence |].
           split; [exists (steps1 ++ [d2]); split; [congruence | exact SS] |].
           split; [exact W2 |]. split.
           ++ exists (List.concat slots). split; [congruence |].
              apply slots_commits in F4.
              eapply Forall_impl; [| exact F4]. intros x X c t' N.
              specialize (X c t' N).
              assert (I : In c commits).
              { apply sort_newest_first_In. unfold sorted in SRT. rewrite SRT. exact X. }
              split; [exact I |].
              pose proof (A1' d2 eq_refl) as A. rewrite Forall_forall in A. auto.
           ++ intros OKS. split; [exact R4 |].
              apply N1 in OKS. destruct OKS as (_ & D). unfold d2. rewrite D. reflexivity.
        -- assert (DD : db w' = d2) by congruence. rewrite DD.
           split; [exact G2 |]. split; [congruence |].
           split; [exists (steps1 ++ [d2]); split; [congruence | exact SS] |].
           split; [exact W2 |]. split.
           ++ exists []. rewrite app_nil_r. split; [congruence | constructor].
           ++ intros OKS. destruct (db_ok E (ndb w2)) eqn:K3; [subst; discriminate |].
              rewrite OKS in K3. discriminate.
      * destruct (db_ok E (ndb w1)) eqn:K2; [destruct F2 as (F2 & _); subst; discriminate |].
        destruct F2 as (_ & D2 & J2).
        split; [rewrite D2; exact G1 |]. split; [congruence |].
        split; [exists steps1; split; [congruence | exact S1'] |].
        split; [left; rewrite D2; exact P1 |]. split.
        -- exists []. rewrite app_nil_r. split; [congruence | constructor].
        -- intros OKS. rewrite OKS in K2. discriminate.
  - apply log_each_inv in H1.
    destruct H1 as (O1 & L1 & P1 & G1 & (steps1 & J1 & S1) & A1 & N1).
    split; [exact G1 |]. split; [exact L1 |].
    split; [exists steps1; split; [exact J1 |];
            eapply Forall_impl; [| exact S1]; intros d Hd; left; exact Hd |].
    split; [left; exact P1 |]. split.
    + exists []. rewrite app_nil_r. split; [exact O1 | constructor].
    + intros OKS. apply N1 in OKS. destruct OKS as (OKS & _). subst r. discriminate.
Qed.

(** *** The writes of a step, one by one *)



Lemma ok_run_all n m :
  forallb (db_ok E) (seq n m) = true -> ok_run E n m = m.
Proof.
  revert n. induction m as [| m IH]; intros n; simpl; [reflexivity |].
  intros H. apply andb_true_iff in H. destruct H as (H1 & H2).
  rewrite H1, (IH _ H2). reflexivity.
Qed.


Lemma last_cons {A} (x : A) l d : last (x :: l) d = last l x.
Proof.
  revert x d. induction l as [| y l IH]; intros x d; [reflexivity |].
  change (last (x :: y :: l) d) with (last (y :: l) d). rewrite !IH. reflexivity.
Qed.

Lemma log_states_length commits d : List.length (log_states commits d) = List.length commits.
Proof.
  revert d. induction commits as [| c rest IH]; intros d; simpl; [reflexivity |].
  now rewrite IH.
Qed.

Lemma log_states_last commits d :
  last (log_states commits d) d = fold_left (fun d c => log_commit_sql c d) commits d.
Proof.
  revert d. induction commits as [| c rest IH]; intros d; [reflexivity |].
  cbn [log_states fold_left]. rewrite last_cons. apply IH.
Qed.


Lemma log_commit_run c w :
  log_commit E c w
  = if db_ok E (ndb w)
    then (Ok tt, mkWorld (log_commit_sql c (db w)) (journal w ++ [log_commit_sql c (db w)])
                         (outbox w) (reqlog w) (nclock w) (S (ndb w)))
    else (Raised StoreError,
          mkWorld (db w) (journal w) (outbox w) (reqlog w) (nclock w) (S (ndb w))).
Proof.
  unfold log_commit, bind, db_begin, db_write, set_db.
  destruct (db_ok E (ndb w)); reflexivity.
Qed.

(** The loop that records the batch commits the states of [log_states] up
    to the first store operation that fails, and raises there. *)
Lemma log_each_writes commits :
  forall w r w',
    for_each commits (log_commit E) w = (r, w') ->
    journal w'
    = journal w ++ firstn (ok_run E (ndb w) (List.length commits)) (log_states commits (db w))
    /\
    db w' = last (firstn (ok_run E (ndb w) (List.length commits)) (log_states commits (db w)))
                 (db w) /\
    outbox w' = outbox w /\
    if (ok_run E (ndb w) (List.length commits) =? List.length commits)%nat
    then r = Ok tt /\ ndb w' = (ndb w + List.length commits)%nat
    else r = Raised StoreError.
Proof.
  induction commits as [| c rest IH]; intros w r w' H.
  - inversion H; subst. simpl. rewrite app_nil_r, Nat.add_0_r. auto.
  - cbn [for_each] in H. unfold bind in H. rewrite log_commit_run in H.
    cbn [ok_run List.length log_states].
    destruct (db_ok E (ndb w)) eqn:K.
    + cbn [db journal outbox reqlog nclock ndb] in H.
      apply IH in H. cbn [db journal outbox reqlog nclock ndb] in H.
      destruct H as (J & D & O & R).
      cbn [firstn]. rewrite last_cons.
      split; [rewrite J, <- app_assoc; reflexivity |].
      split; [exact D |]. split; [exact O |].
      change (S (ok_run E (S (ndb w)) (List.length rest)) =? S (List.length rest))%nat
        with (ok_run E (S (ndb w)) (List.length rest) =? List.length rest)%nat.
      destruct (ok_run E (S (ndb w)) (List.length rest) =? List.length rest)%nat;
        [| exact R].
      destruct R as (R & N). split; [exact R | lia].
    + inversion H; subst. simpl. rewrite app_nil_r. auto.
Qed.


End Processing.

(** ** One detection pass *)

(** The lower bound of a pass: the stored watermark date, or 24 hours
    before the clock reading for a repository without one. *)
Definition lower_bound (E : Env) (w : World) (repo : string) : datetime :=
  match get_last_commit_date_sql repo (db w) with
  | Some d => d
  | None => clock E (nclock w) - timedelta_hours 24
  end.

(** The request a pass sends for the listing, and the commits of the answer
    that parse. *)
Definition listing_request (E : Env) (w : World) (repo branch : string) : Request :=
  ReqCommits repo branch (Some (strftime_wire (lower_bound E w repo))).

Definition fetched (E : Env) (w : World) (repo branch : string) : list Commit :=
  well_formed_commits repo
    (listed (github_http E (List.length (reqlog w)) (listing_request E w repo branch))).

(** A delivery of a pass over [repo] that carries a commit carries one that
    was fetched in this pass, was not in the history before and is in it
    after. *)
Definition fresh_delivery (E : Env) (w w' : World) (repo branch : string) (x : Delivery)
  : Prop :=
  forall c t,
    d_note x = CommitMessage c t ->
    repo_full_name c = repo /\
    is_commit_logged_sql repo (sha c) (db w) = false /\
    logged (db w') repo (sha c) /\
    exists c0, In c0 (fetched E w repo branch) /\ same_commit c c0.

Lemma Forall2_In_left {A B} (R : A -> B -> Prop) l1 l2 x :
  Forall2 R l1 l2 -> In x l1 -> exists y, In y l2 /\ R x y.
Proof.
  induction 1 as [| a b l1 l2 Rab _ IH]; simpl; [tauto |].
  intros [I | I].
  - subst. exists b. auto.
  - destruct (IH I) as (y & Y & Rxy). exists y. auto.
Qed.

Section Pass.
Variable E : Env.

Lemma check_repository_inv repo branch w r w' :
  check_repository E repo branch w = (r, w') ->
  r = Ok tt /\
  history_grows (db w) (db w') /\
  (exists sent, outbox w' = outbox w ++ sent /\
                Forall (fresh_delivery E w w' repo branch) sent) /\
  (db_ok E (ndb w) = true ->
     exists more, reqlog w' = reqlog w ++ listing_request E w repo branch :: more) /\
  ((forall c0, In c0 (fetched E w repo branch) ->
               is_commit_logged_sql repo (sha c0) (db w) = true) ->
   quiet w w').
Proof.
  unfold check_repository, try_except.
  match goal with
  | |- context [match ?b w with _ => _ end] => destruct (b w) as [rb w1] eqn:B
  end.
  intros H.
  assert (W : w' = w1 /\ r = Ok tt).
  { destruct rb as [[] | e]; inversion H; auto. }
  destruct W as (-> & ->). clear H. split; [reflexivity |].
  assert (QUIET : forall u, quiet w u -> (exists more, reqlog u = reqlog w ++ more) ->
                  (db_ok E (ndb w) = true ->
                     exists more, reqlog u = reqlog w ++ listing_request E w repo branch :: more) ->
                  history_grows (db w) (db u) /\
                  (exists sent, outbox u = outbox w ++ sent /\
                                Forall (fresh_delivery E w u repo branch) sent) /\
                  (db_ok E (ndb w) = true ->
                     exists more,
                       reqlog u = reqlog w ++ listing_request E w repo branch :: more) /\
                  ((forall c0, In c0 (fetched E w repo branch) ->
                               is_commit_logged_sql repo (sha c0) (db w) = true) ->
                   quiet w u)).
  { intros u (D & J & O) _ RQ. split; [apply history_same_grows; now rewrite D |].
    split; [exists []; rewrite app_nil_r; auto |]. split; [exact RQ |].
    intros _. unfold quiet; auto. }
  apply bind_inv in B. destruct B as [(stored & w2 & B1 & B2) | (e & B1 & _)];
    apply db_query_inv in B1; destruct B1 as (Q1 & L1 & C1 & R1).
  2:{ destruct (db_ok E (ndb w)) eqn:K; [discriminate |].
      apply QUIET; [exact Q1 | exists []; now rewrite app_nil_r | discriminate]. }
  assert (K : db_ok E (ndb w) = true)
    by (destruct (db_ok E (ndb w)); [reflexivity | discriminate]).
  rewrite K in R1. inversion R1; subst stored; clear R1.
  apply bind_inv in B2. destruct B2 as [(lcd & w3 & B2 & B3) | (e & B2 & _)].
  2:{ destruct (get_last_commit_date_sql repo (db w)); [discriminate |].
      unfold bind, now, ret in B2. discriminate. }
  assert (P3 : quiet w w3 /\ reqlog w3 = reqlog w /\ lcd = lower_bound E w repo).
  { unfold lower_bound. destruct Q1 as (D1 & J1 & O1).
    destruct (get_last_commit_date_sql repo (db w)).
    - inversion B2; subst. unfold quiet; auto.
    - unfold bind, now, ret in B2. inversion B2; subst. unfold quiet; simpl.
      rewrite C1. auto. }
  destruct P3 as (Q3 & L3 & ->).
  apply bind_inv in B3. destruct B3 as [(cs & w4 & B3 & B4) | (e & B3 & _)];
    apply get_latest_commits_inv in B3;
    destruct B3 as (Q4 & _ & _ & (more4 & L4) & cs' & R4 & F4); [| discriminate].
  inversion R4; subst cs'; clear R4. simpl in L4, F4. rewrite L3 in L4, F4.
  fold (listing_request E w repo branch) in L4, F4. fold (fetched E w repo branch) in F4.
  assert (Q : quiet w w4) by (eapply quiet_trans; eauto).
  assert (RQ : forall u, reqlog u = reqlog w4 -> db_ok E (ndb w) = true ->
               exists more, reqlog u = reqlog w ++ listing_request E w repo branch :: more).
  { intros u U _. exists more4. congruence. }
  destruct cs as [| c0 cs0].
  { inversion B4; subst. apply QUIET; auto. exists (listing_request E w repo branch :: more4).
    exact L4. }
  set (cs := c0 :: cs0) in *.
  apply bind_inv in B4. destruct B4 as [(news & w5 & B4 & B5) | (e & B4 & _)];
    apply select_new_commits_inv in B4; destruct B4 as (Q5 & L5 & N5).
  2:{ apply QUIET.
      - eapply quiet_trans; eauto.
      - exists (listing_request E w repo branch :: more4). congruence.
      - apply RQ. exact L5. }
  specialize (N5 news eq_refl).
  assert (Q' : quiet w w5) by (eapply quiet_trans; eauto).
  destruct news as [| n0 ns].
  { inversion B5; subst. apply QUIET; auto.
    exists (listing_request E w repo branch :: more4). congruence. }
  set (news := n0 :: ns) in *.
  apply process_new_commits_inv in B5.
  destruct B5 as (G & L6 & _ & _ & (sent & O6 & S6) & _).
  destruct Q' as (D5 & J5 & O5). destruct Q as (D4 & _).
  rewrite D5 in G. split; [exact G |]. split; [| split].
  - exists sent. split; [congruence |].
    eapply Forall_impl; [| exact S6]. intros x X c t N.
    destruct (X c t N) as (I & LG). rewrite N5 in I. apply filter_In in I.
    destruct I as (I & NL). rewrite D4 in NL.
    destruct (Forall2_In_left _ _ _ _ F4 I) as (c1 & I1 & SC).
    pose proof (well_formed_commits_repo repo
                  (listed (github_http E (List.length (reqlog w))
                             (listing_request E w repo branch)))) as WR.
    rewrite Forall_forall in WR. specialize (WR c1 I1).
    assert (RC : repo_full_name c = repo) by (destruct SC as (_ & _ & SC); congruence).
    split; [exact RC |]. split; [now apply negb_true_iff in NL |].
    split; [rewrite <- RC; exact LG |]. exists c1. auto.
  - apply RQ. congruence.
  - intros ALL. exfalso.
    assert (I : In n0 news) by (left; reflexivity).
    rewrite N5 in I. apply filter_In in I. destruct I as (I & NL).
    destruct (Forall2_In_left _ _ _ _ F4 I) as (c1 & I1 & (SC & _)).
    specialize (ALL c1 I1). rewrite D4, SC, ALL in NL. discriminate.
Qed.
End Pass.

(** ** Relations every run respects *)

Definition preserves {A} (R : World -> World -> Prop) (m : M A) : Prop :=
  forall w r w', m w = (r, w') -> R w w'.

Section Preorder.
Variable R : World -> World -> Prop.
Hypothesis R_refl : forall w, R w w.
Hypothesis R_trans : forall w1 w2 w3, R w1 w2 -> R w2 w3 -> R w1 w3.

Lemma preserves_ret {A} (a : A) : preserves R (ret a).
Proof. intros w r w' H. inversion H; subst. apply R_refl. Qed.

Lemma preserves_raise {A} e : preserves R (@raise A e).
Proof. intros w r w' H. inversion H; subst. apply R_refl. Qed.

Lemma preserves_bind {A B} (m : M A) (k : A -> M B) :
  preserves R m -> (forall a, preserves R (k a)) -> preserves R (bind m k).
Proof.
  intros Pm Pk w r w' H. apply bind_inv in H.
  destruct H as [(a & w1 & H1 & H2) | (e & H1 & _)].
  - eapply R_trans; [eapply Pm | eapply Pk]; eauto.
  - eapply Pm; eauto.
Qed.

Lemma preserves_try {A} (body : M A) handler :
  preserves R body -> (forall e, preserves R (handler e)) ->
  preserves R (try_except body handler).
Proof.
  intros Pb Ph w r w' H. apply try_except_inv in H.
  destruct H as [(a & H1 & _) | (e & w1 & H1 & H2)].
  - eapply Pb; eauto.
  - eapply R_trans; [eapply Pb | eapply Ph]; eauto.
Qed.

Lemma preserves_for_each {X} (l : list X) body :
  (forall x, preserves R (body x)) -> preserves R (for_each l body).
Proof.
  intros Pb. induction l as [| x rest IH]; simpl.
  - apply preserves_ret.
  - apply preserves_bind; auto.
Qed.
End Preorder.

(** A delivery that carries a commit carries one that was not in the history
    before the run and is in it after. *)
Definition fresh_notification (w w' : World) (x : Delivery) : Prop :=
  forall c t,
    d_note x = CommitMessage c t ->
    is_commit_logged_sql (repo_full_name c) (sha c) (db w) = false /\
    logged (db w') (repo_full_name c) (sha c).

(** The history grows and only commits new to it are notified. *)
Definition advance (w w' : World) : Prop :=
  history_grows (db w) (db w') /\
  exists sent, outbox w' = outbox w ++ sent /\ Forall (fresh_notification w w') sent.

Lemma advance_refl w : advance w w.
Proof.
  split; [apply history_grows_refl |]. exists []. rewrite app_nil_r. auto.
Qed.

Lemma advance_trans w1 w2 w3 : advance w1 w2 -> advance w2 w3 -> advance w1 w3.
Proof.
  intros (G1 & s1 & O1 & F1) (G2 & s2 & O2 & F2).
  split; [eapply history_grows_trans; eauto |].
  exists (s1 ++ s2). split; [rewrite O2, O1, app_assoc; reflexivity |].
  apply Forall_app. split.
  - eapply Forall_impl; [| exact F1]. intros x X c t N.
    destruct (X c t N) as (A & B). split; [exact A |]. eapply logged_grows; eauto.
  - eapply Forall_impl; [| exact F2]. intros x X c t N.
    destruct (X c t N) as (A & B). split; [| exact B].
    destruct (is_commit_logged_sql (repo_full_name c) (sha c) (db w1)) eqn:L;
      [| reflexivity].
    apply (logged_grows _ _ _ _ G1) in L. unfold logged in L. congruence.
Qed.

Lemma quiet_advance w w' : quiet w w' -> advance w w'.
Proof.
  intros (D & _ & O). split; [apply history_same_grows; now rewrite D |].
  exists []. rewrite app_nil_r. auto.
Qed.

(** A store write that keeps or extends the history, and nothing else. *)
Lemma store_advance w w' :
  history_grows (db w) (db w') -> outbox w' = outbox w -> advance w w'.
Proof.
  intros G O. split; [exact G |]. exists []. rewrite app_nil_r. auto.
Qed.

Section Advance.
Variable E : Env.

Lemma db_query_advance {A} (q : Database -> A) : preserves advance (db_begin E ;; db_read q).
Proof. intros w r w' H. apply db_query_inv in H. apply quiet_advance, H. Qed.

Lemma db_update_advance (f : Database -> Database) :
  (forall d, history_grows d (f d)) -> preserves advance (db_begin E ;; db_write f).
Proof.
  intros Hf w r w' H. apply db_update_inv in H. destruct H as (O & _ & F).
  apply store_advance; [| exact O].
  destruct (db_ok E (ndb w)).
  - destruct F as (_ & D & _). rewrite D. apply Hf.
  - destruct F as (_ & D & _). rewrite D. apply history_grows_refl.
Qed.

Lemma db_update_now_advance (f : datetime -> Database -> Database) :
  (forall t d, history_grows d (f t d)) ->
  preserves advance (db_begin E ;; t <- now E ;; db_write (f t)).
Proof.
  intros Hf w r w' H. apply db_update_now_inv in H. destruct H as (O & _ & F).
  apply store_advance; [| exact O].
  destruct (db_ok E (ndb w)).
  - destruct F as (_ & D & _). rewrite D. apply Hf.
  - destruct F as (_ & D & _). rewrite D. apply history_grows_refl.
Qed.

Lemma bot_send_ui_advance chat_id note :
  is_commit_message note = false -> preserves advance (bot_send E chat_id note).
Proof.
  intros U w r w' H. unfold bot_send in H.
  assert (W : db w' = db w /\
              outbox w' = outbox w ++
                [mkDelivery chat_id note (bot_ok E (List.length (outbox w)) chat_id note)]).
  { destruct (bot_ok E (List.length (outbox w)) chat_id note);
      inversion H; subst; simpl; auto. }
  destruct W as (D & O). split; [apply history_same_grows; now rewrite D |].
  eexists. split; [exact O |]. constructor; [| constructor].
  intros c t N. simpl in N. subst note. discriminate.
Qed.

Lemma get_repo_info_advance repo : preserves advance (get_repo_info E repo).
Proof.
  intros w r w' H. unfold get_repo_info in H. apply bind_inv in H.
  destruct H as [(resp & w1 & H1 & H2) | (e & H1 & _)];
    apply http_get_inv in H1; destruct H1 as (_ & Q & _); apply quiet_advance.
  - assert (W : w' = w1).
    { destruct resp as [status [l | fs | info |] | | | |]; try (inversion H2; reflexivity).
      destruct (status =? 200); inversion H2; reflexivity. }
    subst. exact Q.
  - exact Q.
Qed.

Lemma get_latest_commits_advance repo branch since :
  preserves advance (get_latest_commits E repo branch since).
Proof. intros w r w' H. apply get_latest_commits_inv in H. apply quiet_advance, H. Qed.

Lemma check_repository_advance repo branch :
  preserves advance (check_repository E repo branch).
Proof.
  intros w r w' H. apply check_repository_inv in H.
  destruct H as (_ & G & (sent & O & F) & _).
  split; [exact G |]. exists sent. split; [exact O |].
  eapply Forall_impl; [| exact F]. intros x X c t N.
  destruct (X c t N) as (RC & NL & LG & _). rewrite RC. auto.
Qed.

Lemma sweep_advance repos : preserves advance (sweep E repos).
Proof.
  apply preserves_for_each; [apply advance_refl | apply advance_trans |].
  intros x. apply check_repository_advance.
Qed.

Lemma check_all_repositories_advance : preserves advance (check_all_repositories E).
Proof.
  unfold check_all_repositories.
  apply preserves_try; [apply advance_trans | |].
  - apply preserves_bind; [apply advance_trans | |].
    + apply db_query_advance.
    + intros repos. apply sweep_advance.
  - intros e. apply preserves_ret. apply advance_refl.
Qed.
End Advance.


(** ** The history under the other store operations *)

Lemma insert_or_ignore_user_grows chat_id username language d :
  history_grows d (insert_or_ignore_user chat_id username language d).
Proof.
  unfold insert_or_ignore_user. destruct (user_exists chat_id d);
    apply history_same_grows; reflexivity.
Qed.

Lemma add_repository_sql_grows chat_id repo repo_url branch t d :
  history_grows d (add_repository_sql chat_id repo repo_url branch t d).
Proof.
  unfold add_repository_sql, insert_or_ignore_user.
  destruct (user_exists chat_id d); apply history_same_grows; reflexivity.
Qed.

Lemma remove_repository_sql_grows chat_id repo d :
  history_grows d (remove_repository_sql chat_id repo d).
Proof. apply history_same_grows; reflexivity. Qed.

Lemma update_last_commit_sql_grows repo s cd t d :
  history_grows d (update_last_commit_sql repo s cd t d).
Proof. apply history_same_grows; reflexivity. Qed.

Section Commands.
Variable E : Env.

Lemma handler_user_language_advance chat_id :
  preserves advance (handler_user_language E chat_id).
Proof.
  unfold handler_user_language.
  apply preserves_bind; [apply advance_trans | apply db_query_advance |].
  intros [l |].
  - apply preserves_ret, advance_refl.
  - apply preserves_bind; [apply advance_trans | | intros; apply preserves_ret, advance_refl].
    apply db_update_advance. intros d. apply insert_or_ignore_user_grows.
Qed.

Lemma handle_add_advance chat_id args : preserves advance (handle_add E chat_id args).
Proof.
  unfold handle_add.
  destruct (negb (check_admin E chat_id)); [apply preserves_ret, advance_refl |].
  apply preserves_bind; [apply advance_trans | apply handler_user_language_advance |].
  intros language.
  destruct args as [| cmd [| arg rest]]; try (apply bot_send_ui_advance; reflexivity).
  destruct (negb (count_char "/" (strip arg) =? 1)%nat);
    [apply bot_send_ui_advance; reflexivity |].
  apply preserves_bind; [apply advance_trans | apply bot_send_ui_advance; reflexivity |].
  intros _.
  apply preserves_bind; [apply advance_trans | apply get_repo_info_advance |].
  intros [info |]; [| apply bot_send_ui_advance; reflexivity].
  destruct (html_url info) as [repo_url |]; [| apply preserves_raise, advance_refl].
  apply preserves_bind; [apply advance_trans | |].
  { apply db_update_now_advance. intros t d. apply add_repository_sql_grows. }
  intros _.
  apply preserves_bind; [apply advance_trans | apply get_latest_commits_advance |].
  intros commits.
  apply preserves_bind; [apply advance_trans | | intros; apply bot_send_ui_advance; reflexivity].
  destruct commits as [| latest_commit others]; [apply preserves_ret, advance_refl |].
  apply preserves_bind; [apply advance_trans | |].
  - apply db_update_now_advance. intros t d. apply update_last_commit_sql_grows.
  - intros _. apply db_update_advance. intros d. apply log_commit_sql_grows.
Qed.

Lemma remove_repository_advance chat_id repo :
  preserves advance (remove_repository E chat_id repo).
Proof. apply db_update_advance. intros d. apply remove_repository_sql_grows. Qed.
End Commands.

(** ** Histories of the running system *)

(** One thing the running bot does: an [/add] command, the store operation
    of a [/remove] command, a detection pass over one repository (from the
    timer or from [/check]), or a sweep; the environment is the one of that
    moment. *)
Inductive step : World -> World -> Prop :=
| step_add (E : Env) (chat_id : ChatId) (args : list string) (w : World) :
    step w (exec (handle_add E chat_id args) w)
| step_remove (E : Env) (chat_id : ChatId) (repo : string) (w : World) :
    step w (exec (remove_repository E chat_id repo) w)
| step_check (E : Env) (repo branch : string) (w : World) :
    step w (exec (check_repository E repo branch) w)
| step_sweep (E : Env) (w : World) :
    step w (exec (check_all_repositories E) w).

Inductive steps : World -> World -> Prop :=
| steps_done (w : World) : steps w w
| steps_next (w1 w2 w3 : World) : step w1 w2 -> steps w2 w3 -> steps w1 w3.

Lemma step_advance w w' : step w w' -> advance w w'.
Proof.
  intros [E chat_id args w0 | E chat_id repo w0 | E repo branch w0 | E w0].
  - eapply handle_add_advance. apply run_pair.
  - eapply remove_repository_advance. apply run_pair.
  - eapply check_repository_advance. apply run_pair.
  - eapply check_all_repositories_advance. apply run_pair.
Qed.

Lemma steps_advance w w' : steps w w' -> advance w w'.
Proof.
  induction 1 as [w | w1 w2 w3 S _ IH]; [apply advance_refl |].
  eapply advance_trans; [apply step_advance; exact S | exact IH].
Qed.

(** The delivery carries commit [commit_sha] of [repo]. *)
Definition notifies (repo commit_sha : string) (x : Delivery) : Prop :=
  exists c t, d_note x = CommitMessage c t /\ repo_full_name c = repo /\ sha c = commit_sha.

Lemma advance_never_renotifies w w' repo commit_sha :
  logged (db w) repo commit_sha -> advance w w' ->
  logged (db w') repo commit_sha /\
  exists sent, outbox w' = outbox w ++ sent /\
               Forall (fun x => ~ notifies repo commit_sha x) sent.
Proof.
  intros L (G & sent & O & F). split; [eapply logged_grows; eauto |].
  exists sent. split; [exact O |].
  eapply Forall_impl; [| exact F]. intros x X (c & t & N & RC & SC).
  destruct (X c t N) as (NL & _). subst. unfold logged in L. congruence.
Qed.

(** C1. Once a commit hash is in the commit history of a repository, it
    stays there through everything the bot does afterwards (adds, removes,
    passes, sweeps, under any behaviour of the remote host, the sink and the
    store), and no delivery made afterwards carries that commit of that
    repository.  Moreover a later pass over the repository delivers only
    commits that it fetched and that were not in the history, each of which
    is in the history when the pass ends; and it delivers nothing at all,
    not even a summary, unless the remote host returned some commit that was
    not in the history. *)
Theorem logged_commit_never_renotified :
  forall (w w1 : World) (repo commit_sha : string),
    logged (db w) repo commit_sha ->
    steps w w1 ->
    logged (db w1) repo commit_sha /\
    (exists sent, outbox w1 = outbox w ++ sent /\
                  Forall (fun x => ~ notifies repo commit_sha x) sent) /\
    forall (E : Env) (branch : string),
    exists sent,
      outbox (exec (check_repository E repo branch) w1) = outbox w1 ++ sent /\
      Forall (fresh_delivery E w1 (exec (check_repository E repo branch) w1) repo branch) sent /\
      Forall (fun x => ~ notifies repo commit_sha x) sent /\
      (sent = [] \/
       exists c0, In c0 (fetched E w1 repo branch) /\
                  is_commit_logged_sql repo (sha c0) (db w1) = false).
Proof.
  intros w w1 repo commit_sha L S.
  destruct (advance_never_renotifies w w1 repo commit_sha L (steps_advance _ _ S))
    as (L1 & N1).
  split; [exact L1 |]. split; [exact N1 |].
  intros E branch.
  pose proof (run_pair (check_repository E repo branch) w1) as H.
  pose proof (check_repository_advance E repo branch _ _ _ H) as A.
  destruct (advance_never_renotifies _ _ repo commit_sha L1 A) as (_ & sent' & O' & F').
  apply check_repository_inv in H.
  destruct H as (_ & _ & (sent & O & F) & _ & Q).
  assert (sent' = sent) by (rewrite O in O'; apply app_inv_head in O'; auto).
  subst sent'. exists sent. split; [exact O |]. split; [exact F |]. split; [exact F' |].
  destruct sent as [| x xs]; [left; reflexivity |]. right.
  destruct (existsb (fun c0 => negb (is_commit_logged_sql repo (sha c0) (db w1)))
                    (fetched E w1 repo branch)) eqn:X.
  - apply existsb_exists in X. destruct X as (c0 & I & NL).
    exists c0. split; [exact I |]. now apply negb_true_iff in NL.
  - exfalso. assert (QQ : quiet w1 (exec (check_repository E repo branch) w1)).
    { apply Q. intros c0 I.
      destruct (is_commit_logged_sql repo (sha c0) (db w1)) eqn:LL; [reflexivity |].
      assert (Y : existsb (fun c0 => negb (is_commit_logged_sql repo (sha c0) (db w1)))
                          (fetched E w1 repo branch) = true).
      { apply existsb_exists. exists c0. rewrite LL. auto. }
      congruence. }
    destruct QQ as (_ & _ & OQ). rewrite OQ in O.
    rewrite <- app_nil_r in O at 1. apply app_inv_head in O. discriminate.
Qed.


(** ** Scenarios *)

Definition demo_repo : string := "acme/widgets".

Definition demo_raw (commit_sha : string) (seconds : Z) : RawCommit :=
  mkRawCommit (Some commit_sha) (Some "fix the build") (Some "ann")
              (Some "ann@example.org") (DateAt seconds)
              (Some "https://github.com/acme/widgets/commit").

Definition demo_commit (commit_sha : string) (seconds : Z) : Commit :=
  mkCommit commit_sha "fix the build" "ann" "ann@example.org" (strptime_wire seconds)
           "https://github.com/acme/widgets/commit" demo_repo 0 0 0 [].

(** A remote host that answers every listing with [listing], a sink and a
    store that never fail, and a clock that reads [reading]. *)
Definition demo_env (reading : datetime) (listing : list RawCommit) : Env :=
  mkEnv (fun _ => reading)
        (fun _ req =>
           match req with
           | ReqRepo _ =>
               Http 200 (JsonRepo (mkRepoInfo (Some "main")
                                              (Some "https://github.com/acme/widgets")))
           | ReqCommits _ _ _ => Http 200 (JsonCommits listing)
           | ReqCommitDetail _ _ => Http 404 JsonOther
           end)
        (fun _ _ _ => true)
        (fun _ => true)
        [7; 8].

Definition fresh_world : World := mkWorld init_db [] [] [] 0 0.

(** User 7 adds the repository while its head is commit [c1]. *)
Definition world_added : World :=
  exec (handle_add (demo_env 5000000000 [demo_raw "c1" 100]) 7 ["/add"; demo_repo])
       fresh_world.

(** Then a sweep finds [c2] on top of [c1]. *)
Definition world_swept : World :=
  exec (check_all_repositories (demo_env 6000000000 [demo_raw "c2" 200; demo_raw "c1" 100]))
       world_added.

Lemma world_swept_steps : steps world_added world_swept.
Proof.
  exact (steps_next _ _ _
           (step_sweep (demo_env 6000000000 [demo_raw "c2" 200; demo_raw "c1" 100])
                       world_added)
           (steps_done _)).
Defined.

Lemma logged_commit_never_renotified_witness :
  logged (db world_added) demo_repo "c1" /\
  steps world_added world_swept /\
  logged (db world_swept) demo_repo "c1".
Proof.
  assert (L : logged (db world_added) demo_repo "c1") by (vm_compute; reflexivity).
  split; [exact L |]. split; [exact world_swept_steps |].
  exact (proj1 (logged_commit_never_renotified _ _ _ _ L world_swept_steps)).
Defined.


(** ** The watermark of a batch *)

(** The first commit of the sorted batch has the greatest date, and among
    the commits of that date it is the one that came first in the batch. *)
Lemma sort_newest_first_head commits :
  commits <> [] ->
  exists latest earlier later rest,
    sort_newest_first commits = latest :: rest /\
    commits = earlier ++ latest :: later /\
    Forall (fun c => date c < date latest) earlier /\
    Forall (fun c => date c <= date latest) later.
Proof.
  induction commits as [| c l IH]; [congruence |]. intros _.
  destruct l as [| c' l'].
  - exists c, [], [], []. simpl. auto.
  - destruct IH as (m & earlier & later & rest & S & Eq & B & A); [discriminate |].
    change (sort_newest_first (c :: c' :: l'))
      with (insert_by_date c (sort_newest_first (c' :: l'))).
    rewrite S, Eq. simpl. destruct (Z.leb_spec (date m) (date c)) as [LE | GT].
    + exists c, [], (earlier ++ m :: later), (m :: rest).
      repeat split; auto. apply Forall_app. split.
      * eapply Forall_impl; [| exact B]. simpl. intros; lia.
      * constructor; [exact LE |]. eapply Forall_impl; [| exact A]. simpl. intros; lia.
    + exists m, (c :: earlier), later, (insert_by_date c rest).
      repeat split; auto.
Qed.

Lemma log_all_repositories commits d :
  repositories (fold_left (fun d c => log_commit_sql c d) commits d) = repositories d.
Proof.
  revert d. induction commits as [| c l IH]; intros d; simpl; [reflexivity |].
  rewrite IH. reflexivity.
Qed.

Lemma set_watermark_row repo s cd t rows row :
  In row (map (set_watermark repo s cd t) rows) ->
  r_repo_full_name row = repo ->
  r_last_commit_sha row = Some s /\ r_last_commit_date row = Some cd /\
  r_last_check row = Some t.
Proof.
  rewrite in_map_iff. intros (r0 & Eq & _) N. subst row. unfold set_watermark in *.
  destruct (String.eqb (r_repo_full_name r0) repo) eqn:X; simpl; auto.
  apply String.eqb_neq in X. contradiction.
Qed.

Lemma set_watermark_name repo s cd t r0 :
  r_repo_full_name (set_watermark repo s cd t r0) = r_repo_full_name r0.
Proof. unfold set_watermark. destruct (String.eqb _ _); reflexivity. Qed.

Lemma set_watermark_chat repo s cd t r0 :
  r_chat_id (set_watermark repo s cd t r0) = r_chat_id r0.
Proof. unfold set_watermark. destruct (String.eqb _ _); reflexivity. Qed.

Lemma set_watermark_subscribers repo s cd t r rows :
  map r_chat_id
      (filter (fun x => String.eqb (r_repo_full_name x) r)
              (map (set_watermark repo s cd t) rows))
  = map r_chat_id (filter (fun x => String.eqb (r_repo_full_name x) r) rows).
Proof.
  induction rows as [| x rows IH]; simpl; [reflexivity |].
  rewrite set_watermark_name.
  destruct (String.eqb (r_repo_full_name x) r); simpl; [| exact IH].
  rewrite set_watermark_chat, IH. reflexivity.
Qed.

Lemma get_last_commit_date_after repo s cd t rows :
  match find (fun r => String.eqb (r_repo_full_name r) repo)
             (map (set_watermark repo s cd t) rows) with
  | Some r => r_last_commit_date r
  | None => None
  end
  = match filter (fun r => String.eqb (r_repo_full_name r) repo) rows with
    | [] => None
    | _ :: _ => Some cd
    end.
Proof.
  induction rows as [| r0 rows IH]; simpl; [reflexivity |].
  rewrite set_watermark_name.
  destruct (String.eqb (r_repo_full_name r0) repo) eqn:X; [| exact IH].
  unfold set_watermark. rewrite X. reflexivity.
Qed.

(** C2, as the code has it.  When the store works, the rows of the
    repository carry, after a non-empty batch, the hash and the timestamp of
    a commit of the batch whose timestamp is the greatest of the batch,
    whatever the order of the batch; among the commits that share that
    timestamp it is the one the batch lists first (the sort is stable and
    looks at the timestamp only), the hashes play no part. *)
Theorem watermark_is_first_newest :
  forall (E : Env) (repo : string) (commits : list Commit) (w : World),
    healthy_store E ->
    commits <> [] ->
    exists latest earlier later,
      commits = earlier ++ latest :: later /\
      Forall (fun c => date c < date latest) earlier /\
      Forall (fun c => date c <= date latest) later /\
      outcome (process_new_commits E repo commits) w = Ok tt /\
      repositories (db (exec (process_new_commits E repo commits) w))
      = map (set_watermark repo (sha latest) (date latest) (clock E (nclock w)))
            (repositories (db w)) /\
      (forall row,
          In row (repositories (db (exec (process_new_commits E repo commits) w))) ->
          r_repo_full_name row = repo ->
          r_last_commit_sha row = Some (sha latest) /\
          r_last_commit_date row = Some (date latest) /\
          r_last_check row = Some (clock E (nclock w))) /\
      get_last_commit_date_sql repo (db (exec (process_new_commits E repo commits) w))
      = match get_repo_subscribers_sql repo (db w) with
        | [] => None
        | _ :: _ => Some (date latest)
        end.
Proof.
  intros E repo commits w OKS NE.
  destruct (sort_newest_first_head commits NE)
    as (latest & earlier & later & rest & S & Eq & B & A).
  exists latest, earlier, later.
  pose proof (run_pair (process_new_commits E repo commits) w) as H.
  apply process_new_commits_inv in H.
  destruct H as (_ & _ & _ & _ & _ & H). destruct (H OKS) as (R & D).
  assert (RR : repositories (db (exec (process_new_commits E repo commits) w))
               = map (set_watermark repo (sha latest) (date latest) (clock E (nclock w)))
                     (repositories (db w))).
  { rewrite D. unfold processed_sql. rewrite S.
    unfold update_last_commit_sql. cbn [repositories].
    rewrite log_all_repositories. reflexivity. }
  split; [exact Eq |]. split; [exact B |]. split; [exact A |]. split; [exact R |].
  split; [exact RR |]. split.
  - intros row I N. rewrite RR in I. eapply set_watermark_row; eauto.
  - unfold get_last_commit_date_sql, get_repo_subscribers_sql. rewrite RR.
    rewrite get_last_commit_date_after, order_by_chat_empty.
    destruct (filter (fun r => String.eqb (r_repo_full_name r) repo) (repositories (db w)));
      reflexivity.
Qed.

(** The commit the specification names as the watermark: the newest by
    timestamp, the hash deciding between equal timestamps.  The direction of
    the hash order is left open by the specification, [larger_hash_wins]
    fixes it. *)
Definition spec_prefers (larger_hash_wins : bool) (a b : Commit) : bool :=
  (date b <? date a)
  || ((date a =? date b)
      && (if larger_hash_wins then String.ltb (sha b) (sha a) else String.ltb (sha a) (sha b))).

Definition spec_watermark (larger_hash_wins : bool) (commits : list Commit) : option Commit :=
  fold_right (fun c best => match best with
                            | None => Some c
                            | Some b => if spec_prefers larger_hash_wins c b
                                        then Some c else Some b
                            end) None commits.

Definition tie_a : Commit := demo_commit "aaa" 300.
Definition tie_b : Commit := demo_commit "bbb" 300.

Definition stored_watermarks (w : World) : list (option string) :=
  map r_last_commit_sha (repositories (db w)).

Lemma watermark_is_first_newest_witness :
  healthy_store (demo_env 6000000000 []) /\
  [tie_a; tie_b] <> [] /\
  exists latest earlier later,
    [tie_a; tie_b] = earlier ++ latest :: later /\
    Forall (fun c => date c < date latest) earlier /\
    Forall (fun c => date c <= date latest) later.
Proof.
  assert (H : healthy_store (demo_env 6000000000 [])) by (intros n; reflexivity).
  assert (N : [tie_a; tie_b] <> []) by discriminate.
  split; [exact H |]. split; [exact N |].
  destruct (watermark_is_first_newest (demo_env 6000000000 []) demo_repo [tie_a; tie_b]
              world_added H N) as (latest & earlier & later & Eq & B & A & _).
  exists latest, earlier, later. auto.
Defined.

(** Two commits of one timestamp: the watermark is the one listed first,
    whichever its hash, so whatever direction the hash order is read in, one
    of the two batches ends with a watermark that is not the commit the
    specification names. *)
Lemma watermark_tie_ignores_hash :
  date tie_a = date tie_b /\
  stored_watermarks
    (exec (process_new_commits (demo_env 6000000000 []) demo_repo [tie_a; tie_b]) world_added)
  = [Some "aaa"] /\
  option_map sha (spec_watermark true [tie_a; tie_b]) = Some "bbb" /\
  stored_watermarks
    (exec (process_new_commits (demo_env 6000000000 []) demo_repo [tie_b; tie_a]) world_added)
  = [Some "bbb"] /\
  option_map sha (spec_watermark false [tie_b; tie_a]) = Some "aaa".
Proof. vm_compute. repeat split. Qed.


(** ** Order of the writes of a sweep step *)






(** The states of that step: the watermark stays at [c1] while [c3] and
    [c2] are recorded, and moves to [c3], the newest, in the last one. *)
Example sweep_step_states :
  map (fun d => (map h_commit_sha (commit_history d),
                 map r_last_commit_sha (repositories d)))
      (write_plan demo_repo [demo_commit "c2" 200; demo_commit "c3" 300]
                  (clock (demo_env 6000000000 []) (nclock world_added)) (db world_added))
  = [(["c1"; "c3"], [Some "c1"]);
     (["c1"; "c3"; "c2"], [Some "c1"]);
     (["c1"; "c3"; "c2"], [Some "c3"])].
Proof. vm_compute. reflexivity. Qed.

(** The store fails at its fourth operation: two of the three commits were
    recorded, the watermark is untouched. *)
Example store_fault_keeps_watermark :
  stored_watermarks
    (exec (process_new_commits
             (mkEnv (fun _ => 0) (fun _ _ => RaisedTimeout) (fun _ _ _ => true)
                    (fun n => negb (Nat.eqb n 7)) [])
             demo_repo [demo_commit "c2" 200; demo_commit "c3" 300; demo_commit "c4" 400])
          world_added)
  = [Some "c1"].
Proof. vm_compute. reflexivity. Qed.

(** ** The fan-out loop *)

(** Every delivery to subscriber 7 fails; subscriber 8 gets the batch. *)
Example failing_subscriber_does_not_block :
  map (fun x => (d_chat_id x, d_ok x))
      (outbox (exec (notify_subscribers
                       (mkEnv (fun _ => 0) (fun _ _ => RaisedTimeout)
                              (fun _ chat_id _ => negb (chat_id =? 7))
                              (fun _ => true) [])
                       demo_repo [demo_commit "c2" 200; demo_commit "c3" 300] [7; 8])
                    fresh_world))
  = [(7, false); (7, false); (8, true); (8, true)].
Proof. vm_compute. reflexivity. Qed.

(** ** The loop of the sweep *)


Section Sweep.
Variable E : Env.

Lemma check_repository_ok repo branch w :
  check_repository E repo branch w = (Ok tt, exec (check_repository E repo branch) w).
Proof.
  pose proof (run_pair (check_repository E repo branch) w) as H.
  pose proof (check_repository_inv E repo branch _ _ _ H) as (R & _).
  rewrite R in H. exact H.
Qed.

Lemma sweep_ok repos : forall w, sweep E repos w = (Ok tt, exec (sweep E repos) w).
Proof.
  unfold sweep. induction repos as [| r rest IH]; intros w; [reflexivity |].
  unfold exec. simpl. unfold bind. rewrite check_repository_ok.
  rewrite IH. reflexivity.
Qed.


Lemma sweep_cons r after w :
  exec (sweep E (r :: after)) w
  = exec (sweep E after) (exec (check_repository E (m_repo_full_name r) (m_branch r)) w).
Proof.
  unfold exec at 1. unfold sweep. simpl. unfold bind.
  rewrite check_repository_ok. reflexivity.
Qed.
End Sweep.

(** ** Isolation of the subscribers, in a step of the sweep *)

Lemma log_all_users commits :
  forall d, users (fold_left (fun d c => log_commit_sql c d) commits d) = users d.
Proof.
  induction commits as [| c rest IH]; intros d; simpl; [reflexivity |].
  rewrite IH. reflexivity.
Qed.

Lemma slots_for_users E d d' repo commits subscribers :
  users d' = users d ->
  forall op slots,
    slots_for E d repo commits op subscribers slots ->
    slots_for E d' repo commits op subscribers slots.
Proof.
  intros U. induction subscribers as [| chat_id subs IH]; intros op [| slot slots] H;
    cbn [slots_for] in *; try contradiction; [exact I |].
  destruct H as ((A & B & C) & H). split; [| apply IH; exact H].
  unfold slot_for, get_user_language_sql. rewrite U. auto.
Qed.

Section FanOutOfAStep.
Variable E : Env.

Lemma update_last_commit_run repo commit_sha commit_date w :
  update_last_commit E repo commit_sha commit_date w
  = if db_ok E (ndb w)
    then (Ok tt,
          mkWorld (update_last_commit_sql repo commit_sha commit_date (clock E (nclock w))
                                          (db w))
                  (journal w ++ [update_last_commit_sql repo commit_sha commit_date
                                                        (clock E (nclock w)) (db w)])
                  (outbox w) (reqlog w) (S (nclock w)) (S (ndb w)))
    else (Raised StoreError,
          mkWorld (db w) (journal w) (outbox w) (reqlog w) (nclock w) (S (ndb w))).
Proof.
  unfold update_last_commit, bind, db_begin, now, db_write, set_db.
  destruct (db_ok E (ndb w)); reflexivity.
Qed.

Lemma get_repo_subscribers_run repo w :
  get_repo_subscribers E repo w
  = if db_ok E (ndb w)
    then (Ok (get_repo_subscribers_sql repo (db w)),
          mkWorld (db w) (journal w) (outbox w) (reqlog w) (nclock w) (S (ndb w)))
    else (Raised StoreError,
          mkWorld (db w) (journal w) (outbox w) (reqlog w) (nclock w) (S (ndb w))).
Proof.
  unfold get_repo_subscribers, bind, db_begin, db_read.
  destruct (db_ok E (ndb w)); reflexivity.
Qed.
End FanOutOfAStep.

Lemma process_new_commits_fan_out :
  forall (E : Env) (repo : string) (commits : list Commit) (w : World),
    commits <> [] ->
    forallb (db_ok E) (seq (ndb w) (List.length commits + 2)) = true ->
    outcome (process_new_commits E repo commits) w = Ok tt /\
    db (exec (process_new_commits E repo commits) w)
    = processed_sql repo commits (clock E (nclock w)) (db w) /\
    (exists slots,
        outbox (exec (process_new_commits E repo commits) w) = outbox w ++ List.concat slots /\
        slots_for E (db w) repo (sort_newest_first commits)
                  (ndb w + List.length commits + 2)
                  (get_repo_subscribers_sql repo (db w)) slots).
Proof.
  intros E repo commits w NE OKW.
  pose proof (run_pair (process_new_commits E repo commits) w) as H.
  set (w9 := exec (process_new_commits E repo commits) w) in *.
  set (r9 := outcome (process_new_commits E repo commits) w) in *.
  unfold process_new_commits, processed_sql in *.
  pose proof (sort_newest_first_length commits) as L.
  destruct (sort_newest_first_head commits NE)
      as (latest & earlier & later & rest & SRT & _).
  rewrite SRT in *.
  rewrite <- L in *.
  rewrite seq_app, forallb_app in OKW.
  apply andb_true_iff in OKW. destruct OKW as (OK1 & OK2).
  cbn [seq forallb] in OK2. rewrite andb_true_r in OK2.
  apply andb_true_iff in OK2. destruct OK2 as (OK2 & OK3).
  apply ok_run_all in OK1.
  apply bind_inv in H. destruct H as [(u & w1 & H1 & H2) | (e & H1 & R)];
    pose proof (log_each_nclock _ _ _ _ _ H1) as C1;
    apply log_each_writes in H1; destruct H1 as (J1 & D1 & O1 & R1);
    rewrite OK1, Nat.eqb_refl in R1; destruct R1 as (R1 & N1); try discriminate.
  rewrite OK1 in D1.
  rewrite <- (log_states_length (latest :: rest) (db w)) in D1 at 1.
  rewrite firstn_all, log_states_last in D1.
  unfold bind in H2. rewrite update_last_commit_run, N1, OK2 in H2.
  rewrite get_repo_subscribers_run in H2. cbn [ndb] in H2.
  rewrite OK3 in H2. cbn [db journal outbox reqlog nclock ndb] in H2.
  apply notify_subscribers_inv in H2.
  destruct H2 as (R2 & slots & (D2 & J2 & O2 & L2) & F2).
  cbn [db journal outbox reqlog nclock ndb] in *.
  split; [exact R2 |]. split; [rewrite D2, C1, D1; reflexivity |].
  exists slots. split; [rewrite O2, O1; reflexivity |].
  replace (ndb w + List.length (latest :: rest) + 2)%nat
    with (S (S (ndb w + List.length (latest :: rest)))) by lia.
  apply (slots_for_users E _ (db w)) in F2.
  - unfold get_repo_subscribers_sql, update_last_commit_sql in F2.
    cbn [repositories] in F2.
    rewrite set_watermark_subscribers, D1, log_all_repositories in F2. exact F2.
  - unfold update_last_commit_sql. cbn [users]. rewrite D1. symmetry. apply log_all_users.
Qed.

(** C6. Take a step of the sweep over a batch that is not empty, whose
    writes and whose query for the subscribers go through (the store
    operations of the step up to that query).  Whatever the sink does, and
    whatever the store does from there on, the step returns normally, the
    store stays as the writes left it, watermark included, and the sink is
    handed one slot of deliveries for each stored subscriber of the
    repository, in their order.  The slot of a subscriber depends on that
    subscriber alone: it is the whole batch in that subscriber's language
    (five commits at most, then the summary), each delivery with the verdict
    the sink gave it, when the one store operation that reads that
    subscriber's language goes through, and it is empty when that operation
    fails.  So neither a delivery that fails nor a subscriber whose turn
    raises takes anything away from the subscribers that follow.  A pass
    never raises, and the loop of the sweep goes on with the next
    repository. *)
Theorem fan_out_isolated :
  forall (E : Env) (repo : string) (commits : list Commit) (w : World),
    commits <> [] ->
    forallb (db_ok E) (seq (ndb w) (List.length commits + 2)) = true ->
    outcome (process_new_commits E repo commits) w = Ok tt /\
    db (exec (process_new_commits E repo commits) w)
    = processed_sql repo commits (clock E (nclock w)) (db w) /\
    (exists slots,
        outbox (exec (process_new_commits E repo commits) w) = outbox w ++ List.concat slots /\
        slots_for E (db w) repo (sort_newest_first commits)
                  (ndb w + List.length commits + 2)
                  (get_repo_subscribers_sql repo (db w)) slots) /\
    (forall (branch : string) (w0 : World),
        outcome (check_repository E repo branch) w0 = Ok tt) /\
    (forall (r : MonitoredRepo) (rest : list MonitoredRepo) (w0 : World),
        outcome (sweep E (r :: rest)) w0 = Ok tt /\
        exec (sweep E (r :: rest)) w0
        = exec (sweep E rest)
               (exec (check_repository E (m_repo_full_name r) (m_branch r)) w0)).
Proof.
  intros E repo commits w NE OKW.
  destruct (process_new_commits_fan_out E repo commits w NE OKW) as (R & D & S).
  split; [exact R |]. split; [exact D |]. split; [exact S |]. split.
  - intros branch w0.
    pose proof (run_pair (check_repository E repo branch) w0) as H.
    apply check_repository_inv in H. apply H.
  - intros r rest w0. split; [unfold outcome; now rewrite sweep_ok | apply sweep_cons].
Qed.

(** Users 9, 8 and 7 follow the repository, added in this order. *)
Definition world_followed : World :=
  exec (add_repository (demo_env 0 []) 7 demo_repo "https://github.com/acme/widgets" "main")
       (exec (add_repository (demo_env 0 []) 8 demo_repo "https://github.com/acme/widgets"
                             "main")
             (exec (add_repository (demo_env 0 []) 9 demo_repo
                                   "https://github.com/acme/widgets" "main")
                   fresh_world)).

(** Every delivery to subscriber 7 fails, and the store fails at its ninth
    operation, which in a step over two commits from [world_followed] is the
    one that reads the language of subscriber 8. *)
Definition shaky_env : Env :=
  mkEnv (fun _ => 6000000000) (fun _ _ => RaisedTimeout)
        (fun _ chat_id _ => negb (chat_id =? 7))
        (fun n => negb (Nat.eqb n 8)) [].

Lemma fan_out_isolated_witness :
  [demo_commit "c2" 200; demo_commit "c3" 300] <> [] /\
  forallb (db_ok shaky_env)
          (seq (ndb world_followed)
               (List.length [demo_commit "c2" 200; demo_commit "c3" 300] + 2)) = true /\
  get_repo_subscribers_sql demo_repo (db world_followed) = [7; 8; 9] /\
  outcome (process_new_commits shaky_env demo_repo
             [demo_commit "c2" 200; demo_commit "c3" 300]) world_followed = Ok tt /\
  map (fun x => (d_chat_id x, d_ok x))
      (outbox (exec (process_new_commits shaky_env demo_repo
                       [demo_commit "c2" 200; demo_commit "c3" 300]) world_followed))
  = [(7, false); (7, false); (9, true); (9, true)].
Proof.
  assert (NE : [demo_commit "c2" 200; demo_commit "c3" 300] <> []) by discriminate.
  assert (OKW : forallb (db_ok shaky_env)
                        (seq (ndb world_followed)
                             (List.length [demo_commit "c2" 200; demo_commit "c3" 300] + 2))
                = true) by (vm_compute; reflexivity).
  split; [exact NE |]. split; [exact OKW |].
  split; [vm_compute; reflexivity |].
  split; [| vm_compute; reflexivity].
  exact (proj1 (fan_out_isolated shaky_env demo_repo
                  [demo_commit "c2" 200; demo_commit "c3" 300] world_followed NE OKW)).
Defined.

(** ** A fetch that fails *)


(** A host whose listing of [acme/broken] is a 404 and whose listing of any
    other repository is commit [c5]. *)
Definition flaky_env : Env :=
  mkEnv (fun _ => 7000000000)
        (fun _ req =>
           match req with
           | ReqRepo _ =>
               Http 200 (JsonRepo (mkRepoInfo (Some "main") (Some "https://github.com/acme")))
           | ReqCommits repo _ _ =>
               if String.eqb repo "acme/broken" then Http 404 JsonOther
               else Http 200 (JsonCommits [demo_raw "c5" 500])
           | ReqCommitDetail _ _ => Http 404 JsonOther
           end)
        (fun _ _ _ => true)
        (fun _ => true)
        [7; 8].

(** User 7 follows [acme/broken], then [acme/widgets]. *)
Definition world_pair : World :=
  exec (handle_add (demo_env 5000000000 [demo_raw "c1" 100]) 7 ["/add"; demo_repo])
       (exec (handle_add flaky_env 7 ["/add"; "acme/broken"]) fresh_world).

(** The sweep meets the failing repository first and still moves the
    watermark of the second one. *)
Example sweep_goes_on_after_failed_fetch :
  stored_watermarks world_pair = [None; Some "c1"] /\
  stored_watermarks (exec (check_all_repositories flaky_env) world_pair)
  = [None; Some "c5"].
Proof. vm_compute. split; reflexivity. Qed.


(** ** The first pass over a repository *)

Lemma well_formed_commits_In repo raws c :
  In c (well_formed_commits repo raws) ->
  exists raw secs, In raw raws /\ rc_date raw = DateAt secs /\ date c = strptime_wire secs.
Proof.
  unfold well_formed_commits. rewrite in_flat_map. intros (raw & I & P).
  unfold parse_commit_info in P.
  destruct (rc_sha raw), (rc_message raw), (rc_author_name raw), (rc_author_email raw),
    (rc_date raw) as [| | secs] eqn:D, (rc_html_url raw); simpl in P; try contradiction.
  destruct P as [P | []]. subst c. exists raw, secs. auto.
Qed.

Lemma strftime_wire_floor t :
  strptime_wire (strftime_wire t) <= t < strptime_wire (strftime_wire t) + MICROS.
Proof.
  unfold strptime_wire, strftime_wire, MICROS.
  pose proof (Z.div_mod t 1000000). pose proof (Z.mod_pos_bound t 1000000). lia.
Qed.

(** C5, as the code has it.  A repository without a stored watermark date
    is fetched with the lower bound "clock reading minus 24 hours" cut down
    to the whole second, which is what the request can carry: the bound sent
    is at most that instant and less than a second before it.  If the remote
    host honours the bound it is sent, every commit the pass delivers is
    dated at or after the bound sent. *)
Theorem first_pass_lookback :
  forall (E : Env) (repo branch : string) (w : World),
    db_ok E (ndb w) = true ->
    get_last_commit_date_sql repo (db w) = None ->
    (forall raw secs,
        In raw (listed (github_http E (List.length (reqlog w))
                          (ReqCommits repo branch
                             (Some (strftime_wire (clock E (nclock w) - timedelta_hours 24))))))
        -> rc_date raw = DateAt secs ->
        strftime_wire (clock E (nclock w) - timedelta_hours 24) <= secs) ->
    (exists more,
        reqlog (exec (check_repository E repo branch) w)
        = reqlog w
          ++ ReqCommits repo branch
               (Some (strftime_wire (clock E (nclock w) - timedelta_hours 24))) :: more) /\
    strptime_wire (strftime_wire (clock E (nclock w) - timedelta_hours 24))
    <= clock E (nclock w) - timedelta_hours 24
    < strptime_wire (strftime_wire (clock E (nclock w) - timedelta_hours 24)) + MICROS /\
    exists sent,
      outbox (exec (check_repository E repo branch) w) = outbox w ++ sent /\
      Forall (fun x => forall c t,
                  d_note x = CommitMessage c t ->
                  strptime_wire (strftime_wire (clock E (nclock w) - timedelta_hours 24))
                  <= date c) sent.
Proof.
  intros E repo branch w K NONE HONOUR.
  pose proof (run_pair (check_repository E repo branch) w) as H.
  apply check_repository_inv in H.
  destruct H as (_ & _ & (sent & O & F) & RQ & _).
  assert (LB : lower_bound E w repo = clock E (nclock w) - timedelta_hours 24)
    by (unfold lower_bound; now rewrite NONE).
  unfold fresh_delivery, fetched, listing_request in *. rewrite LB in *.
  split; [exact (RQ K) |]. split; [apply strftime_wire_floor |].
  exists sent. split; [exact O |].
  eapply Forall_impl; [| exact F]. intros x X c t N.
  destruct (X c t N) as (_ & _ & _ & c0 & I & (_ & DT & _)).
  apply well_formed_commits_In in I. destruct I as (raw & secs & I & RD & DC).
  specialize (HONOUR raw secs I RD).
  rewrite DT, DC. unfold strptime_wire, MICROS. lia.
Qed.

(** User 7 follows the repository while the host lists no commit: the row
    has no watermark. *)
Definition world_bare : World :=
  exec (handle_add (demo_env 5000000000 []) 7 ["/add"; demo_repo]) fresh_world.

(** Half a second past the first day: the lookback bound is half a second
    past the epoch, the request carries second 0. *)
Definition late_env : Env := demo_env 86400500000 [demo_raw "old" 0].

Lemma first_pass_lookback_witness :
  db_ok late_env (ndb world_bare) = true /\
  get_last_commit_date_sql demo_repo (db world_bare) = None /\
  exists sent,
    outbox (exec (check_repository late_env demo_repo "main") world_bare)
    = outbox world_bare ++ sent /\
    Forall (fun x => forall c t, d_note x = CommitMessage c t -> 0 <= date c) sent.
Proof.
  assert (K : db_ok late_env (ndb world_bare) = true) by reflexivity.
  assert (N : get_last_commit_date_sql demo_repo (db world_bare) = None)
    by (vm_compute; reflexivity).
  split; [exact K |]. split; [exact N |].
  assert (H : forall raw secs,
             In raw (listed (github_http late_env (List.length (reqlog world_bare))
                               (ReqCommits demo_repo "main"
                                  (Some (strftime_wire
                                           (clock late_env (nclock world_bare)
                                            - timedelta_hours 24))))))
             -> rc_date raw = DateAt secs ->
             strftime_wire (clock late_env (nclock world_bare) - timedelta_hours 24) <= secs).
  { intros raw secs I D. simpl in I. destruct I as [I | []]. subst raw.
    inversion D; subst secs. vm_compute. discriminate. }
  destruct (first_pass_lookback late_env demo_repo "main" world_bare K N H)
    as (_ & _ & sent & O & F).
  exists sent. split; [exact O |]. exact F.
Defined.

(** The pass delivers a commit dated half a second before "clock reading
    minus 24 hours", although the host honoured the bound of the request. *)
Lemma first_pass_reports_before_bound :
  get_last_commit_date_sql demo_repo (db world_bare) = None /\
  clock late_env (nclock world_bare) - timedelta_hours 24 = 500000 /\
  reqlog (exec (check_repository late_env demo_repo "main") world_bare)
  = reqlog world_bare
    ++ [ReqCommits demo_repo "main" (Some 0); ReqCommitDetail demo_repo "old"] /\
  map rc_date (listed (github_http late_env 0 (ReqCommits demo_repo "main" (Some 0))))
  = [DateAt 0] /\
  map (fun x => match d_note x with
                | CommitMessage c _ => Some (sha c, date c)
                | _ => None
                end)
      (skipn (List.length (outbox world_bare))
             (outbox (exec (check_repository late_env demo_repo "main") world_bare)))
  = [Some ("old", 0)] /\
  0 < clock late_env (nclock world_bare) - timedelta_hours 24.
Proof. vm_compute. repeat split. Qed.


(** ** Recording a commit twice *)

(** C8, as the code has it.  With a working store, [log_commit] appends one
    row for the commit whether or not the history holds the pair
    (repository, hash) already, so recording the same commit twice leaves two
    rows for it.  Recording is idempotent only for what [is_commit_logged]
    answers: after the second recording it answers as after the first, for
    every repository and hash. *)
Theorem log_commit_appends :
  forall (E : Env) (c : Commit) (w : World),
    healthy_store E ->
    (exists row,
        commit_history (db (exec (log_commit E c) w)) = commit_history (db w) ++ [row] /\
        h_repo_full_name row = repo_full_name c /\ h_commit_sha row = sha c) /\
    (exists row1 row2,
        commit_history (db (exec (log_commit E c) (exec (log_commit E c) w)))
        = commit_history (db w) ++ [row1; row2] /\
        h_repo_full_name row1 = repo_full_name c /\ h_commit_sha row1 = sha c /\
        h_repo_full_name row2 = repo_full_name c /\ h_commit_sha row2 = sha c) /\
    logged (db (exec (log_commit E c) w)) (repo_full_name c) (sha c) /\
    forall repo commit_sha,
      is_commit_logged_sql repo commit_sha (db (exec (log_commit E c) (exec (log_commit E c) w)))
      = is_commit_logged_sql repo commit_sha (db (exec (log_commit E c) w)).
Proof.
  intros E c w OKS.
  assert (D : forall u, db (exec (log_commit E c) u) = log_commit_sql c (db u)).
  { intros u. unfold exec, log_commit, bind, db_begin, db_write. rewrite OKS. reflexivity. }
  rewrite !D. unfold log_commit_sql at 1 2. simpl.
  split; [eexists; split; [reflexivity | simpl; auto] |].
  split; [do 2 eexists; split; [rewrite <- app_assoc; reflexivity | simpl; auto] |].
  split; [apply log_commit_sql_logged |].
  intros repo commit_sha. unfold is_commit_logged_sql. simpl.
  rewrite !existsb_app. simpl.
  destruct (String.eqb (repo_full_name c) repo && String.eqb (sha c) commit_sha);
    rewrite ?orb_true_r, ?orb_false_r; reflexivity.
Qed.

Lemma log_commit_appends_witness :
  healthy_store (demo_env 0 []) /\
  logged (db (exec (log_commit (demo_env 0 []) (demo_commit "c9" 900)) fresh_world))
         demo_repo "c9".
Proof.
  assert (H : healthy_store (demo_env 0 [])) by (intros n; reflexivity).
  split; [exact H |].
  exact (proj1 (proj2 (proj2 (log_commit_appends (demo_env 0 []) (demo_commit "c9" 900)
                                                 fresh_world H)))).
Defined.

(** Recording one commit twice is not the same as recording it once: the
    history holds the pair twice. *)
Lemma log_commit_twice_duplicates :
  map (fun h => (h_repo_full_name h, h_commit_sha h))
      (commit_history
         (db (exec (log_commit (demo_env 0 []) (demo_commit "c9" 900)) fresh_world)))
  = [(demo_repo, "c9")] /\
  map (fun h => (h_repo_full_name h, h_commit_sha h))
      (commit_history
         (db (exec (log_commit (demo_env 0 []) (demo_commit "c9" 900))
                   (exec (log_commit (demo_env 0 []) (demo_commit "c9" 900)) fresh_world))))
  = [(demo_repo, "c9"); (demo_repo, "c9")] /\
  db (exec (log_commit (demo_env 0 []) (demo_commit "c9" 900))
           (exec (log_commit (demo_env 0 []) (demo_commit "c9" 900)) fresh_world))
  <> db (exec (log_commit (demo_env 0 []) (demo_commit "c9" 900)) fresh_world).
Proof.
  split; [vm_compute; reflexivity |]. split; [vm_compute; reflexivity |].
  intros H. apply (f_equal (fun d => List.length (commit_history d))) in H.
  vm_compute in H. discriminate.
Qed.

(** ** Rows of the [repositories] table *)

Definition subscription_key (r : RepoRow) : ChatId * string :=
  (r_chat_id r, r_repo_full_name r).

(** [UNIQUE(chat_id, repo_full_name)]. *)
Definition unique_subscriptions (d : Database) : Prop :=
  NoDup (map subscription_key (repositories d)).

Lemma same_subscription_key chat_id repo r :
  same_subscription chat_id repo r = true <-> subscription_key r = (chat_id, repo).
Proof.
  unfold same_subscription, subscription_key.
  rewrite andb_true_iff, Z.eqb_eq, String.eqb_eq. split.
  - intros (A & B). congruence.
  - intros H. inversion H. auto.
Qed.

Lemma NoDup_map_filter {A B} (f : A -> B) (p : A -> bool) l :
  NoDup (map f l) -> NoDup (map f (filter p l)).
Proof.
  induction l as [| x l IH]; simpl; [auto |]. intros H. inversion H as [| y ys NI ND]; subst.
  destruct (p x); simpl; [| auto]. constructor; [| auto].
  intros I. apply NI. apply in_map_iff in I. destruct I as (z & Z & I).
  apply filter_In in I. rewrite <- Z. apply in_map. apply I.
Qed.

Lemma add_repository_sql_repositories chat_id repo repo_url branch t d :
  repositories (add_repository_sql chat_id repo repo_url branch t d)
  = filter (fun r => negb (same_subscription chat_id repo r)) (repositories d)
    ++ [mkRepoRow (repositories_seq d + 1) chat_id repo repo_url None (Some t) None branch].
Proof.
  unfold add_repository_sql, insert_or_ignore_user.
  destruct (user_exists chat_id d); reflexivity.
Qed.

Lemma filter_others_idem chat_id repo rows :
  filter (fun r => negb (same_subscription chat_id repo r))
         (filter (fun r => negb (same_subscription chat_id repo r)) rows)
  = filter (fun r => negb (same_subscription chat_id repo r)) rows.
Proof.
  induction rows as [| r rows IH]; simpl; [reflexivity |].
  destruct (same_subscription chat_id repo r) eqn:X; simpl; [exact IH |].
  rewrite X. simpl. now rewrite IH.
Qed.

Lemma filter_own_of_others chat_id repo rows :
  filter (same_subscription chat_id repo)
         (filter (fun r => negb (same_subscription chat_id repo r)) rows) = [].
Proof.
  induction rows as [| r rows IH]; simpl; [reflexivity |].
  destruct (same_subscription chat_id repo r) eqn:X; simpl; [exact IH |].
  rewrite X. exact IH.
Qed.

(** C9, as the code has it.  The [repositories] table holds one row per
    subscription, that is per pair (subscriber, repository), and
    [add_repository] keeps it so.  It replaces the row of the subscriber who
    adds the repository by a fresh row whose last-known commit hash and
    timestamp are empty, and leaves every other row of the table, with its
    last-known commit hash and timestamp, as it was. *)
Theorem add_repository_replaces_own_row :
  forall (E : Env) (chat_id : ChatId) (repo repo_url branch : string) (w : World),
    unique_subscriptions (db w) ->
    unique_subscriptions (db (exec (add_repository E chat_id repo repo_url branch) w)) /\
    filter (fun r => negb (same_subscription chat_id repo r))
           (repositories (db (exec (add_repository E chat_id repo repo_url branch) w)))
    = filter (fun r => negb (same_subscription chat_id repo r)) (repositories (db w)) /\
    filter (same_subscription chat_id repo)
           (repositories (db (exec (add_repository E chat_id repo repo_url branch) w)))
    = if db_ok E (ndb w)
      then [mkRepoRow (repositories_seq (db w) + 1) chat_id repo repo_url
                      None (Some (clock E (nclock w))) None branch]
      else filter (same_subscription chat_id repo) (repositories (db w)).
Proof.
  intros E chat_id repo repo_url branch w U.
  pose proof (run_pair (add_repository E chat_id repo repo_url branch) w) as H.
  apply db_update_now_inv in H. destruct H as (_ & _ & H).
  destruct (db_ok E (ndb w)).
  - destruct H as (_ & D & _). rewrite D, add_repository_sql_repositories.
    assert (OWN : same_subscription chat_id repo
                    (mkRepoRow (repositories_seq (db w) + 1) chat_id repo repo_url None
                               (Some (clock E (nclock w))) None branch) = true).
    { apply same_subscription_key. reflexivity. }
    split; [| split].
    + unfold unique_subscriptions. rewrite add_repository_sql_repositories, map_app.
      apply NoDup_app.
      * apply NoDup_map_filter. exact U.
      * simpl. constructor; [simpl; tauto | constructor].
      * intros k I [K | []]. subst k. apply in_map_iff in I.
        destruct I as (r & K & I). apply filter_In in I. destruct I as (_ & I).
        change (subscription_key r = (chat_id, repo)) in K.
        apply same_subscription_key in K. rewrite K in I. discriminate.
    + rewrite filter_app, filter_others_idem. simpl. rewrite OWN. simpl.
      apply app_nil_r.
    + rewrite filter_app, filter_own_of_others. simpl. rewrite OWN. reflexivity.
  - destruct H as (_ & D & _). rewrite D. auto.
Qed.

Lemma add_repository_replaces_own_row_witness :
  unique_subscriptions (db world_added) /\
  unique_subscriptions
    (db (exec (add_repository (demo_env 0 []) 8 demo_repo "https://github.com/acme/widgets"
                              "main") world_added)).
Proof.
  assert (U : unique_subscriptions (db world_added)).
  { unfold unique_subscriptions.
    assert (R : map subscription_key (repositories (db world_added)) = [(7, demo_repo)])
      by (vm_compute; reflexivity).
    rewrite R. constructor; [simpl; tauto | constructor]. }
  split; [exact U |].
  exact (proj1 (add_repository_replaces_own_row (demo_env 0 []) 8 demo_repo
                  "https://github.com/acme/widgets" "main" world_added U)).
Defined.

(** A second subscriber adds the repository: the table holds two rows for
    the one repository, and the new row has no watermark while the first one
    has; and when the only subscriber adds the repository again, the
    watermark read for the repository is gone. *)
Lemma repositories_rows_per_subscriber :
  map (fun r => (r_chat_id r, r_repo_full_name r, r_last_commit_sha r, r_last_commit_date r))
      (repositories (db world_added))
  = [(7, demo_repo, Some "c1", Some 100000000)] /\
  map (fun r => (r_chat_id r, r_repo_full_name r, r_last_commit_sha r, r_last_commit_date r))
      (repositories
         (db (exec (add_repository (demo_env 0 []) 8 demo_repo
                                   "https://github.com/acme/widgets" "main") world_added)))
  = [(7, demo_repo, Some "c1", Some 100000000); (8, demo_repo, None, None)] /\
  get_last_commit_date_sql demo_repo (db world_added) = Some 100000000 /\
  get_last_commit_date_sql demo_repo
    (db (exec (add_repository (demo_env 0 []) 7 demo_repo
                              "https://github.com/acme/widgets" "main") world_added))
  = None.
Proof. vm_compute. repeat split. Qed.


(** ** The [/add] command *)

Section AddCommand.
Variable E : Env.
Hypothesis store_ok : healthy_store E.

Lemma handler_user_language_inv chat_id w r w' :
  handler_user_language E chat_id w = (r, w') ->
  (exists language, r = Ok language) /\
  repositories (db w') = repositories (db w) /\
  repositories_seq (db w') = repositories_seq (db w) /\
  commit_history (db w') = commit_history (db w) /\
  outbox w' = outbox w.
Proof.
  unfold handler_user_language, get_user_language, add_user, bind, db_begin, db_read,
    db_write, ret, set_db. rewrite store_ok. simpl.
  destruct (get_user_language_sql chat_id (db w)) as [l |].
  - intros H; inversion H; subst; simpl. eauto 6.
  - rewrite store_ok. intros H; inversion H; subst; simpl.
    unfold insert_or_ignore_user. destruct (user_exists chat_id (db w)); simpl; eauto 6.
Qed.

Lemma bot_send_ok_inv chat_id note w r w' :
  (forall n, bot_ok E n chat_id note = true) ->
  bot_send E chat_id note w = (r, w') ->
  r = Ok tt /\ db w' = db w.
Proof.
  intros OKB. unfold bot_send. rewrite OKB. intros H; inversion H; subst; auto.
Qed.
End AddCommand.

(** The hashes of the commit messages handed to the sink for a chat. *)
Definition commit_messages_to (chat_id : ChatId) (w : World) : list string :=
  flat_map (fun x => if d_chat_id x =? chat_id
                     then match d_note x with
                          | CommitMessage c _ => [sha c]
                          | CommitSummary _ _ _ _ => ["summary"]
                          | _ => []
                          end
                     else [])
           (outbox w).





(** ** The end-to-end scenarios of the specification *)

(** Users 7 and 8 follow the repository while the host lists no commit. *)
Definition world_two_subscribers : World :=
  exec (handle_add (demo_env 5000000000 []) 8 ["/add"; demo_repo]) world_bare.

(** Ten hours after the epoch the host lists three commits, dated 7h, 8h
    and 9h, not in order. *)
Definition three_commits_env : Env :=
  demo_env 36000000000 [demo_raw "t2" 28800; demo_raw "t1" 32400; demo_raw "t3" 25200].

(** No prior state, three commits inside the window: all three are
    detected, the watermark is the newest one, each subscriber gets three
    messages and no summary. *)
Example end_to_end_first_sweep :
  stored_watermarks world_two_subscribers = [None; None] /\
  stored_watermarks (exec (check_all_repositories three_commits_env) world_two_subscribers)
  = [Some "t1"; Some "t1"] /\
  map r_last_commit_date
      (repositories (db (exec (check_all_repositories three_commits_env)
                              world_two_subscribers)))
  = [Some (strptime_wire 32400); Some (strptime_wire 32400)] /\
  commit_messages_to 7 (exec (check_all_repositories three_commits_env) world_two_subscribers)
  = ["t1"; "t2"; "t3"] /\
  commit_messages_to 8 (exec (check_all_repositories three_commits_env) world_two_subscribers)
  = ["t1"; "t2"; "t3"].
Proof. vm_compute. repeat split. Qed.

(** The watermark is at [c1]; the host lists [c2] and [c1] again: only [c2]
    is delivered, and a second sweep over the same listing delivers
    nothing. *)
Example end_to_end_known_commit_filtered :
  commit_messages_to 7 world_added = [] /\
  commit_messages_to 7 world_swept = ["c2"] /\
  outbox (exec (check_all_repositories
                  (demo_env 6000000000 [demo_raw "c2" 200; demo_raw "c1" 100]))
               world_swept)
  = outbox world_swept.
Proof. vm_compute. repeat split. Qed.


(** * The rest of the store *)

(** ** database.py: the remaining statements *)

(** [update_user_language]: insert the user with this language when the
    [SELECT] finds no row, update the language of the row otherwise. *)
Definition update_user_language_sql (chat_id : ChatId) (language : string) (d : Database)
  : Database :=
  if user_exists chat_id d
  then mkDatabase
         (map (fun u => if u_chat_id u =? chat_id
                        then mkUserRow (u_chat_id u) (u_username u) language
                        else u) (users d))
         (repositories d) (repositories_seq d) (commit_history d) (commit_history_seq d)
  else mkDatabase (users d ++ [mkUserRow chat_id None language])
                  (repositories d) (repositories_seq d)
                  (commit_history d) (commit_history_seq d).

(** [ORDER BY repo_full_name]: ascending in the byte order of the names. *)
Fixpoint insert_by_name (r : RepoRow) (l : list RepoRow) : list RepoRow :=
  match l with
  | [] => [r]
  | y :: rest =>
      if String.leb (r_repo_full_name r) (r_repo_full_name y)
      then r :: y :: rest
      else y :: insert_by_name r rest
  end.

Definition order_by_name (l : list RepoRow) : list RepoRow :=
  fold_right insert_by_name [] l.

(** [SELECT * FROM repositories WHERE chat_id = ? ORDER BY repo_full_name]. *)
Definition get_user_repos_sql (chat_id : ChatId) (d : Database) : list RepoRow :=
  order_by_name (filter (fun r => r_chat_id r =? chat_id) (repositories d)).

Section MoreDatabaseMethods.
Variable E : Env.

Definition update_user_language (chat_id : ChatId) (language : string) : M unit :=
  db_begin E ;; db_write (update_user_language_sql chat_id language).

Definition get_user_repos (chat_id : ChatId) : M (list RepoRow) :=
  db_begin E ;; db_read (get_user_repos_sql chat_id).
End MoreDatabaseMethods.

(** ** Users *)

(** [chat_id INTEGER PRIMARY KEY]. *)
Definition unique_users (d : Database) : Prop := NoDup (map u_chat_id (users d)).

Lemma user_exists_In chat_id d :
  user_exists chat_id d = true <-> In chat_id (map u_chat_id (users d)).
Proof.
  unfold user_exists. rewrite existsb_exists, in_map_iff. split.
  - intros (u & I & Q). apply Z.eqb_eq in Q. eauto.
  - intros (u & Q & I). exists u. split; [exact I | now apply Z.eqb_eq].
Qed.

Lemma get_user_language_sql_none chat_id d :
  get_user_language_sql chat_id d = None <-> user_exists chat_id d = false.
Proof.
  unfold get_user_language_sql, user_exists.
  induction (users d) as [| u l IH]; simpl; [tauto |].
  destruct (u_chat_id u =? chat_id); simpl; [split; discriminate | exact IH].
Qed.

Lemma find_user_app chat_id (l1 l2 : list UserRow) :
  find (fun u => u_chat_id u =? chat_id) (l1 ++ l2)
  = match find (fun u => u_chat_id u =? chat_id) l1 with
    | Some u => Some u
    | None => find (fun u => u_chat_id u =? chat_id) l2
    end.
Proof.
  induction l1 as [| u l IH]; simpl; [reflexivity |].
  destruct (u_chat_id u =? chat_id); [reflexivity | exact IH].
Qed.

Lemma find_user_relabel chat_id other language (l : list UserRow) :
  option_map u_language
    (find (fun u => u_chat_id u =? other)
          (map (fun u => if u_chat_id u =? chat_id
                         then mkUserRow (u_chat_id u) (u_username u) language
                         else u) l))
  = if other =? chat_id
    then option_map (fun _ => language) (find (fun u => u_chat_id u =? other) l)
    else option_map u_language (find (fun u => u_chat_id u =? other) l).
Proof.
  induction l as [| u l IH]; simpl; [destruct (other =? chat_id); reflexivity |].
  destruct (u_chat_id u =? chat_id) eqn:A; simpl.
  - apply Z.eqb_eq in A. destruct (u_chat_id u =? other) eqn:B.
    + apply Z.eqb_eq in B. assert (O : (other =? chat_id) = true) by (apply Z.eqb_eq; lia).
      rewrite O. reflexivity.
    + exact IH.
  - destruct (u_chat_id u =? other) eqn:B; [| exact IH].
    apply Z.eqb_eq in B. apply Z.eqb_neq in A.
    assert (O : (other =? chat_id) = false) by (apply Z.eqb_neq; lia).
    rewrite O. reflexivity.
Qed.

Lemma get_user_language_sql_find chat_id d :
  get_user_language_sql chat_id d
  = option_map u_language (find (fun u => u_chat_id u =? chat_id) (users d)).
Proof.
  unfold get_user_language_sql.
  destruct (find (fun u => u_chat_id u =? chat_id) (users d)); reflexivity.
Qed.

Lemma find_user_none chat_id (l : list UserRow) :
  existsb (fun u => u_chat_id u =? chat_id) l = false ->
  find (fun u => u_chat_id u =? chat_id) l = None.
Proof.
  induction l as [| u l IH]; simpl; [reflexivity |].
  destruct (u_chat_id u =? chat_id); simpl; [discriminate | exact IH].
Qed.

Lemma find_user_some chat_id (l : list UserRow) :
  existsb (fun u => u_chat_id u =? chat_id) l = true ->
  exists u, find (fun u => u_chat_id u =? chat_id) l = Some u.
Proof.
  induction l as [| u l IH]; simpl; [discriminate |].
  destruct (u_chat_id u =? chat_id); simpl; eauto.
Qed.

(** After [update_user_language] the stored language of the user is the new
    one, whether the user existed or not; no other user is touched. *)
Lemma update_user_language_sql_lookup chat_id language other d :
  get_user_language_sql other (update_user_language_sql chat_id language d)
  = if other =? chat_id then Some language else get_user_language_sql other d.
Proof.
  rewrite !get_user_language_sql_find. unfold update_user_language_sql.
  destruct (user_exists chat_id d) eqn:X; cbn [users].
  - rewrite find_user_relabel. destruct (other =? chat_id) eqn:O; [| reflexivity].
    apply Z.eqb_eq in O. subst other. unfold user_exists in X.
    destruct (find_user_some _ _ X) as (u & F). rewrite F. reflexivity.
  - rewrite find_user_app. unfold user_exists in X.
    destruct (other =? chat_id) eqn:O.
    + apply Z.eqb_eq in O. subst other. rewrite (find_user_none _ _ X). simpl.
      rewrite Z.eqb_refl. reflexivity.
    + destruct (find (fun u => u_chat_id u =? other) (users d)); [reflexivity |].
      simpl. rewrite Z.eqb_sym, O. reflexivity.
Qed.

Lemma insert_or_ignore_user_lookup chat_id username language other d :
  get_user_language_sql other (insert_or_ignore_user chat_id username language d)
  = match get_user_language_sql other d with
    | Some l => Some l
    | None => if other =? chat_id then Some language else None
    end.
Proof.
  rewrite !get_user_language_sql_find. unfold insert_or_ignore_user.
  destruct (user_exists chat_id d) eqn:X; cbn [users].
  - destruct (find (fun u => u_chat_id u =? other) (users d)) eqn:F; [reflexivity |].
    simpl. destruct (other =? chat_id) eqn:O; [| reflexivity].
    apply Z.eqb_eq in O. subst other. unfold user_exists in X.
    destruct (find_user_some _ _ X) as (u & F'). congruence.
  - rewrite find_user_app.
    destruct (find (fun u => u_chat_id u =? other) (users d)); [reflexivity |].
    simpl. rewrite Z.eqb_sym. destruct (other =? chat_id); reflexivity.
Qed.

Lemma relabel_chat_ids chat_id language (l : list UserRow) :
  map u_chat_id
      (map (fun u => if u_chat_id u =? chat_id
                     then mkUserRow (u_chat_id u) (u_username u) language
                     else u) l)
  = map u_chat_id l.
Proof.
  induction l as [| u l IH]; simpl; [reflexivity |].
  rewrite IH. destruct (u_chat_id u =? chat_id); reflexivity.
Qed.

Lemma unique_users_insert chat_id username language d :
  unique_users d -> unique_users (insert_or_ignore_user chat_id username language d).
Proof.
  unfold unique_users, insert_or_ignore_user. intros U.
  destruct (user_exists chat_id d) eqn:X; [exact U |]. cbn [users].
  rewrite map_app. apply NoDup_app; [exact U | constructor; [simpl; tauto | constructor] |].
  intros a I [A | []]. simpl in A. subst a.
  apply user_exists_In in I. congruence.
Qed.

Lemma unique_users_update chat_id language d :
  unique_users d -> unique_users (update_user_language_sql chat_id language d).
Proof.
  unfold unique_users, update_user_language_sql. intros U.
  destruct (user_exists chat_id d) eqn:X; cbn [users].
  - rewrite relabel_chat_ids. exact U.
  - rewrite map_app. apply NoDup_app; [exact U | constructor; [simpl; tauto | constructor] |].
    intros a I [A | []]. simpl in A. subst a.
    apply user_exists_In in I. congruence.
Qed.

Section StoreRuns.
Variable E : Env.

Lemma db_update_exec (f : Database -> Database) w :
  db (exec (db_begin E ;; db_write f) w) = if db_ok E (ndb w) then f (db w) else db w.
Proof.
  unfold exec, bind, db_begin, db_write, set_db. destruct (db_ok E (ndb w)); reflexivity.
Qed.

Lemma db_update_now_exec (f : datetime -> Database -> Database) w :
  db (exec (db_begin E ;; t <- now E ;; db_write (f t)) w)
  = if db_ok E (ndb w) then f (clock E (nclock w)) (db w) else db w.
Proof.
  unfold exec, bind, db_begin, now, db_write, set_db.
  destruct (db_ok E (ndb w)); reflexivity.
Qed.
End StoreRuns.

(** X1. [add_user] never overwrites: a chat that has a user row keeps its
    stored language, whatever language the call passes; a chat without one
    gets the language passed when it is the chat added and the store
    works, and stays without one otherwise. *)
Theorem add_user_keeps_existing_language :
  forall (E : Env) (chat_id : ChatId) (username : option string) (language : string)
         (other : ChatId) (w : World),
    get_user_language_sql other (db (exec (add_user E chat_id username language) w))
    = match get_user_language_sql other (db w) with
      | Some l => Some l
      | None => if (other =? chat_id) && db_ok E (ndb w) then Some language else None
      end.
Proof.
  intros E chat_id username language other w.
  unfold add_user. rewrite db_update_exec.
  destruct (db_ok E (ndb w)).
  - rewrite insert_or_ignore_user_lookup, andb_true_r. reflexivity.
  - rewrite andb_false_r. destruct (get_user_language_sql other (db w)); reflexivity.
Qed.

(** X2. When the store works, [update_user_language] followed by the
    language query gives the new language for that chat, whether it had a
    user row or not, and the language of every other chat as it was. *)
Theorem update_user_language_round_trip :
  forall (E : Env) (chat_id : ChatId) (language : string) (other : ChatId) (w : World),
    db_ok E (ndb w) = true ->
    get_user_language_sql other (db (exec (update_user_language E chat_id language) w))
    = if other =? chat_id then Some language else get_user_language_sql other (db w).
Proof.
  intros E chat_id language other w K.
  unfold update_user_language. rewrite db_update_exec, K.
  apply update_user_language_sql_lookup.
Qed.

Lemma update_user_language_round_trip_witness :
  db_ok (demo_env 0 []) (ndb world_added) = true /\
  get_user_language_sql 7 (db (exec (update_user_language (demo_env 0 []) 7 "fa") world_added))
  = Some "fa".
Proof.
  assert (K : db_ok (demo_env 0 []) (ndb world_added) = true) by reflexivity.
  split; [exact K |].
  exact (update_user_language_round_trip (demo_env 0 []) 7 "fa" 7 world_added K).
Defined.

Lemma add_repository_sql_users chat_id repo repo_url branch t d :
  users (add_repository_sql chat_id repo repo_url branch t d)
  = users (insert_or_ignore_user chat_id None DEFAULT_LANGUAGE d).
Proof.
  unfold add_repository_sql, insert_or_ignore_user.
  destruct (user_exists chat_id d); reflexivity.
Qed.

(** X3. The [users] table never holds two rows for one chat: the plain
    [INSERT] of [update_user_language] and the inserts of [add_user] and
    [add_repository] only add a chat that has no row, so the primary key is
    never violated, starting from the empty table. *)
Theorem users_stay_unique :
  forall (E : Env) (w : World),
    unique_users (db w) ->
    (forall chat_id username language,
        unique_users (db (exec (add_user E chat_id username language) w))) /\
    (forall chat_id language,
        unique_users (db (exec (update_user_language E chat_id language) w))) /\
    (forall chat_id repo repo_url branch,
        unique_users (db (exec (add_repository E chat_id repo repo_url branch) w))) /\
    unique_users init_db.
Proof.
  intros E w U. repeat split.
  - intros chat_id username language. unfold add_user. rewrite db_update_exec.
    destruct (db_ok E (ndb w)); [apply unique_users_insert |]; exact U.
  - intros chat_id language. unfold update_user_language. rewrite db_update_exec.
    destruct (db_ok E (ndb w)); [apply unique_users_update |]; exact U.
  - intros chat_id repo repo_url branch. unfold add_repository.
    rewrite db_update_now_exec. destruct (db_ok E (ndb w)); [| exact U].
    unfold unique_users. rewrite add_repository_sql_users.
    apply unique_users_insert. exact U.
  - constructor.
Qed.

Lemma users_stay_unique_witness :
  unique_users (db fresh_world) /\
  unique_users (db (exec (update_user_language (demo_env 0 []) 7 "fa") fresh_world)).
Proof.
  assert (U : unique_users (db fresh_world)) by constructor.
  split; [exact U |].
  exact (proj1 (proj2 (users_stay_unique (demo_env 0 []) fresh_world U)) 7 "fa").
Defined.

(** ** Subscriptions *)

Lemma subscribers_after_remove chat_id repo r rows :
  map r_chat_id
      (filter (fun x => String.eqb (r_repo_full_name x) r)
              (filter (fun x => negb (same_subscription chat_id repo x)) rows))
  = if String.eqb r repo
    then filter (fun c => negb (c =? chat_id))
                (map r_chat_id (filter (fun x => String.eqb (r_repo_full_name x) r) rows))
    else map r_chat_id (filter (fun x => String.eqb (r_repo_full_name x) r) rows).
Proof.
  unfold same_subscription.
  induction rows as [| x rows IH]; simpl; [destruct (String.eqb r repo); reflexivity |].
  destruct (String.eqb (r_repo_full_name x) r) eqn:N.
  - apply String.eqb_eq in N. rewrite N.
    destruct (String.eqb r repo) eqn:R.
    + rewrite andb_true_r. simpl.
      destruct (r_chat_id x =? chat_id); simpl.
      * exact IH.
      * rewrite N, String.eqb_refl. simpl. now rewrite IH.
    + rewrite andb_false_r. simpl. rewrite N, String.eqb_refl. simpl. now rewrite IH.
  - destruct (negb ((r_chat_id x =? chat_id) && String.eqb (r_repo_full_name x) repo));
      simpl; [rewrite N |]; exact IH.
Qed.

Lemma remove_repository_sql_subscribers chat_id repo r d :
  get_repo_subscribers_sql r (remove_repository_sql chat_id repo d)
  = if String.eqb r repo
    then filter (fun c => negb (c =? chat_id)) (get_repo_subscribers_sql r d)
    else get_repo_subscribers_sql r d.
Proof.
  unfold get_repo_subscribers_sql, remove_repository_sql. cbn [repositories].
  rewrite subscribers_after_remove.
  destruct (String.eqb r repo); [symmetry; apply order_by_chat_filter | reflexivity].
Qed.

Lemma remove_repository_exec E chat_id repo w :
  db_ok E (ndb w) = true ->
  db (exec (remove_repository E chat_id repo) w) = remove_repository_sql chat_id repo (db w).
Proof. intros K. unfold remove_repository. rewrite db_update_exec, K. reflexivity. Qed.

(** X4. When the store works, [remove_repository] takes exactly this
    subscriber off exactly this repository: the subscribers of the
    repository are the former ones without the chat, the subscribers of
    every other repository are the former ones, and the commit history (so
    every answer of [is_commit_logged]) is as it was. *)
Theorem remove_repository_unsubscribes :
  forall (E : Env) (chat_id : ChatId) (repo : string) (w : World),
    db_ok E (ndb w) = true ->
    (forall r,
        get_repo_subscribers_sql r (db (exec (remove_repository E chat_id repo) w))
        = if String.eqb r repo
          then filter (fun c => negb (c =? chat_id)) (get_repo_subscribers_sql r (db w))
          else get_repo_subscribers_sql r (db w)) /\
    ~ In chat_id (get_repo_subscribers_sql repo (db (exec (remove_repository E chat_id repo) w)))
    /\
    commit_history (db (exec (remove_repository E chat_id repo) w)) = commit_history (db w) /\
    forall r s,
      is_commit_logged_sql r s (db (exec (remove_repository E chat_id repo) w))
      = is_commit_logged_sql r s (db w).
Proof.
  intros E chat_id repo w K.
  rewrite (remove_repository_exec E chat_id repo w K).
  split; [intros r; apply remove_repository_sql_subscribers |].
  split; [| split; [reflexivity | reflexivity]].
  rewrite remove_repository_sql_subscribers, String.eqb_refl.
  intros I. apply filter_In in I. destruct I as (_ & I).
  rewrite Z.eqb_refl in I. discriminate.
Qed.

Lemma remove_repository_unsubscribes_witness :
  db_ok (demo_env 0 []) (ndb world_two_subscribers) = true /\
  get_repo_subscribers_sql demo_repo (db world_two_subscribers) = [7; 8] /\
  get_repo_subscribers_sql demo_repo
    (db (exec (remove_repository (demo_env 0 []) 7 demo_repo) world_two_subscribers))
  = [8].
Proof.
  assert (K : db_ok (demo_env 0 []) (ndb world_two_subscribers) = true) by reflexivity.
  split; [exact K |]. split; [vm_compute; reflexivity |].
  rewrite (proj1 (remove_repository_unsubscribes (demo_env 0 []) 7 demo_repo
                    world_two_subscribers K) demo_repo).
  vm_compute. reflexivity.
Defined.

(** ** The monitored repositories *)

Lemma monitored_eqb_eq a b : monitored_eqb a b = true <-> a = b.
Proof.
  unfold monitored_eqb. rewrite !andb_true_iff, !String.eqb_eq.
  destruct a, b; simpl. split.
  - intros ((A & B) & C). congruence.
  - intros H. inversion H. auto.
Qed.

Lemma existsb_monitored x seen :
  existsb (monitored_eqb x) seen = true <-> In x seen.
Proof.
  rewrite existsb_exists. split.
  - intros (y & I & Q). apply monitored_eqb_eq in Q. now subst.
  - intros I. exists x. split; [exact I | now apply monitored_eqb_eq].
Qed.

Lemma distinct_In seen l x : In x (distinct seen l) <-> In x l /\ ~ In x seen.
Proof.
  revert seen. induction l as [| y l IH]; intros seen; simpl; [tauto |].
  destruct (existsb (monitored_eqb y) seen) eqn:X.
  - apply existsb_monitored in X. rewrite IH. split.
    + intros (I & N). auto.
    + intros ([Q | I] & N); [subst; contradiction | auto].
  - assert (N : ~ In y seen).
    { intros I. apply existsb_monitored in I. congruence. }
    simpl. rewrite IH. simpl. split.
    + intros [Q | (I & M)]; [subst; auto |]. split; [auto |]. intros S. apply M. auto.
    + intros ([Q | I] & M); [auto |].
      destruct (monitored_eqb y x) eqn:Q.
      * apply monitored_eqb_eq in Q. auto.
      * right. split; [exact I |]. intros [S | S]; [| contradiction].
        subst. assert (T : monitored_eqb x x = true) by now apply monitored_eqb_eq.
        congruence.
Qed.

Lemma distinct_NoDup seen l : NoDup (distinct seen l).
Proof.
  revert seen. induction l as [| y l IH]; intros seen; simpl; [constructor |].
  destruct (existsb (monitored_eqb y) seen); [apply IH |].
  constructor; [| apply IH]. intros I. apply distinct_In in I.
  destruct I as (_ & N). apply N. left. reflexivity.
Qed.

Lemma monitored_In d m :
  In m (get_all_monitored_repos_sql d) <->
  exists r, In r (repositories d) /\
            m = mkMonitoredRepo (r_repo_full_name r) (r_repo_url r) (r_branch r).
Proof.
  unfold get_all_monitored_repos_sql. rewrite distinct_In, in_map_iff. split.
  - intros ((r & Q & I) & _). eauto.
  - intros (r & I & Q). split; [eauto | simpl; tauto].
Qed.

Lemma monitored_without_subscribers d repo :
  get_repo_subscribers_sql repo d = [] ->
  Forall (fun m => m_repo_full_name m <> repo) (get_all_monitored_repos_sql d).
Proof.
  intros S. apply Forall_forall. intros m I N.
  apply monitored_In in I. destruct I as (r & I & Q). subst m. simpl in N.
  unfold get_repo_subscribers_sql in S. apply (proj1 (order_by_chat_nil _)) in S.
  assert (J : In (r_chat_id r)
                 (map r_chat_id
                      (filter (fun x => String.eqb (r_repo_full_name x) repo)
                              (repositories d)))).
  { apply in_map. apply filter_In. split; [exact I | now apply String.eqb_eq]. }
  rewrite S in J. exact J.
Qed.

(** X5. [get_all_monitored_repos] lists every (name, URL, branch) that some
    row of [repositories] carries, each once, and nothing else: a
    repository followed by several users with the same URL and branch is
    swept once, and a repository without subscriber is not swept. *)
Theorem monitored_repos_are_the_distinct_rows :
  forall (d : Database),
    NoDup (get_all_monitored_repos_sql d) /\
    (forall m,
        In m (get_all_monitored_repos_sql d) <->
        exists r, In r (repositories d) /\
                  m = mkMonitoredRepo (r_repo_full_name r) (r_repo_url r) (r_branch r)) /\
    Forall (fun m => get_repo_subscribers_sql (m_repo_full_name m) d <> [])
           (get_all_monitored_repos_sql d).
Proof.
  intros d. split; [apply distinct_NoDup |]. split; [apply monitored_In |].
  apply Forall_forall. intros m I S.
  pose proof (monitored_without_subscribers d (m_repo_full_name m) S) as F.
  rewrite Forall_forall in F. exact (F m I eq_refl).
Qed.

(** X6. When the store works and the chat is the only subscriber of the
    repository, [remove_repository] leaves the repository without
    subscriber and out of the monitored repositories, so no later sweep
    visits it; its commit history stays. *)
Theorem last_subscriber_leaves :
  forall (E : Env) (chat_id : ChatId) (repo : string) (w : World),
    db_ok E (ndb w) = true ->
    (forall c, In c (get_repo_subscribers_sql repo (db w)) -> c = chat_id) ->
    get_repo_subscribers_sql repo (db (exec (remove_repository E chat_id repo) w)) = [] /\
    Forall (fun m => m_repo_full_name m <> repo)
           (get_all_monitored_repos_sql (db (exec (remove_repository E chat_id repo) w))) /\
    commit_history (db (exec (remove_repository E chat_id repo) w)) = commit_history (db w).
Proof.
  intros E chat_id repo w K ONLY.
  rewrite (remove_repository_exec E chat_id repo w K).
  assert (Z : get_repo_subscribers_sql repo (remove_repository_sql chat_id repo (db w)) = []).
  { rewrite remove_repository_sql_subscribers, String.eqb_refl.
    induction (get_repo_subscribers_sql repo (db w)) as [| c l IH]; [reflexivity |].
    simpl. rewrite (ONLY c (or_introl eq_refl)), Z.eqb_refl. simpl.
    apply IH. intros c' I. apply ONLY. right. exact I. }
  split; [exact Z |]. split; [| reflexivity].
  apply monitored_without_subscribers. exact Z.
Qed.

Lemma last_subscriber_leaves_witness :
  db_ok (demo_env 0 []) (ndb world_added) = true /\
  (forall c, In c (get_repo_subscribers_sql demo_repo (db world_added)) -> c = 7) /\
  get_all_monitored_repos_sql
    (db (exec (remove_repository (demo_env 0 []) 7 demo_repo) world_added)) = [] /\
  commit_history (db (exec (remove_repository (demo_env 0 []) 7 demo_repo) world_added))
  = commit_history (db world_added).
Proof.
  assert (K : db_ok (demo_env 0 []) (ndb world_added) = true) by reflexivity.
  assert (O : forall c, In c (get_repo_subscribers_sql demo_repo (db world_added)) -> c = 7).
  { assert (S : get_repo_subscribers_sql demo_repo (db world_added) = [7])
      by (vm_compute; reflexivity).
    rewrite S. intros c [Q | []]. now symmetry. }
  split; [exact K |]. split; [exact O |].
  split; [vm_compute; reflexivity |].
  exact (proj2 (proj2 (last_subscriber_leaves (demo_env 0 []) 7 demo_repo world_added K O))).
Defined.

(** ** The repositories of a user *)

Definition name_le (a b : RepoRow) : Prop :=
  String.leb (r_repo_full_name a) (r_repo_full_name b) = true.

Lemma insert_by_name_perm r l : Permutation (r :: l) (insert_by_name r l).
Proof.
  induction l as [| y l IH]; simpl; [apply Permutation_refl |].
  destruct (String.leb (r_repo_full_name r) (r_repo_full_name y));
    [apply Permutation_refl |].
  eapply Permutation_trans; [apply perm_swap | apply perm_skip; exact IH].
Qed.

Lemma order_by_name_perm l : Permutation l (order_by_name l).
Proof.
  induction l as [| r l IH]; simpl; [constructor |].
  eapply Permutation_trans; [apply perm_skip; exact IH | apply insert_by_name_perm].
Qed.

Lemma insert_by_name_hd r y l :
  name_le y r -> HdRel name_le y l -> HdRel name_le y (insert_by_name r l).
Proof.
  intros Y H. destruct l as [| z l]; simpl; [constructor; exact Y |].
  destruct (String.leb (r_repo_full_name r) (r_repo_full_name z));
    constructor; [exact Y | inversion H; assumption].
Qed.

Lemma insert_by_name_sorted r l : Sorted name_le l -> Sorted name_le (insert_by_name r l).
Proof.
  induction 1 as [| y l S IH H]; simpl; [repeat constructor |].
  destruct (String.leb (r_repo_full_name r) (r_repo_full_name y)) eqn:X.
  - constructor; [constructor; assumption | constructor; exact X].
  - constructor; [exact IH |]. apply insert_by_name_hd; [| exact H].
    unfold name_le.
    destruct (String.leb_total (r_repo_full_name r) (r_repo_full_name y)); congruence.
Qed.

Lemma order_by_name_sorted l : Sorted name_le (order_by_name l).
Proof.
  induction l as [| r l IH]; simpl; [constructor | apply insert_by_name_sorted, IH].
Qed.

(** X7. [get_user_repos] returns the rows of the chat, all of them and no
    other row, each as often as the table holds it, in ascending order of
    the repository name. *)
Theorem get_user_repos_sorted :
  forall (chat_id : ChatId) (d : Database),
    Sorted name_le (get_user_repos_sql chat_id d) /\
    Permutation (filter (fun r => r_chat_id r =? chat_id) (repositories d))
                (get_user_repos_sql chat_id d) /\
    forall r, In r (get_user_repos_sql chat_id d) <->
              In r (repositories d) /\ r_chat_id r = chat_id.
Proof.
  intros chat_id d. unfold get_user_repos_sql.
  split; [apply order_by_name_sorted |]. split; [apply order_by_name_perm |].
  intros r. split.
  - intros I. apply (Permutation_in _ (Permutation_sym (order_by_name_perm _))) in I.
    apply filter_In in I. destruct I as (I & Q). split; [exact I | now apply Z.eqb_eq].
  - intros (I & Q). apply (Permutation_in _ (order_by_name_perm _)).
    apply filter_In. split; [exact I | now apply Z.eqb_eq].
Qed.

(** ** The watermark columns *)

Lemma set_watermark_monitored repo s cd t r0 :
  mkMonitoredRepo (r_repo_full_name (set_watermark repo s cd t r0))
                  (r_repo_url (set_watermark repo s cd t r0))
                  (r_branch (set_watermark repo s cd t r0))
  = mkMonitoredRepo (r_repo_full_name r0) (r_repo_url r0) (r_branch r0).
Proof. unfold set_watermark. destruct (String.eqb _ _); reflexivity. Qed.

Lemma set_watermark_other_date repo s cd t r rows :
  String.eqb r repo = false ->
  match find (fun x => String.eqb (r_repo_full_name x) r)
             (map (set_watermark repo s cd t) rows) with
  | Some x => r_last_commit_date x
  | None => None
  end
  = match find (fun x => String.eqb (r_repo_full_name x) r) rows with
    | Some x => r_last_commit_date x
    | None => None
    end.
Proof.
  intros N. induction rows as [| x rows IH]; simpl; [reflexivity |].
  rewrite set_watermark_name.
  destruct (String.eqb (r_repo_full_name x) r) eqn:X; [| exact IH].
  unfold set_watermark. apply String.eqb_eq in X. rewrite X, N. reflexivity.
Qed.

(** X8. When the store works, [update_last_commit] writes the watermark of
    the repository and nothing else: afterwards the stored date of the
    repository is the one written if the repository has a row and is absent
    if it has none (no row is created), the stored date of every other
    repository, the subscribers of every repository, the monitored
    repositories, the users and the commit history are as before. *)
Theorem update_last_commit_frame :
  forall (E : Env) (repo commit_sha : string) (commit_date : datetime) (w : World),
    db_ok E (ndb w) = true ->
    (forall r,
        get_last_commit_date_sql r
          (db (exec (update_last_commit E repo commit_sha commit_date) w))
        = if String.eqb r repo
          then match get_repo_subscribers_sql repo (db w) with
               | [] => None
               | _ :: _ => Some commit_date
               end
          else get_last_commit_date_sql r (db w)) /\
    (forall r,
        get_repo_subscribers_sql r
          (db (exec (update_last_commit E repo commit_sha commit_date) w))
        = get_repo_subscribers_sql r (db w)) /\
    get_all_monitored_repos_sql (db (exec (update_last_commit E repo commit_sha commit_date) w))
    = get_all_monitored_repos_sql (db w) /\
    users (db (exec (update_last_commit E repo commit_sha commit_date) w)) = users (db w) /\
    commit_history (db (exec (update_last_commit E repo commit_sha commit_date) w))
    = commit_history (db w).
Proof.
  intros E repo commit_sha commit_date w K.
  unfold update_last_commit. rewrite db_update_now_exec, K.
  set (t := clock E (nclock w)).
  split; [| split; [| split; [| split; reflexivity]]].
  - intros r. unfold get_last_commit_date_sql, get_repo_subscribers_sql,
      update_last_commit_sql. cbn [repositories].
    destruct (String.eqb r repo) eqn:R.
    + apply String.eqb_eq in R. subst r.
      rewrite get_last_commit_date_after, order_by_chat_empty.
      destruct (filter (fun x => String.eqb (r_repo_full_name x) repo)
                       (repositories (db w))); reflexivity.
    + apply set_watermark_other_date. exact R.
  - intros r. unfold get_repo_subscribers_sql, update_last_commit_sql. cbn [repositories].
    f_equal. apply set_watermark_subscribers.
  - unfold get_all_monitored_repos_sql, update_last_commit_sql. cbn [repositories].
    rewrite map_map. f_equal. apply map_ext. intros x. apply set_watermark_monitored.
Qed.

Lemma update_last_commit_frame_witness :
  db_ok (demo_env 0 []) (ndb world_added) = true /\
  get_last_commit_date_sql demo_repo
    (db (exec (update_last_commit (demo_env 0 []) demo_repo "c7" 700) world_added))
  = Some 700 /\
  get_last_commit_date_sql "acme/unknown"
    (db (exec (update_last_commit (demo_env 0 []) "acme/unknown" "c7" 700) world_added))
  = None.
Proof.
  assert (K : db_ok (demo_env 0 []) (ndb world_added) = true) by reflexivity.
  split; [exact K |]. split.
  - rewrite (proj1 (update_last_commit_frame (demo_env 0 []) demo_repo "c7" 700
                      world_added K) demo_repo).
    vm_compute. reflexivity.
  - vm_compute. reflexivity.
Defined.

(** ** The seen-set *)

(** X9. When the store works, [log_commit] makes [is_commit_logged] answer
    yes for the repository and hash of the commit recorded and changes its
    answer for no other pair; it leaves the [repositories] table, so every
    watermark, as it was. *)
Theorem log_commit_round_trip :
  forall (E : Env) (c : Commit) (w : World),
    db_ok E (ndb w) = true ->
    (forall repo commit_sha,
        is_commit_logged_sql repo commit_sha (db (exec (log_commit E c) w))
        = (String.eqb (repo_full_name c) repo && String.eqb (sha c) commit_sha)
          || is_commit_logged_sql repo commit_sha (db w)) /\
    repositories (db (exec (log_commit E c) w)) = repositories (db w).
Proof.
  intros E c w K. unfold log_commit. rewrite db_update_exec, K.
  split; [| reflexivity].
  intros repo commit_sha. unfold is_commit_logged_sql, log_commit_sql. cbn [commit_history].
  rewrite existsb_app. simpl. rewrite orb_false_r. apply orb_comm.
Qed.

Lemma log_commit_round_trip_witness :
  db_ok (demo_env 0 []) (ndb world_added) = true /\
  is_commit_logged_sql demo_repo "c9"
    (db (exec (log_commit (demo_env 0 []) (demo_commit "c9" 900)) world_added)) = true /\
  is_commit_logged_sql demo_repo "c8"
    (db (exec (log_commit (demo_env 0 []) (demo_commit "c9" 900)) world_added)) = false.
Proof.
  assert (K : db_ok (demo_env 0 []) (ndb world_added) = true) by reflexivity.
  split; [exact K |].
  split; rewrite (proj1 (log_commit_round_trip (demo_env 0 []) (demo_commit "c9" 900)
                           world_added K)); vm_compute; reflexivity.
Defined.


(** * The rest of the remote client *)

(** The commits of a listing after their detail requests, the first of which
    is request number [n]. *)
Fixpoint detailed (E : Env) (n : nat) (repo : string) (commits : list Commit)
  : list Commit :=
  match commits with
  | [] => []
  | c :: rest =>
      apply_detail (github_http E n (ReqCommitDetail repo (sha c))) c
      :: detailed E (S n) repo rest
  end.

Section RemoteRuns.
Variable E : Env.

Lemma parse_commits_run repo raws :
  forall w,
    parse_commits E repo raws w
    = (Ok (detailed E (List.length (reqlog w)) repo (well_formed_commits repo raws)),
       mkWorld (db w) (journal w) (outbox w)
               (reqlog w ++ map (fun c => ReqCommitDetail repo (sha c))
                                (well_formed_commits repo raws))
               (nclock w) (ndb w)).
Proof.
  induction raws as [| raw rest IH]; intros w; simpl.
  - unfold ret. rewrite app_nil_r. destruct w; reflexivity.
  - destruct (parse_commit_info repo raw) as [info |]; simpl; [| apply IH].
    unfold bind, http_get. rewrite IH. simpl. unfold ret.
    rewrite length_app, Nat.add_1_r, <- app_assoc. reflexivity.
Qed.

Lemma get_latest_commits_run repo branch since w :
  get_latest_commits E repo branch since w
  = (Ok (detailed E (S (List.length (reqlog w))) repo
           (well_formed_commits repo
              (listed (github_http E (List.length (reqlog w))
                         (ReqCommits repo branch (option_map strftime_wire since)))))),
     mkWorld (db w) (journal w) (outbox w)
             (reqlog w
              ++ ReqCommits repo branch (option_map strftime_wire since)
                 :: map (fun c => ReqCommitDetail repo (sha c))
                        (well_formed_commits repo
                           (listed (github_http E (List.length (reqlog w))
                                      (ReqCommits repo branch
                                                  (option_map strftime_wire since))))))
             (nclock w) (ndb w)).
Proof.
  unfold get_latest_commits, bind, http_get.
  set (req := ReqCommits repo branch (option_map strftime_wire since)).
  assert (NONE : listed (github_http E (List.length (reqlog w)) req) = [] ->
                 forall u : World,
                   u = mkWorld (db w) (journal w) (outbox w) (reqlog w ++ [req])
                               (nclock w) (ndb w) ->
                   ret [] u
                   = (Ok (detailed E (S (List.length (reqlog w))) repo
                            (well_formed_commits repo
                               (listed (github_http E (List.length (reqlog w)) req)))),
                      mkWorld (db w) (journal w) (outbox w)
                              (reqlog w ++ req
                                 :: map (fun c => ReqCommitDetail repo (sha c))
                                        (well_formed_commits repo
                                           (listed (github_http E (List.length (reqlog w))
                                                      req))))
                              (nclock w) (ndb w))).
  { intros L u ->. rewrite L. reflexivity. }
  destruct (github_http E (List.length (reqlog w)) req)
    as [status [raws | fs | info |] | | | |] eqn:G;
    try (apply NONE; reflexivity).
  destruct (status =? 200) eqn:S; [| apply NONE; [simpl; now rewrite S | reflexivity]].
  rewrite parse_commits_run. simpl. rewrite S.
  rewrite length_app, Nat.add_1_r, <- app_assoc. reflexivity.
Qed.
End RemoteRuns.

Lemma well_formed_commits_length repo raws :
  (List.length (well_formed_commits repo raws) <= List.length raws)%nat.
Proof.
  induction raws as [| raw rest IH]; simpl; [lia |].
  destruct (parse_commit_info repo raw); simpl; lia.
Qed.

Lemma detailed_length E n repo commits :
  List.length (detailed E n repo commits) = List.length commits.
Proof.
  revert n. induction commits as [| c rest IH]; intros n; simpl; [reflexivity |].
  now rewrite IH.
Qed.

(** The commits of the answer to a listing request that parse. *)
Definition parsed_listing (E : Env) (w : World) (repo branch : string)
    (since : option datetime) : list Commit :=
  well_formed_commits repo
    (listed (github_http E (List.length (reqlog w))
               (ReqCommits repo branch (option_map strftime_wire since)))).

(** X10. [get_latest_commits] never raises and touches neither the store
    nor the sink.  It sends the listing request, then one detail request for
    each commit of the listing that parses, in the order of the listing, and
    no request for a commit that misses a field or whose date does not
    parse; it returns those commits in that order with their file
    statistics.  So it never returns more commits than the answer lists, and
    it sends one request more than it returns commits. *)
Theorem get_latest_commits_requests :
  forall (E : Env) (repo branch : string) (since : option datetime) (w : World),
    quiet w (exec (get_latest_commits E repo branch since) w) /\
    outcome (get_latest_commits E repo branch since) w
    = Ok (detailed E (S (List.length (reqlog w))) repo
                   (parsed_listing E w repo branch since)) /\
    reqlog (exec (get_latest_commits E repo branch since) w)
    = reqlog w
      ++ ReqCommits repo branch (option_map strftime_wire since)
         :: map (fun c => ReqCommitDetail repo (sha c))
                (parsed_listing E w repo branch since) /\
    (List.length (detailed E (S (List.length (reqlog w))) repo
                           (parsed_listing E w repo branch since))
     <= List.length (listed (github_http E (List.length (reqlog w))
                               (ReqCommits repo branch (option_map strftime_wire since)))))%nat
    /\
    List.length (reqlog (exec (get_latest_commits E repo branch since) w))
    = (List.length (reqlog w) + 1
       + List.length (detailed E (S (List.length (reqlog w))) repo
                               (parsed_listing E w repo branch since)))%nat.
Proof.
  intros E repo branch since w. unfold outcome, exec, parsed_listing.
  rewrite get_latest_commits_run. cbn [fst snd].
  split; [unfold quiet; simpl; auto |]. split; [reflexivity |]. split; [reflexivity |].
  rewrite detailed_length. split; [apply well_formed_commits_length |].
  cbn [reqlog]. rewrite length_app. simpl. rewrite length_map. lia.
Qed.

Lemma parse_commit_info_blank repo raw c :
  parse_commit_info repo raw = Some c ->
  added c = 0%nat /\ removed c = 0%nat /\ modified c = 0%nat /\ files c = [].
Proof.
  unfold parse_commit_info.
  destruct (rc_sha raw), (rc_message raw), (rc_author_name raw), (rc_author_email raw),
    (rc_date raw), (rc_html_url raw); intros H; inversion H; simpl; auto.
Qed.

Lemma well_formed_commits_blank repo raws :
  Forall (fun c => added c = 0%nat /\ removed c = 0%nat /\ modified c = 0%nat /\ files c = [])
         (well_formed_commits repo raws).
Proof.
  induction raws as [| raw rest IH]; simpl; [constructor |].
  destruct (parse_commit_info repo raw) eqn:P; simpl; [| exact IH].
  constructor; [eapply parse_commit_info_blank; eauto | exact IH].
Qed.

(** What the answer to a detail request lists as files, when it is a 200
    that has the key. *)
Definition detail_files_of (resp : Response) : list RawFile :=
  match resp with
  | Http status (JsonDetail (Some fs)) => if status =? 200 then fs else []
  | _ => []
  end.

Lemma apply_detail_failed resp c : fetch_failed resp = true -> apply_detail resp c = c.
Proof.
  destruct resp as [status [l | [fs |] | info |] | | | |]; simpl; auto.
  intros H. apply negb_true_iff in H. rewrite H. reflexivity.
Qed.

Lemma detailed_failed E n repo commits :
  (forall k s, fetch_failed (github_http E k (ReqCommitDetail repo s)) = true) ->
  detailed E n repo commits = commits.
Proof.
  intros F. revert n. induction commits as [| c rest IH]; intros n; simpl; [reflexivity |].
  rewrite apply_detail_failed, IH; auto.
Qed.

(** X11. The file statistics are best effort.  If the detail requests of a
    repository fail (they raise or their status is not 200), the listing is
    returned all the same: [get_latest_commits] gives exactly the commits of
    the listing that parse, each with zero added, removed and modified files
    and no file name. *)
Theorem failed_details_give_zero_statistics :
  forall (E : Env) (repo branch : string) (since : option datetime) (w : World),
    (forall n s, fetch_failed (github_http E n (ReqCommitDetail repo s)) = true) ->
    outcome (get_latest_commits E repo branch since) w
    = Ok (parsed_listing E w repo branch since) /\
    Forall (fun c => added c = 0%nat /\ removed c = 0%nat /\ modified c = 0%nat /\
                     files c = [])
           (parsed_listing E w repo branch since).
Proof.
  intros E repo branch since w F. unfold outcome, parsed_listing.
  rewrite get_latest_commits_run. cbn [fst]. rewrite (detailed_failed E _ repo _ F).
  split; [reflexivity | apply well_formed_commits_blank].
Qed.

Lemma failed_details_give_zero_statistics_witness :
  (forall n s,
      fetch_failed (github_http (demo_env 0 [demo_raw "c1" 100]) n
                                (ReqCommitDetail demo_repo s)) = true) /\
  outcome (get_latest_commits (demo_env 0 [demo_raw "c1" 100]) demo_repo "main" None)
          fresh_world
  = Ok [demo_commit "c1" 100].
Proof.
  assert (F : forall n s,
             fetch_failed (github_http (demo_env 0 [demo_raw "c1" 100]) n
                                       (ReqCommitDetail demo_repo s)) = true)
    by (intros n s; reflexivity).
  split; [exact F |].
  exact (proj1 (failed_details_give_zero_statistics (demo_env 0 [demo_raw "c1" 100])
                  demo_repo "main" None fresh_world F)).
Defined.

Lemma count_status_sum fs :
  (count_status "added" fs + count_status "removed" fs + count_status "modified" fs
   <= List.length fs)%nat.
Proof.
  unfold count_status. induction fs as [| f fs IH]; simpl; [lia |].
  destruct (rf_status f) as [s |]; [| lia].
  destruct (String.eqb s "added") eqn:A.
  - apply String.eqb_eq in A. subst s. simpl. lia.
  - destruct (String.eqb s "removed") eqn:R.
    + apply String.eqb_eq in R. subst s. simpl. lia.
    + destruct (String.eqb s "modified"); simpl; lia.
Qed.

Lemma filenames_length l names : filenames l = Some names -> List.length names = List.length l.
Proof.
  revert names. induction l as [| f l IH]; intros names; simpl.
  - intros H; inversion H; reflexivity.
  - destruct (rf_filename f); [| discriminate].
    destruct (filenames l) as [ns |]; [| discriminate].
    intros H; inversion H; subst. simpl. now rewrite (IH ns eq_refl).
Qed.

(** X12. The detail answer changes nothing of a commit but its file
    statistics.  Each listed file is counted at most once, under added,
    removed or modified (a file with another status, or none, is not
    counted), so the three counters rise by at most the number of listed
    files in all.  The file names kept are those of the first five listed
    files, or the former ones when one of these five has no name, in which
    case the counters have been raised all the same. *)
Theorem apply_detail_statistics :
  forall (resp : Response) (c : Commit),
    sha (apply_detail resp c) = sha c /\
    message (apply_detail resp c) = message c /\
    author_name (apply_detail resp c) = author_name c /\
    author_email (apply_detail resp c) = author_email c /\
    date (apply_detail resp c) = date c /\
    url (apply_detail resp c) = url c /\
    repo_full_name (apply_detail resp c) = repo_full_name c /\
    added (apply_detail resp c) = (added c + count_status "added" (detail_files_of resp))%nat /\
    removed (apply_detail resp c)
    = (removed c + count_status "removed" (detail_files_of resp))%nat /\
    modified (apply_detail resp c)
    = (modified c + count_status "modified" (detail_files_of resp))%nat /\
    (added (apply_detail resp c) + removed (apply_detail resp c)
     + modified (apply_detail resp c)
     <= added c + removed c + modified c + List.length (detail_files_of resp))%nat /\
    (files (apply_detail resp c) = files c
     \/ ((List.length (files (apply_detail resp c)) <= 5)%nat /\
         filenames (firstn 5 (detail_files_of resp)) = Some (files (apply_detail resp c)))).
Proof.
  intros resp c.
  assert (NOP : forall c',
             c' = c ->
             sha c' = sha c /\ message c' = message c /\ author_name c' = author_name c /\
             author_email c' = author_email c /\ date c' = date c /\ url c' = url c /\
             repo_full_name c' = repo_full_name c /\
             added c' = (added c + count_status "added" [])%nat /\
             removed c' = (removed c + count_status "removed" [])%nat /\
             modified c' = (modified c + count_status "modified" [])%nat /\
             (added c' + removed c' + modified c'
              <= added c + removed c + modified c + @List.length RawFile [])%nat /\
             (files c' = files c
              \/ ((List.length (files c') <= 5)%nat /\
                  filenames (firstn 5 []) = Some (files c')))).
  { intros c' ->. unfold count_status. simpl. repeat split; try lia. left. reflexivity. }
  unfold apply_detail, detail_files_of.
  destruct resp as [status [l | [fs |] | info |] | | | |]; try (apply NOP; reflexivity).
  destruct (status =? 200); [| apply NOP; reflexivity].
  cbn [sha message author_name author_email date url repo_full_name added removed
       modified files].
  pose proof (count_status_sum fs) as S.
  repeat split; try lia.
  destruct (filenames (firstn 5 fs)) as [names |] eqn:N; [| left; reflexivity].
  right. split; [| reflexivity].
  rewrite (filenames_length _ _ N), length_firstn. lia.
Qed.


(** * The rest of the monitoring engine *)

(** ** The text of a notification *)

(** The shape of a code point: one byte, then continuation bytes only. *)
Fixpoint all_continuation (s : string) : bool :=
  match s with
  | EmptyString => true
  | String b rest => is_continuation b && all_continuation rest
  end.

Definition point_ok (p : string) : bool :=
  match p with
  | EmptyString => false
  | String _ tail => all_continuation tail
  end.

Lemma code_points_String a rest :
  code_points (String a rest)
  = match code_points rest with
    | [] => [String a EmptyString]
    | point :: points =>
        if continues rest then String a point :: points
        else String a EmptyString :: point :: points
    end.
Proof. reflexivity. Qed.

Lemma code_points_nonempty a rest : code_points (String a rest) <> [].
Proof.
  rewrite code_points_String. destruct (code_points rest); [discriminate |].
  destruct (continues rest); discriminate.
Qed.

Lemma code_points_cons a tail rest :
  all_continuation tail = true -> continues rest = false ->
  code_points (String a (tail ++ rest)) = String a tail :: code_points rest.
Proof.
  revert a. induction tail as [| t tail IH]; intros a T F.
  - cbn [String.append]. rewrite code_points_String, F.
    destruct (code_points rest); reflexivity.
  - cbn [all_continuation] in T. apply andb_true_iff in T. destruct T as (T1 & T2).
    change (String a (String t tail ++ rest)) with (String a (String t (tail ++ rest))).
    rewrite code_points_String, (IH t T2 F). cbn [continues]. rewrite T1. reflexivity.
Qed.

Lemma code_points_point p rest :
  point_ok p = true -> continues rest = false ->
  code_points (p ++ rest) = p :: code_points rest.
Proof.
  destruct p as [| a tail]; [discriminate |]. intros T F.
  apply (code_points_cons a tail rest T F).
Qed.

(** The code points of a text: each is a byte followed by continuation
    bytes, and each but the first starts with a byte that is not one. *)
Fixpoint points_ok (points : list string) : bool :=
  match points with
  | [] => true
  | p :: rest => point_ok p && negb (continues (join rest)) && points_ok rest
  end.

Lemma join_code_points s : join (code_points s) = s.
Proof.
  induction s as [| a rest IH]; [reflexivity |].
  rewrite code_points_String. destruct (code_points rest) as [| p ps].
  - simpl in IH. subst rest. reflexivity.
  - destruct (continues rest); cbn [join fold_right String.append] in *; rewrite IH; reflexivity.
Qed.

Lemma continues_app p rest :
  point_ok p = true -> continues (p ++ rest) = continues p.
Proof. destruct p; [discriminate | reflexivity]. Qed.

Lemma code_points_ok s : points_ok (code_points s) = true.
Proof.
  induction s as [| a rest IH]; [reflexivity |].
  rewrite code_points_String. pose proof (join_code_points rest) as J.
  destruct (code_points rest) as [| p ps].
  - reflexivity.
  - destruct (continues rest) eqn:C.
    + cbn [points_ok] in *. apply andb_true_iff in IH. destruct IH as (IH1 & IH3).
      apply andb_true_iff in IH1. destruct IH1 as (IH1 & IH2).
      rewrite IH2, IH3. cbn [point_ok]. rewrite !andb_true_r.
      cbn [join fold_right] in J. rewrite <- J in C.
      rewrite continues_app in C by exact IH1.
      destruct p as [| b tail]; [discriminate |]. cbn [continues] in C.
      cbn [all_continuation]. cbn [point_ok] in IH1. rewrite C, IH1. reflexivity.
    + change (points_ok (String a EmptyString :: p :: ps))
        with (point_ok (String a EmptyString) && negb (continues (join (p :: ps)))
              && points_ok (p :: ps)).
      rewrite IH, J, C. reflexivity.
Qed.

Lemma code_points_join points : points_ok points = true -> code_points (join points) = points.
Proof.
  induction points as [| p rest IH]; [reflexivity |].
  cbn [points_ok]. intros H. apply andb_true_iff in H. destruct H as (H & H3).
  apply andb_true_iff in H. destruct H as (H1 & H2). apply negb_true_iff in H2.
  cbn [join fold_right]. fold (join rest).
  rewrite code_points_point by assumption. rewrite IH by assumption. reflexivity.
Qed.

Lemma points_ok_firstn n points : points_ok points = true -> points_ok (firstn n points) = true.
Proof.
  revert points. induction n as [| n IH]; intros [| p rest] H; try reflexivity.
  cbn [firstn points_ok] in *. apply andb_true_iff in H. destruct H as (H & H3).
  apply andb_true_iff in H. destruct H as (H1 & H2).
  rewrite H1, (IH rest H3), andb_true_r. cbn [andb].
  destruct n as [| n]; [reflexivity |].
  destruct rest as [| q rest']; [reflexivity |].
  cbn [firstn join fold_right] in *. fold (join rest') in H2. fold (join (firstn n rest')).
  cbn [points_ok] in H3. apply andb_true_iff in H3. destruct H3 as (H3 & _).
  apply andb_true_iff in H3. destruct H3 as (Q & _).
  rewrite continues_app in * by exact Q. exact H2.
Qed.

Lemma code_points_slice_to n s : code_points (slice_to n s) = firstn n (code_points s).
Proof. apply code_points_join, points_ok_firstn, code_points_ok. Qed.

Lemma len_slice_to n s : len (slice_to n s) = Nat.min n (len s).
Proof. unfold len. rewrite code_points_slice_to. apply length_firstn. Qed.

Lemma join_app l1 l2 : join (l1 ++ l2) = (join l1 ++ join l2)%string.
Proof.
  induction l1 as [| p l1 IH]; [reflexivity |].
  cbn [app join fold_right]. fold (join (l1 ++ l2)). fold (join l1).
  rewrite IH. clear IH. induction p as [| a p IHp]; [reflexivity |].
  cbn [String.append]. rewrite IHp. reflexivity.
Qed.

Lemma slice_to_split n s : s = (slice_to n s ++ join (skipn n (code_points s)))%string.
Proof.
  unfold slice_to. rewrite <- join_app, firstn_skipn. symmetry. apply join_code_points.
Qed.

Lemma prefix_app s1 s2 : String.prefix s1 (s1 ++ s2) = true.
Proof.
  induction s1 as [| a s1 IH]; [destruct s2; reflexivity |].
  cbn [String.append String.prefix]. destruct (ascii_dec a a); [exact IH | congruence].
Qed.

Lemma prefix_slice_to n s : String.prefix (slice_to n s) s = true.
Proof. rewrite (slice_to_split n s) at 2. apply prefix_app. Qed.

Lemma slice_to_all n s : (len s <= n)%nat -> slice_to n s = s.
Proof.
  intros H. unfold slice_to. rewrite firstn_all2 by exact H. apply join_code_points.
Qed.

Lemma code_points_app s1 s2 :
  continues s2 = false -> code_points (s1 ++ s2) = code_points s1 ++ code_points s2.
Proof.
  intros F. rewrite <- (join_code_points s1) at 1.
  pose proof (code_points_ok s1) as K.
  induction (code_points s1) as [| p ps IH]; [reflexivity |].
  cbn [points_ok] in K. apply andb_true_iff in K. destruct K as (K & K3).
  apply andb_true_iff in K. destruct K as (K1 & K2). apply negb_true_iff in K2.
  cbn [join fold_right]. fold (join ps).
  assert (A : ((p ++ join ps) ++ s2 = p ++ (join ps ++ s2))%string).
  { clear. induction p as [| a p IHp]; [reflexivity |]. cbn [String.append]. now rewrite IHp. }
  rewrite A, code_points_point; [rewrite (IH K3); reflexivity | exact K1 |].
  destruct ps as [| q ps']; [exact F |].
  cbn [points_ok] in K3. apply andb_true_iff in K3. destruct K3 as (K3 & _).
  apply andb_true_iff in K3. destruct K3 as (Q & _).
  cbn [join fold_right] in *. fold (join ps') in *.
  assert (B : ((q ++ join ps') ++ s2 = q ++ (join ps' ++ s2))%string).
  { clear. induction q as [| a q IHq]; [reflexivity |]. cbn [String.append]. now rewrite IHq. }
  rewrite B. rewrite continues_app in * by exact Q. exact K2.
Qed.

Lemma len_app s1 s2 : continues s2 = false -> len (s1 ++ s2) = (len s1 + len s2)%nat.
Proof. intros F. unfold len. rewrite code_points_app, length_app by exact F. reflexivity. Qed.

Lemma slice_to_app n s1 s2 :
  continues s2 = false -> (n <= len s1)%nat -> slice_to n (s1 ++ s2) = slice_to n s1.
Proof.
  intros F L. unfold slice_to. rewrite code_points_app by exact F.
  rewrite firstn_app. replace (n - List.length (code_points s1))%nat with 0%nat by (unfold len in L; lia).
  cbn [firstn]. rewrite app_nil_r. reflexivity.
Qed.

Lemma slice_to_twice n s : slice_to n (slice_to n s) = slice_to n s.
Proof.
  unfold slice_to at 1. rewrite code_points_slice_to, firstn_firstn, Nat.min_id. reflexivity.
Qed.

Definition change_count (ch : Change) : nat :=
  match ch with FilesAdded n | FilesRemoved n | FilesModified n => n end.

(** X13. Lengths count characters (code points).  In the text of a
    notification the commit message is the commit message itself when that
    has at most 300 characters; otherwise it has exactly 300 characters, the
    first 297 of the commit message followed by three dots.  The short hash
    is the first 7 characters of the hash, the whole hash when it has no
    more.  The change lines name counts that are not zero only, at most one
    line per kind, and there is no change line exactly when the three counts
    are zero. *)
Theorem format_commit_message_bounds :
  forall (repo : string) (c : Commit) (language : option string),
    ((len (message c) <= 300)%nat ->
     ct_commit_message (_format_commit_message repo c language) = message c) /\
    ((300 < len (message c))%nat ->
     ct_commit_message (_format_commit_message repo c language)
     = (slice_to 297 (ct_commit_message (_format_commit_message repo c language))
        ++ "...")%string) /\
    len (ct_commit_message (_format_commit_message repo c language))
    = Nat.min (len (message c)) 300 /\
    slice_to 297 (ct_commit_message (_format_commit_message repo c language))
    = slice_to 297 (message c) /\
    String.prefix
      (slice_to 297 (ct_commit_message (_format_commit_message repo c language)))
      (message c) = true /\
    len (ct_short_hash (_format_commit_message repo c language)) = Nat.min 7 (len (sha c)) /\
    String.prefix (ct_short_hash (_format_commit_message repo c language)) (sha c) = true /\
    ((len (sha c) <= 7)%nat ->
     ct_short_hash (_format_commit_message repo c language) = sha c) /\
    Forall (fun ch => (0 < change_count ch)%nat)
           (ct_changes (_format_commit_message repo c language)) /\
    (List.length (ct_changes (_format_commit_message repo c language)) <= 3)%nat /\
    (ct_changes (_format_commit_message repo c language) = [] <->
     (added c = 0 /\ removed c = 0 /\ modified c = 0)%nat).
Proof.
  intros repo c language. unfold _format_commit_message. cbn [ct_commit_message ct_short_hash
    ct_changes].
  assert (P : slice_to 297 (truncate_message (message c)) = slice_to 297 (message c)).
  { unfold truncate_message. destruct (Nat.ltb_spec 300 (len (message c))); [| reflexivity].
    rewrite slice_to_app; [apply slice_to_twice | reflexivity |].
    rewrite len_slice_to. lia. }
  split; [| split; [| split; [| split; [| split; [| split; [| split; [| split]]]]]]].
  - intros H. unfold truncate_message.
    destruct (Nat.ltb_spec 300 (len (message c))); [lia | reflexivity].
  - intros H. rewrite P. unfold truncate_message.
    destruct (Nat.ltb_spec 300 (len (message c))); [reflexivity | lia].
  - unfold truncate_message. destruct (Nat.ltb_spec 300 (len (message c))).
    + rewrite len_app by reflexivity. rewrite len_slice_to.
      change (len "...") with 3%nat. lia.
    + lia.
  - exact P.
  - rewrite P. apply prefix_slice_to.
  - apply len_slice_to.
  - apply prefix_slice_to.
  - apply slice_to_all.
  - unfold changes_of.
    destruct (Nat.ltb_spec 0 (added c)), (Nat.ltb_spec 0 (removed c)),
      (Nat.ltb_spec 0 (modified c)); cbn [app List.length];
      (split; [repeat constructor; simpl; assumption |]);
      (split; [lia |]); split; intros Q;
      try discriminate Q; try (exfalso; lia); try reflexivity; lia.
Qed.

(** A text of [n] copies of one code point. *)
Fixpoint copies (n : nat) (point : string) : string :=
  match n with
  | O => EmptyString
  | S n' => (point ++ copies n' point)%string
  end.

(** U+00E9, two bytes in UTF-8. *)
Definition e_acute : string := String (ascii_of_nat 195) (String (ascii_of_nat 169) EmptyString).

Lemma format_commit_message_bounds_witness :
  String.length (copies 200 e_acute) = 400%nat /\
  len (copies 200 e_acute) = 200%nat /\
  ct_commit_message
    (_format_commit_message demo_repo
       (mkCommit "c1" (copies 200 e_acute) "ann" "ann@example.org" 0 "u" demo_repo 0 0 0 [])
       None)
  = copies 200 e_acute.
Proof.
  assert (L : (len (copies 200 e_acute) <= 300)%nat) by (vm_compute; lia).
  split; [vm_compute; reflexivity |]. split; [vm_compute; reflexivity |].
  exact (proj1 (format_commit_message_bounds demo_repo
                  (mkCommit "c1" (copies 200 e_acute) "ann" "ann@example.org" 0 "u"
                            demo_repo 0 0 0 [])
                  None) L).
Defined.

(** ** The order of a batch *)

Definition newer_or_same (a b : Commit) : Prop := date b <= date a.

Lemma insert_by_date_perm c l : Permutation (c :: l) (insert_by_date c l).
Proof.
  induction l as [| y l IH]; simpl; [apply Permutation_refl |].
  destruct (date y <=? date c); [apply Permutation_refl |].
  eapply Permutation_trans; [apply perm_swap | apply perm_skip; exact IH].
Qed.

Lemma insert_by_date_sorted c l :
  Sorted newer_or_same l -> Sorted newer_or_same (insert_by_date c l).
Proof.
  induction 1 as [| y l S IH H]; simpl; [repeat constructor |].
  destruct (Z.leb_spec (date y) (date c)) as [LE | GT].
  - constructor; [constructor; assumption | constructor; exact LE].
  - constructor; [exact IH |].
    destruct l as [| z l]; simpl.
    + constructor. unfold newer_or_same. lia.
    + destruct (date z <=? date c); constructor.
      * unfold newer_or_same. lia.
      * inversion H; assumption.
Qed.

(** X14. The sort of [process_new_commits] keeps every commit of the batch,
    each as often as the batch holds it, and puts them newest first: no
    commit is followed by one of a later date. *)
Theorem sort_newest_first_sorted :
  forall (commits : list Commit),
    Permutation commits (sort_newest_first commits) /\
    Sorted newer_or_same (sort_newest_first commits) /\
    List.length (sort_newest_first commits) = List.length commits.
Proof.
  intros commits.
  assert (P : Permutation commits (sort_newest_first commits)).
  { induction commits as [| c l IH]; simpl; [constructor |].
    eapply Permutation_trans; [apply perm_skip; exact IH | apply insert_by_date_perm]. }
  split; [exact P |]. split; [| symmetry; apply Permutation_length; exact P].
  induction commits as [| c l IH]; simpl; [constructor |].
  apply insert_by_date_sorted. apply IH.
  clear. induction l as [| c l IH]; simpl; [constructor |].
  eapply Permutation_trans; [apply perm_skip; exact IH | apply insert_by_date_perm].
Qed.

(** ** A pass that finds nothing new *)

(** X15. If every commit a pass fetches for the repository is in the commit
    history already, for instance because the listing is empty, the pass
    writes nothing to the store and delivers nothing: the watermark stays,
    and so does the [last_check] column, which is only written together with
    a new watermark. *)
Theorem pass_without_news_writes_nothing :
  forall (E : Env) (repo branch : string) (w : World),
    (forall c0, In c0 (fetched E w repo branch) ->
                is_commit_logged_sql repo (sha c0) (db w) = true) ->
    db (exec (check_repository E repo branch) w) = db w /\
    journal (exec (check_repository E repo branch) w) = journal w /\
    outbox (exec (check_repository E repo branch) w) = outbox w /\
    map r_last_check (repositories (db (exec (check_repository E repo branch) w)))
    = map r_last_check (repositories (db w)).
Proof.
  intros E repo branch w ALL.
  pose proof (run_pair (check_repository E repo branch) w) as H.
  apply check_repository_inv in H. destruct H as (_ & _ & _ & _ & Q).
  destruct (Q ALL) as (D & J & O). rewrite D. auto.
Qed.

Lemma pass_without_news_writes_nothing_witness :
  (forall c0,
      In c0 (fetched (demo_env 9000000000 [demo_raw "c2" 200; demo_raw "c1" 100])
                     world_swept demo_repo "main") ->
      is_commit_logged_sql demo_repo (sha c0) (db world_swept) = true) /\
  db (exec (check_repository (demo_env 9000000000 [demo_raw "c2" 200; demo_raw "c1" 100])
                             demo_repo "main") world_swept)
  = db world_swept.
Proof.
  assert (A : forall c0,
             In c0 (fetched (demo_env 9000000000 [demo_raw "c2" 200; demo_raw "c1" 100])
                            world_swept demo_repo "main") ->
             is_commit_logged_sql demo_repo (sha c0) (db world_swept) = true).
  { intros c0 I.
    assert (F : fetched (demo_env 9000000000 [demo_raw "c2" 200; demo_raw "c1" 100])
                        world_swept demo_repo "main"
                = [demo_commit "c2" 200; demo_commit "c1" 100]) by (vm_compute; reflexivity).
    rewrite F in I. destruct I as [I | [I | []]]; subst c0; vm_compute; reflexivity. }
  split; [exact A |].
  exact (proj1 (pass_without_news_writes_nothing _ demo_repo "main" world_swept A)).
Defined.

(** ** A pass with a working store *)

Lemma bind_run_ok {A B} (m : M A) (k : A -> M B) w a w1 :
  m w = (Ok a, w1) -> bind m k w = k a w1.
Proof. intros H. unfold bind. rewrite H. reflexivity. Qed.

(** The commits a pass gets from the remote client, and those of them that
    are not in the history. *)
Definition pass_commits (E : Env) (w : World) (repo branch : string) : list Commit :=
  detailed E (S (List.length (reqlog w))) repo (fetched E w repo branch).

Definition pass_news (E : Env) (w : World) (repo branch : string) : list Commit :=
  filter (fun c => negb (is_commit_logged_sql repo (sha c) (db w)))
         (pass_commits E w repo branch).

(** The clock reading that stamps the watermark of a pass: the second one
    when the first was used for the lookback bound. *)
Definition pass_check_time (E : Env) (w : World) (repo : string) : datetime :=
  match get_last_commit_date_sql repo (db w) with
  | Some _ => clock E (nclock w)
  | None => clock E (S (nclock w))
  end.

Lemma detailed_same E n repo commits :
  Forall2 same_commit (detailed E n repo commits) commits.
Proof.
  revert n. induction commits as [| c rest IH]; intros n; simpl; constructor.
  - apply apply_detail_same.
  - apply IH.
Qed.

(** The pair that identifies a row of the history. *)
Definition history_key (h : HistoryRow) : string * string :=
  (h_repo_full_name h, h_commit_sha h).

Lemma log_all_keys commits d :
  map history_key (commit_history (fold_left (fun d c => log_commit_sql c d) commits d))
  = map history_key (commit_history d) ++ map (fun c => (repo_full_name c, sha c)) commits.
Proof.
  revert d. induction commits as [| c rest IH]; intros d; simpl.
  - now rewrite app_nil_r.
  - rewrite IH. unfold log_commit_sql. cbn [commit_history].
    rewrite map_app, <- app_assoc. reflexivity.
Qed.

Lemma processed_sql_keys repo commits t d :
  map history_key (commit_history (processed_sql repo commits t d))
  = map history_key (commit_history d)
    ++ map (fun c => (repo_full_name c, sha c)) (sort_newest_first commits).
Proof.
  unfold processed_sql.
  destruct (sort_newest_first commits) as [| latest rest] eqn:S.
  - simpl. now rewrite app_nil_r.
  - unfold update_last_commit_sql. cbn [commit_history]. apply log_all_keys.
Qed.

Lemma logged_keys d repo commit_sha :
  is_commit_logged_sql repo commit_sha d = true <->
  In (repo, commit_sha) (map history_key (commit_history d)).
Proof.
  unfold is_commit_logged_sql. rewrite existsb_exists, in_map_iff. split.
  - intros (h & I & Q). apply andb_true_iff in Q. destruct Q as (A & B).
    apply String.eqb_eq in A. apply String.eqb_eq in B.
    exists h. split; [unfold history_key; congruence | exact I].
  - intros (h & Q & I). exists h. split; [exact I |].
    unfold history_key in Q. inversion Q. now rewrite !String.eqb_refl.
Qed.

Lemma try_except_exec {A} (body : M A) (a0 : A) w :
  exec (try_except body (fun _ => ret a0)) w = exec body w.
Proof.
  unfold exec, try_except. destruct (body w) as [[a | e] w1]; reflexivity.
Qed.

Section HealthyPass.
Variable E : Env.
Hypothesis store_ok : healthy_store E.

Lemma db_query_run {A} (q : Database -> A) w :
  (db_begin E ;; db_read q) w
  = (Ok (q (db w)),
     mkWorld (db w) (journal w) (outbox w) (reqlog w) (nclock w) (S (ndb w))).
Proof. unfold bind, db_begin, db_read. rewrite store_ok. reflexivity. Qed.

Lemma select_new_commits_run repo commits :
  forall w,
    select_new_commits E repo commits w
    = (Ok (filter (fun c => negb (is_commit_logged_sql repo (sha c) (db w))) commits),
       mkWorld (db w) (journal w) (outbox w) (reqlog w) (nclock w)
               (ndb w + List.length commits)).
Proof.
  induction commits as [| c rest IH]; intros w; simpl.
  - unfold ret. rewrite Nat.add_0_r. destruct w; reflexivity.
  - unfold is_commit_logged.
    rewrite (bind_run_ok _ _ _ _ _ (db_query_run _ w)).
    rewrite (bind_run_ok _ _ _ _ _ (IH _)). unfold ret. cbn [db journal outbox reqlog nclock ndb].
    rewrite Nat.add_succ_r.
    destruct (is_commit_logged_sql repo (sha c) (db w)); reflexivity.
Qed.

Lemma check_repository_healthy_db repo branch w :
  db (exec (check_repository E repo branch) w)
  = match pass_news E w repo branch with
    | [] => db w
    | _ :: _ => processed_sql repo (pass_news E w repo branch) (pass_check_time E w repo) (db w)
    end.
Proof.
  unfold check_repository. rewrite try_except_exec. unfold exec.
  unfold get_last_commit_date. rewrite (bind_run_ok _ _ _ _ _ (db_query_run _ w)).
  set (w1 := mkWorld (db w) (journal w) (outbox w) (reqlog w) (nclock w) (S (ndb w))).
  assert (B : exists w2,
             (match get_last_commit_date_sql repo (db w) with
              | Some d => ret d
              | None => t <- now E ;; ret (t - timedelta_hours 24)
              end) w1 = (Ok (lower_bound E w repo), w2) /\
             db w2 = db w /\ reqlog w2 = reqlog w /\
             clock E (nclock w2) = pass_check_time E w repo).
  { unfold lower_bound, pass_check_time.
    destruct (get_last_commit_date_sql repo (db w)).
    - exists w1. auto.
    - eexists. unfold bind, now, ret. simpl. split; [reflexivity |]. simpl. auto. }
  destruct B as (w2 & B & D2 & L2 & T2).
  rewrite (bind_run_ok _ _ _ _ _ B).
  rewrite (bind_run_ok _ _ _ _ _ (get_latest_commits_run E repo branch _ w2)).
  cbn [option_map]. rewrite L2.
  change (detailed E (S (List.length (reqlog w))) repo
            (well_formed_commits repo
               (listed (github_http E (List.length (reqlog w))
                          (ReqCommits repo branch
                                      (Some (strftime_wire (lower_bound E w repo))))))))
    with (pass_commits E w repo branch).
  unfold pass_news.
  destruct (pass_commits E w repo branch) as [| c0 cs0] eqn:PC; [simpl; exact D2 |].
  rewrite (bind_run_ok _ _ _ _ _ (select_new_commits_run repo _ _)).
  cbn [db journal outbox reqlog nclock ndb]. rewrite D2.
  destruct (filter (fun c => negb (is_commit_logged_sql repo (sha c) (db w))) (c0 :: cs0))
    as [| n0 ns] eqn:NEWS; [reflexivity |].
  match goal with
  | |- db (snd (process_new_commits E repo ?l ?u)) = _ =>
      pose proof (run_pair (process_new_commits E repo l) u) as H;
      apply process_new_commits_inv in H;
      destruct H as (_ & _ & _ & _ & _ & H); destruct (H store_ok) as (_ & D)
  end.
  unfold exec in D. rewrite D. cbn [db nclock]. rewrite T2. reflexivity.
Qed.
End HealthyPass.

Lemma processed_sql_repositories repo commits t d :
  repositories (processed_sql repo commits t d)
  = match sort_newest_first commits with
    | [] => repositories d
    | latest :: _ => map (set_watermark repo (sha latest) (date latest) t) (repositories d)
    end.
Proof.
  unfold processed_sql. destruct (sort_newest_first commits) as [| latest rest]; simpl;
    [reflexivity |].
  change (fold_left (fun d c => log_commit_sql c d) rest (log_commit_sql latest d))
    with (fold_left (fun d c => log_commit_sql c d) (latest :: rest) d).
  rewrite log_all_repositories. reflexivity.
Qed.

Lemma Forall2_In_right {A B} (R : A -> B -> Prop) l1 l2 y :
  Forall2 R l1 l2 -> In y l2 -> exists x, In x l1 /\ R x y.
Proof.
  induction 1 as [| a b l1 l2 Rab _ IH]; simpl; [tauto |].
  intros [I | I].
  - subst. exists a. auto.
  - destruct (IH I) as (x & X & Rxy). exists x. auto.
Qed.

Lemma pass_commits_repo E w repo branch c :
  In c (pass_commits E w repo branch) -> repo_full_name c = repo.
Proof.
  intros I. unfold pass_commits in I.
  destruct (Forall2_In_left _ _ _ _ (detailed_same E _ repo _) I) as (c0 & I0 & (_ & _ & R)).
  pose proof (well_formed_commits_repo repo
                (listed (github_http E (List.length (reqlog w))
                           (listing_request E w repo branch)))) as WR.
  rewrite Forall_forall in WR. rewrite R. apply WR. exact I0.
Qed.

(** X16. With a working store, a pass over a repository adds to the commit
    history one row for each commit it got from the remote client that was
    not in the history, newest first, and no other row; when the pass ends
    every commit of the listing that parses is in the history.  If it added
    a row, every row of the repository then carries the hash and the date of
    the first commit of the sorted new ones and the clock reading as last
    check; if not, the [repositories] table is as it was. *)
Theorem healthy_pass_records_fetched :
  forall (E : Env) (repo branch : string) (w : World),
    healthy_store E ->
    map history_key (commit_history (db (exec (check_repository E repo branch) w)))
    = map history_key (commit_history (db w))
      ++ map (fun c => (repo, sha c)) (sort_newest_first (pass_news E w repo branch)) /\
    Forall (fun c0 => logged (db (exec (check_repository E repo branch) w)) repo (sha c0))
           (fetched E w repo branch) /\
    repositories (db (exec (check_repository E repo branch) w))
    = match sort_newest_first (pass_news E w repo branch) with
      | [] => repositories (db w)
      | latest :: _ =>
          map (set_watermark repo (sha latest) (date latest) (pass_check_time E w repo))
              (repositories (db w))
      end.
Proof.
  intros E repo branch w OKS.
  assert (NR : forall c, In c (sort_newest_first (pass_news E w repo branch)) ->
                         repo_full_name c = repo).
  { intros c I. apply (proj1 (sort_newest_first_In _ _)) in I. unfold pass_news in I.
    apply filter_In in I. eapply pass_commits_repo. apply I. }
  assert (K : map history_key (commit_history (db (exec (check_repository E repo branch) w)))
              = map history_key (commit_history (db w))
                ++ map (fun c => (repo, sha c))
                       (sort_newest_first (pass_news E w repo branch))).
  { rewrite (check_repository_healthy_db E OKS).
    destruct (pass_news E w repo branch) as [| n0 ns] eqn:NEWS;
      [simpl; now rewrite app_nil_r |].
    rewrite processed_sql_keys. f_equal. apply map_ext_in.
    intros c I. rewrite (NR c I). reflexivity. }
  split; [exact K |]. split.
  - apply Forall_forall. intros c0 I0. apply logged_keys. rewrite K.
    unfold fetched in I0.
    destruct (Forall2_In_right _ _ _ _
                (detailed_same E (S (List.length (reqlog w))) repo _) I0)
      as (c & I & (S & _)).
    apply in_or_app.
    destruct (is_commit_logged_sql repo (sha c) (db w)) eqn:L.
    + left. apply logged_keys. rewrite <- S. exact L.
    + right. rewrite <- S. apply (in_map (fun c => (repo, sha c))).
      apply sort_newest_first_In. unfold pass_news. apply filter_In.
      split; [exact I | now rewrite L].
  - rewrite (check_repository_healthy_db E OKS).
    destruct (pass_news E w repo branch) as [| n0 ns] eqn:NEWS; [reflexivity |].
    apply processed_sql_repositories.
Qed.

Lemma healthy_pass_records_fetched_witness :
  healthy_store (demo_env 6000000000 [demo_raw "c2" 200; demo_raw "c1" 100]) /\
  map history_key
      (commit_history
         (db (exec (check_repository
                      (demo_env 6000000000 [demo_raw "c2" 200; demo_raw "c1" 100])
                      demo_repo "main") world_added)))
  = [(demo_repo, "c1"); (demo_repo, "c2")].
Proof.
  assert (H : healthy_store (demo_env 6000000000 [demo_raw "c2" 200; demo_raw "c1" 100]))
    by (intros n; reflexivity).
  split; [exact H |].
  rewrite (proj1 (healthy_pass_records_fetched _ demo_repo "main" world_added H)).
  vm_compute. reflexivity.
Defined.


(** * The rest of the commands *)

(** [s.split(a)[-1]]: what follows the last [a], the whole of [s] when it
    holds no [a]. *)
Fixpoint after_last (a : ascii) (s : string) : string :=
  match s with
  | EmptyString => EmptyString
  | String b rest =>
      if (0 <? count_char a rest)%nat then after_last a rest
      else if Ascii.eqb a b then rest else s
  end.

(** [TranslationManager.get_all_languages]. *)
Definition get_all_languages : list (string * string) :=
  [("en", "English 🇺🇸"); ("fa", "فارسی 🇮🇷")].

(** [languages.get(language, language)]. *)
Definition language_name (language : string) : string :=
  match find (fun p => String.eqb (fst p) language) get_all_languages with
  | Some p => snd p
  | None => language
  end.

(** [str(n)] for a length. *)
Definition str_of_nat (n : nat) : string := NilEmpty.string_of_uint (Nat.to_uint n).

Section MoreCommands.
Variable E : Env.

(** [BotHandler.ask_for_language], lines 110-128; the keyboard offers the
    languages of [get_all_languages]. *)
Definition ask_for_language (chat_id : ChatId) : M unit :=
  bot_send E chat_id (UiText "choose_language" (Some "en") "").

(** [BotHandler.handle_start], lines 93-108. *)
Definition handle_start (chat_id : ChatId) (username : option string) : M unit :=
  if negb (check_admin E chat_id) then ret tt else
  user_language <- get_user_language E chat_id ;;
  match user_language with
  | None =>
      add_user E chat_id username DEFAULT_LANGUAGE ;;
      ask_for_language chat_id
  | Some l => bot_send E chat_id (UiText "welcome" (Some l) "")
  end.

(** [BotHandler.handle_callback_query], lines 130-153; [data] is
    [call.data]. *)
Definition handle_callback_query (chat_id : ChatId) (data : string) : M unit :=
  if String.prefix "set_lang_" data then
    let language := after_last "_" data in
    update_user_language E chat_id language ;;
    bot_send E chat_id (UiEdit "language_set" (Some language) (language_name language)) ;;
    bot_send E chat_id (UiText "welcome" (Some language) "")
  else ret tt.

(** [BotHandler.handle_help], lines 155-164. *)
Definition handle_help (chat_id : ChatId) : M unit :=
  if negb (check_admin E chat_id) then ret tt else
  language <- handler_user_language E chat_id ;;
  bot_send E chat_id (UiText "help" (Some language) "").

(** [BotHandler.handle_language], lines 166-172. *)
Definition handle_language (chat_id : ChatId) : M unit :=
  if negb (check_admin E chat_id) then ret tt else ask_for_language chat_id.

(** [BotHandler.handle_remove], lines 249-276; [args] is
    [message.text.split()]. *)
Definition handle_remove (chat_id : ChatId) (args : list string) : M unit :=
  if negb (check_admin E chat_id) then ret tt else
  language <- handler_user_language E chat_id ;;
  match args with
  | _ :: arg :: _ =>
      let repo := strip arg in
      remove_repository E chat_id repo ;;
      bot_send E chat_id (UiText "repo_removed" (Some language) repo)
  | _ => bot_send E chat_id (UiText "remove_usage" None "")
  end.

(** [BotHandler.handle_check], lines 317-346. *)
Definition handle_check (chat_id : ChatId) : M unit :=
  if negb (check_admin E chat_id) then ret tt else
  language <- handler_user_language E chat_id ;;
  repos <- get_user_repos E chat_id ;;
  match repos with
  | [] => bot_send E chat_id (UiText "no_repositories" (Some language) "")
  | _ =>
      bot_send E chat_id
        (UiText "checking_repos" (Some language) (str_of_nat (List.length repos))) ;;
      for_each repos
        (fun repo => check_repository E (r_repo_full_name repo) (r_branch repo)) ;;
      bot_send E chat_id (UiText "check_complete" (Some language) "")
  end.
End MoreCommands.

Example after_last_examples :
  after_last "_" "set_lang_fa" = "fa" /\
  after_last "_" "set_lang_" = "" /\
  after_last "_" "set_lang_pt_BR" = "BR" /\
  after_last "_" "plain" = "plain".
Proof. repeat split. Qed.

(** ** The allow-list *)

Lemma check_admin_false E chat_id :
  ~ In chat_id (ADMIN_CHAT_ID E) -> check_admin E chat_id = false.
Proof.
  intros N. unfold check_admin.
  destruct (existsb (Z.eqb chat_id) (ADMIN_CHAT_ID E)) eqn:X; [| reflexivity].
  apply existsb_exists in X. destruct X as (a & I & Q). apply Z.eqb_eq in Q.
  subst a. contradiction.
Qed.

(** X17. A chat that is not in [ADMIN_CHAT_ID] gets nothing out of the
    commands [/start], [/help], [/language], [/add], [/remove] and [/check]:
    each returns at once and leaves the store, the outbox and the request
    log exactly as they were, whatever the arguments. *)
Theorem commands_are_gated :
  forall (E : Env) (chat_id : ChatId),
    ~ In chat_id (ADMIN_CHAT_ID E) ->
    forall (w : World) (username : option string) (args : list string),
      handle_start E chat_id username w = (Ok tt, w) /\
      handle_help E chat_id w = (Ok tt, w) /\
      handle_language E chat_id w = (Ok tt, w) /\
      handle_add E chat_id args w = (Ok tt, w) /\
      handle_remove E chat_id args w = (Ok tt, w) /\
      handle_check E chat_id w = (Ok tt, w).
Proof.
  intros E chat_id N w username args. apply check_admin_false in N.
  unfold handle_start, handle_help, handle_language, handle_add, handle_remove,
    handle_check. rewrite N. simpl. repeat split.
Qed.

Lemma commands_are_gated_witness :
  ~ In 9 (ADMIN_CHAT_ID (demo_env 0 [])) /\
  handle_add (demo_env 0 []) 9 ["/add"; demo_repo] world_added = (Ok tt, world_added).
Proof.
  assert (N : ~ In 9 (ADMIN_CHAT_ID (demo_env 0 []))).
  { simpl. intros [H | [H | []]]; discriminate. }
  split; [exact N |].
  exact (proj1 (proj2 (proj2 (proj2
           (commands_are_gated (demo_env 0 []) 9 N world_added None
                               ["/add"; demo_repo]))))).
Defined.

(** ** Choosing a language *)

Lemma after_last_clean a s : count_char a (after_last a s) = 0%nat.
Proof.
  induction s as [| b rest IH]; simpl; [reflexivity |].
  destruct (Nat.ltb_spec 0 (count_char a rest)) as [P | Z]; [exact IH |].
  destruct (Ascii.eqb a b) eqn:Q; simpl; [lia |]. rewrite Q. lia.
Qed.

Lemma after_last_suffix a s : exists before, s = (before ++ after_last a s)%string.
Proof.
  induction s as [| b rest (before & IH)]; simpl; [exists ""; reflexivity |].
  destruct (0 <? count_char a rest)%nat.
  - exists (String b before). simpl. now rewrite <- IH.
  - destruct (Ascii.eqb a b).
    + exists (String b ""). reflexivity.
    + exists "". reflexivity.
Qed.

(** X18. A callback whose data starts with [set_lang_] stores, when the
    store works, what follows the last underscore of the data as the
    language of the chat, so a language that holds no underscore; it does so
    for any chat, in the allow-list or not, and whether or not the two
    messages that follow can be delivered.  The language of every other chat
    is as it was. *)
Theorem callback_sets_language :
  forall (E : Env) (chat_id : ChatId) (data : string) (other : ChatId) (w : World),
    String.prefix "set_lang_" data = true ->
    db_ok E (ndb w) = true ->
    get_user_language_sql other (db (exec (handle_callback_query E chat_id data) w))
    = (if other =? chat_id then Some (after_last "_" data)
       else get_user_language_sql other (db w)) /\
    count_char "_" (after_last "_" data) = 0%nat /\
    exists before, data = (before ++ after_last "_" data)%string.
Proof.
  intros E chat_id data other w P K.
  split; [| split; [apply after_last_clean | apply after_last_suffix]].
  assert (D : db (exec (handle_callback_query E chat_id data) w)
              = update_user_language_sql chat_id (after_last "_" data) (db w)).
  { unfold exec, handle_callback_query. rewrite P.
    cbv beta zeta delta [bind update_user_language db_begin db_write bot_send set_db].
    rewrite K. cbn [outbox db journal reqlog nclock ndb].
    destruct (bot_ok E _ chat_id _); [| reflexivity].
    cbn [outbox db journal reqlog nclock ndb].
    destruct (bot_ok E _ chat_id _); reflexivity. }
  rewrite D. apply update_user_language_sql_lookup.
Qed.

Lemma callback_sets_language_witness :
  String.prefix "set_lang_" "set_lang_fa" = true /\
  db_ok (demo_env 0 []) (ndb world_added) = true /\
  get_user_language_sql 9
    (db (exec (handle_callback_query (demo_env 0 []) 9 "set_lang_fa") world_added))
  = Some "fa".
Proof.
  assert (P : String.prefix "set_lang_" "set_lang_fa" = true) by reflexivity.
  assert (K : db_ok (demo_env 0 []) (ndb world_added) = true) by reflexivity.
  split; [exact P |]. split; [exact K |].
  exact (proj1 (callback_sets_language (demo_env 0 []) 9 "set_lang_fa" 9 world_added P K)).
Defined.

(** X19. When an administrator sends [/start] and the store works, a chat
    that has a user row keeps its language and is sent the welcome text in
    that language; a chat without one gets a row with the default language
    [en] and is asked to choose a language.  Exactly one message goes out,
    to that chat, and the language of every other chat is as it was. *)
Theorem start_keeps_language :
  forall (E : Env) (chat_id : ChatId) (username : option string) (other : ChatId)
         (w : World),
    check_admin E chat_id = true ->
    healthy_store E ->
    get_user_language_sql other (db (exec (handle_start E chat_id username) w))
    = match get_user_language_sql other (db w) with
      | Some l => Some l
      | None => if other =? chat_id then Some DEFAULT_LANGUAGE else None
      end /\
    outbox (exec (handle_start E chat_id username) w)
    = outbox w
      ++ [mkDelivery chat_id
            (match get_user_language_sql chat_id (db w) with
             | Some l => UiText "welcome" (Some l) ""
             | None => UiText "choose_language" (Some "en") ""
             end)
            (bot_ok E (List.length (outbox w)) chat_id
               (match get_user_language_sql chat_id (db w) with
                | Some l => UiText "welcome" (Some l) ""
                | None => UiText "choose_language" (Some "en") ""
                end))].
Proof.
  intros E chat_id username other w A OKS.
  unfold exec, handle_start. rewrite A. cbn [negb].
  unfold get_user_language. rewrite (bind_run_ok _ _ _ _ _ (db_query_run E OKS _ w)).
  destruct (get_user_language_sql chat_id (db w)) as [l |] eqn:L.
  - unfold bot_send. cbn [outbox db journal reqlog nclock ndb].
    assert (O : get_user_language_sql other (db w)
                = match get_user_language_sql other (db w) with
                  | Some l0 => Some l0
                  | None => if other =? chat_id then Some DEFAULT_LANGUAGE else None
                  end).
    { destruct (get_user_language_sql other (db w)) eqn:X; [reflexivity |].
      destruct (other =? chat_id) eqn:Q; [| reflexivity].
      apply Z.eqb_eq in Q. subst other. congruence. }
    destruct (bot_ok E (List.length (outbox w)) chat_id (UiText "welcome" (Some l) ""));
      cbn [fst snd db outbox]; split; auto.
  - unfold ask_for_language, add_user, bind, db_begin, db_write, bot_send, set_db.
    rewrite OKS. cbn [outbox db journal reqlog nclock ndb].
    destruct (bot_ok E (List.length (outbox w)) chat_id
                     (UiText "choose_language" (Some "en") ""));
      cbn [fst snd db outbox]; (split; [apply insert_or_ignore_user_lookup | reflexivity]).
Qed.

Lemma start_keeps_language_witness :
  check_admin (demo_env 0 []) 8 = true /\
  healthy_store (demo_env 0 []) /\
  get_user_language_sql 8 (db (exec (handle_start (demo_env 0 []) 8 (Some "bob")) world_added))
  = Some "en".
Proof.
  assert (A : check_admin (demo_env 0 []) 8 = true) by reflexivity.
  assert (H : healthy_store (demo_env 0 [])) by (intros n; reflexivity).
  split; [exact A |]. split; [exact H |].
  rewrite (proj1 (start_keeps_language (demo_env 0 []) 8 (Some "bob") 8 world_added A H)).
  vm_compute. reflexivity.
Defined.

(** ** Removing a repository *)

Lemma subscribers_of_rows r d d' :
  repositories d' = repositories d ->
  get_repo_subscribers_sql r d' = get_repo_subscribers_sql r d.
Proof. unfold get_repo_subscribers_sql. intros ->. reflexivity. Qed.

(** X20. When an administrator sends [/remove name] and the store works,
    the chat is taken off the subscribers of the stripped name and off no
    other repository, no other subscriber is touched, the commit history
    stays, and one confirmation goes out to the chat.  The name is not
    checked in any way and the confirmation is the same whether or not the
    chat followed the repository. *)
Theorem remove_command_unsubscribes :
  forall (E : Env) (chat_id : ChatId) (cmd arg : string) (more_args : list string)
         (w : World),
    check_admin E chat_id = true ->
    healthy_store E ->
    (forall r,
        get_repo_subscribers_sql r
          (db (exec (handle_remove E chat_id (cmd :: arg :: more_args)) w))
        = if String.eqb r (strip arg)
          then filter (fun c => negb (c =? chat_id)) (get_repo_subscribers_sql r (db w))
          else get_repo_subscribers_sql r (db w)) /\
    commit_history (db (exec (handle_remove E chat_id (cmd :: arg :: more_args)) w))
    = commit_history (db w) /\
    exists x language,
      outbox (exec (handle_remove E chat_id (cmd :: arg :: more_args)) w) = outbox w ++ [x] /\
      d_chat_id x = chat_id /\
      d_note x = UiText "repo_removed" (Some language) (strip arg).
Proof.
  intros E chat_id cmd arg more_args w A OKS.
  pose proof (run_pair (handle_remove E chat_id (cmd :: arg :: more_args)) w) as H.
  set (w9 := exec (handle_remove E chat_id (cmd :: arg :: more_args)) w) in *.
  unfold handle_remove in H. rewrite A in H. cbn [negb] in H.
  apply bind_inv in H. destruct H as [(language & w1 & H1 & H) | (e & H1 & _)];
    apply (handler_user_language_inv E OKS) in H1;
    destruct H1 as ((l & R1) & P1 & _ & C1 & O1); [| discriminate].
  apply bind_inv in H. destruct H as [(u & w2 & H2 & H) | (e & H2 & _)];
    apply db_update_inv in H2; destruct H2 as (O2 & _ & H2); rewrite OKS in H2;
    destruct H2 as (R2 & D2 & _); [| discriminate].
  unfold bot_send in H.
  assert (W : db w9 = db w2 /\
              outbox w9 = outbox w2
                ++ [mkDelivery chat_id (UiText "repo_removed" (Some language) (strip arg))
                      (bot_ok E (List.length (outbox w2)) chat_id
                         (UiText "repo_removed" (Some language) (strip arg)))]).
  { destruct (bot_ok E (List.length (outbox w2)) chat_id
                     (UiText "repo_removed" (Some language) (strip arg)));
      inversion H; subst; simpl; auto. }
  destruct W as (D9 & O9). rewrite D9, D2.
  split; [| split].
  - intros r. rewrite remove_repository_sql_subscribers.
    rewrite (subscribers_of_rows r (db w) (db w1) P1). reflexivity.
  - simpl. exact C1.
  - eexists. exists language. rewrite O9, O2, O1. split; [reflexivity |]. auto.
Qed.

Lemma remove_command_unsubscribes_witness :
  check_admin (demo_env 0 []) 7 = true /\
  healthy_store (demo_env 0 []) /\
  get_repo_subscribers_sql demo_repo
    (db (exec (handle_remove (demo_env 0 []) 7 ["/remove"; demo_repo]) world_two_subscribers))
  = [8].
Proof.
  assert (A : check_admin (demo_env 0 []) 7 = true) by reflexivity.
  assert (H : healthy_store (demo_env 0 [])) by (intros n; reflexivity).
  split; [exact A |]. split; [exact H |].
  rewrite (proj1 (remove_command_unsubscribes (demo_env 0 []) 7 "/remove" demo_repo []
                    world_two_subscribers A H) demo_repo).
  vm_compute. reflexivity.
Defined.

(** ** Checking now *)

Section CheckNow.
Variable E : Env.

Lemma handle_check_advance chat_id : preserves advance (handle_check E chat_id).
Proof.
  unfold handle_check.
  destruct (negb (check_admin E chat_id)); [apply preserves_ret, advance_refl |].
  apply preserves_bind; [apply advance_trans | apply handler_user_language_advance |].
  intros language.
  apply preserves_bind; [apply advance_trans | apply db_query_advance |].
  intros [| r0 rest]; [apply bot_send_ui_advance; reflexivity |].
  apply preserves_bind; [apply advance_trans | apply bot_send_ui_advance; reflexivity |].
  intros _.
  apply preserves_bind; [apply advance_trans | | intros; apply bot_send_ui_advance; reflexivity].
  apply preserves_for_each; [apply advance_refl | apply advance_trans |].
  intros x. apply check_repository_advance.
Qed.
End CheckNow.

(** X21. The [/check] command goes through the same detection as the
    sweep: whatever the remote host, the sink and the store do, the commit
    history only grows during the command, a commit that was in the history
    of a repository before the command is in it after, and no delivery of
    the command carries such a commit; every commit it does deliver is in
    the history when the command ends. *)
Theorem check_command_never_renotifies :
  forall (E : Env) (chat_id : ChatId) (w : World) (repo commit_sha : string),
    logged (db w) repo commit_sha ->
    logged (db (exec (handle_check E chat_id) w)) repo commit_sha /\
    history_grows (db w) (db (exec (handle_check E chat_id) w)) /\
    exists sent,
      outbox (exec (handle_check E chat_id) w) = outbox w ++ sent /\
      Forall (fun x => ~ notifies repo commit_sha x) sent /\
      Forall (fresh_notification w (exec (handle_check E chat_id) w)) sent.
Proof.
  intros E chat_id w repo commit_sha L.
  pose proof (handle_check_advance E chat_id _ _ _ (run_pair (handle_check E chat_id) w)) as A.
  destruct (advance_never_renotifies _ _ repo commit_sha L A) as (L1 & sent & O & F).
  destruct A as (G & sent' & O' & F').
  assert (sent' = sent) by (rewrite O in O'; apply app_inv_head in O'; auto).
  subst sent'. split; [exact L1 |]. split; [exact G |]. exists sent. auto.
Qed.

Lemma check_command_never_renotifies_witness :
  logged (db world_added) demo_repo "c1" /\
  logged (db (exec (handle_check (demo_env 6000000000 [demo_raw "c2" 200; demo_raw "c1" 100])
                                 7) world_added)) demo_repo "c1" /\
  commit_messages_to 7
    (exec (handle_check (demo_env 6000000000 [demo_raw "c2" 200; demo_raw "c1" 100]) 7)
          world_added)
  = ["c2"].
Proof.
  assert (L : logged (db world_added) demo_repo "c1") by (vm_compute; reflexivity).
  split; [exact L |]. split; [| vm_compute; reflexivity].
  exact (proj1 (check_command_never_renotifies
                  (demo_env 6000000000 [demo_raw "c2" 200; demo_raw "c1" 100]) 7
                  world_added demo_repo "c1" L)).
Defined.

(** ** What [/add] refuses *)

(** The subscriptions, the history and the request log are what they
    were. *)
Definition keeps_subscriptions (w w' : World) : Prop :=
  repositories (db w') = repositories (db w) /\
  commit_history (db w') = commit_history (db w) /\
  reqlog w' = reqlog w.

(** The same, but for requests sent. *)
Definition keeps_rows (w w' : World) : Prop :=
  repositories (db w') = repositories (db w) /\
  commit_history (db w') = commit_history (db w) /\
  exists more, reqlog w' = reqlog w ++ more /\
               Forall (fun q => exists repo, q = ReqRepo repo) more.

Lemma keeps_subscriptions_refl w : keeps_subscriptions w w.
Proof. unfold keeps_subscriptions; auto. Qed.

Lemma keeps_subscriptions_trans w1 w2 w3 :
  keeps_subscriptions w1 w2 -> keeps_subscriptions w2 w3 -> keeps_subscriptions w1 w3.
Proof. unfold keeps_subscriptions. intuition congruence. Qed.

Lemma keeps_rows_refl w : keeps_rows w w.
Proof.
  unfold keeps_rows. repeat split; auto. exists []. now rewrite app_nil_r.
Qed.

Lemma keeps_rows_trans w1 w2 w3 : keeps_rows w1 w2 -> keeps_rows w2 w3 -> keeps_rows w1 w3.
Proof.
  intros (R1 & H1 & m1 & L1 & F1) (R2 & H2 & m2 & L2 & F2).
  split; [congruence |]. split; [congruence |].
  exists (m1 ++ m2). split; [rewrite L2, L1, app_assoc; reflexivity |].
  apply Forall_app. auto.
Qed.

Lemma keeps_subscriptions_rows w w' : keeps_subscriptions w w' -> keeps_rows w w'.
Proof.
  intros (R & H & L). split; [exact R |]. split; [exact H |].
  exists []. rewrite app_nil_r. auto.
Qed.

(** What [get_repo_info] makes of an answer. *)
Definition repo_info_of (resp : Response) : option RepoInfo :=
  match resp with
  | Http status (JsonRepo info) => if status =? 200 then Some info else None
  | _ => None
  end.

Section Refusals.
Variable E : Env.

Lemma handler_user_language_keeps chat_id :
  preserves keeps_subscriptions (handler_user_language E chat_id).
Proof.
  unfold handler_user_language.
  apply preserves_bind; [apply keeps_subscriptions_trans | |].
  - intros w r w' H. apply db_query_inv in H. destruct H as ((D & _) & L & _).
    unfold keeps_subscriptions. rewrite D. auto.
  - intros [l |]; [apply preserves_ret, keeps_subscriptions_refl |].
    apply preserves_bind;
      [apply keeps_subscriptions_trans | | intros; apply preserves_ret, keeps_subscriptions_refl].
    intros w r w' H. apply db_update_inv in H. destruct H as (_ & L & H).
    unfold keeps_subscriptions.
    destruct (db_ok E (ndb w)); destruct H as (_ & D & _); rewrite D; auto.
    unfold insert_or_ignore_user. destruct (user_exists chat_id (db w)); auto.
Qed.

Lemma bot_send_keeps chat_id note : preserves keeps_subscriptions (bot_send E chat_id note).
Proof.
  intros w r w' H. unfold bot_send in H. unfold keeps_subscriptions.
  destruct (bot_ok E (List.length (outbox w)) chat_id note); inversion H; subst; simpl; auto.
Qed.

Lemma get_repo_info_run repo w :
  get_repo_info E repo w
  = (Ok (repo_info_of (github_http E (List.length (reqlog w)) (ReqRepo repo))),
     mkWorld (db w) (journal w) (outbox w) (reqlog w ++ [ReqRepo repo]) (nclock w) (ndb w)).
Proof.
  unfold get_repo_info, bind, http_get, repo_info_of.
  destruct (github_http E (List.length (reqlog w)) (ReqRepo repo))
    as [status [l | fs | info |] | | | |]; try reflexivity.
  destruct (status =? 200); reflexivity.
Qed.
End Refusals.

(** X22. [/add] with no repository name, or with a name that does not hold
    exactly one slash, sends nothing to the remote host and leaves the
    [repositories] table and the commit history as they are, whoever sends
    it and whatever the store and the sink do. *)
Theorem add_refuses_malformed_name :
  forall (E : Env) (chat_id : ChatId) (args : list string) (w : World),
    match args with
    | _ :: arg :: _ => count_char "/" (strip arg) <> 1%nat
    | _ => True
    end ->
    repositories (db (exec (handle_add E chat_id args) w)) = repositories (db w) /\
    commit_history (db (exec (handle_add E chat_id args) w)) = commit_history (db w) /\
    reqlog (exec (handle_add E chat_id args) w) = reqlog w.
Proof.
  intros E chat_id args w BAD.
  assert (P : preserves keeps_subscriptions (handle_add E chat_id args)).
  { unfold handle_add.
    destruct (negb (check_admin E chat_id));
      [apply preserves_ret, keeps_subscriptions_refl |].
    apply preserves_bind;
      [apply keeps_subscriptions_trans | apply handler_user_language_keeps |].
    intros language. destruct args as [| cmd [| arg rest]]; try apply bot_send_keeps.
    apply Nat.eqb_neq in BAD. rewrite BAD. cbn [negb]. apply bot_send_keeps. }
  exact (P _ _ _ (run_pair (handle_add E chat_id args) w)).
Qed.

Lemma add_refuses_malformed_name_witness :
  count_char "/" (strip "acme/widgets/extra") <> 1%nat /\
  repositories (db (exec (handle_add (demo_env 0 []) 7 ["/add"; "acme/widgets/extra"])
                         world_added))
  = repositories (db world_added).
Proof.
  assert (B : count_char "/" (strip "acme/widgets/extra") <> 1%nat) by (vm_compute; lia).
  split; [exact B |].
  exact (proj1 (add_refuses_malformed_name (demo_env 0 []) 7
                  ["/add"; "acme/widgets/extra"] world_added B)).
Defined.

(** X23. If the remote host does not answer the repository request with a
    200 that carries the repository (it raises, or answers 404, 403, 401,
    429 or anything else), [/add] subscribes nothing: the [repositories]
    table and the commit history are as they were, and the only request
    sent is the repository request. *)
Theorem add_refuses_unknown_repository :
  forall (E : Env) (chat_id : ChatId) (cmd arg : string) (more_args : list string)
         (w : World),
    (forall n, repo_info_of (github_http E n (ReqRepo (strip arg))) = None) ->
    repositories (db (exec (handle_add E chat_id (cmd :: arg :: more_args)) w))
    = repositories (db w) /\
    commit_history (db (exec (handle_add E chat_id (cmd :: arg :: more_args)) w))
    = commit_history (db w) /\
    exists more,
      reqlog (exec (handle_add E chat_id (cmd :: arg :: more_args)) w) = reqlog w ++ more /\
      Forall (fun q => exists repo, q = ReqRepo repo) more.
Proof.
  intros E chat_id cmd arg more_args w UNKNOWN.
  assert (P : preserves keeps_rows (handle_add E chat_id (cmd :: arg :: more_args))).
  { assert (S : forall c n, preserves keeps_rows (bot_send E c n)).
    { intros c n u r u' H. apply keeps_subscriptions_rows. eapply bot_send_keeps; eauto. }
    unfold handle_add.
    destruct (negb (check_admin E chat_id)); [apply preserves_ret, keeps_rows_refl |].
    apply preserves_bind; [apply keeps_rows_trans | |].
    { intros u r u' H. apply keeps_subscriptions_rows.
      eapply handler_user_language_keeps; eauto. }
    intros language.
    destruct (negb (count_char "/" (strip arg) =? 1)%nat); [apply S |].
    apply preserves_bind; [apply keeps_rows_trans | apply S |]. intros _.
    intros u r u' H. rewrite (bind_run_ok _ _ _ _ _ (get_repo_info_run E _ u)) in H.
    rewrite UNKNOWN in H.
    apply (keeps_rows_trans u
             (mkWorld (db u) (journal u) (outbox u) (reqlog u ++ [ReqRepo (strip arg)])
                      (nclock u) (ndb u))).
    - unfold keeps_rows. simpl. repeat split; auto.
      exists [ReqRepo (strip arg)]. split; [reflexivity |]. constructor; eauto.
    - eapply S; eauto. }
  exact (P _ _ _ (run_pair (handle_add E chat_id (cmd :: arg :: more_args)) w)).
Qed.

Definition lost_env : Env :=
  mkEnv (fun _ => 0) (fun _ _ => Http 404 JsonOther) (fun _ _ _ => true) (fun _ => true) [7].

Lemma add_refuses_unknown_repository_witness :
  (forall n, repo_info_of (github_http lost_env n (ReqRepo (strip "acme/gone"))) = None) /\
  repositories (db (exec (handle_add lost_env 7 ["/add"; "acme/gone"]) world_added))
  = repositories (db world_added).
Proof.
  assert (U : forall n,
             repo_info_of (github_http lost_env n (ReqRepo (strip "acme/gone"))) = None)
    by (intros n; reflexivity).
  split; [exact U |].
  exact (proj1 (add_refuses_unknown_repository lost_env 7 "/add" "acme/gone" []
                  world_added U)).
Defined.

(** ** The order of the writes of [/add] *)

Lemma bot_send_journal E chat_id note w r w' :
  bot_send E chat_id note w = (r, w') -> journal w' = journal w /\ db w' = db w.
Proof.
  unfold bot_send. destruct (bot_ok E (List.length (outbox w)) chat_id note);
    intros H; inversion H; subst; auto.
Qed.

(** X24. In [/add] the watermark is written before the commit is recorded,
    the other way round from the sweep.  Under the conditions of a
    successful add (administrator, working store and sink, repository known,
    at least one well-formed commit listed), if the head commit was not in
    the history, the store is committed, on the way, in a state where every
    row of the repository carries the hash of the head commit as watermark
    while the history does not hold that commit. *)
Theorem add_writes_watermark_before_history :
  forall (E : Env) (chat_id : ChatId) (cmd arg : string) (more_args : list string)
         (info : RepoInfo) (repo_url : string) (head : Commit) (others : list Commit)
         (w : World),
    check_admin E chat_id = true ->
    healthy_store E ->
    (forall n note, bot_ok E n chat_id note = true) ->
    count_char "/" (strip arg) = 1%nat ->
    (forall n, github_http E n (ReqRepo (strip arg)) = Http 200 (JsonRepo info)) ->
    html_url info = Some repo_url ->
    (forall n,
        well_formed_commits (strip arg)
          (listed (github_http E n
                     (ReqCommits (strip arg)
                                 (match default_branch info with Some b => b | None => "main" end)
                                 None)))
        = head :: others) ->
    is_commit_logged_sql (strip arg) (sha head) (db w) = false ->
    exists d,
      In d (journal (exec (handle_add E chat_id (cmd :: arg :: more_args)) w)) /\
      is_commit_logged_sql (strip arg) (sha head) d = false /\
      (exists row, In row (repositories d) /\ r_repo_full_name row = strip arg) /\
      forall row,
        In row (repositories d) -> r_repo_full_name row = strip arg ->
        r_last_commit_sha row = Some (sha head).
Proof.
  intros E chat_id cmd arg more_args info repo_url head others w
         ADMIN OKS OKB SLASH INFO URL LIST FRESH.
  set (repo := strip arg) in *.
  set (branch := match default_branch info with Some b => b | None => "main" end) in *.
  pose proof (run_pair (handle_add E chat_id (cmd :: arg :: more_args)) w) as H.
  set (w9 := exec (handle_add E chat_id (cmd :: arg :: more_args)) w) in *.
  unfold handle_add in H. rewrite ADMIN in H. simpl negb in H. cbv iota in H.
  apply bind_inv in H. destruct H as [(language & w1 & H1 & H) | (e & H1 & _)];
    apply (handler_user_language_inv E OKS) in H1;
    destruct H1 as ((l & R1) & P1 & Q1 & C1 & O1); [| discriminate].
  fold repo in H. rewrite SLASH in H. simpl in H.
  apply bind_inv in H. destruct H as [(u2 & w2 & H2 & H) | (e & H2 & _)];
    apply bot_send_ok_inv in H2; try (intros n; apply OKB);
    destruct H2 as (R2 & D2); [| discriminate].
  rewrite (bind_run_ok _ _ _ _ _ (get_repo_info_run E repo w2)) in H.
  unfold repo_info_of in H. rewrite INFO in H. simpl in H. rewrite URL in H.
  fold branch in H.
  match type of H with
  | bind _ _ ?u = _ => set (w3 := u) in *
  end.
  assert (D3 : db w3 = db w2) by reflexivity.
  apply bind_inv in H. destruct H as [(u4 & w4 & H4 & H) | (e & H4 & _)];
    apply db_update_now_inv in H4; destruct H4 as (_ & _ & H4);
    rewrite OKS in H4; destruct H4 as (R4 & D4 & _); [| discriminate].
  apply bind_inv in H. destruct H as [(cs & w5 & H5 & H) | (e & H5 & _)];
    apply get_latest_commits_inv in H5;
    destruct H5 as ((D5 & J5 & _) & _ & _ & _ & cs' & R5 & F5); [| discriminate].
  inversion R5; subst cs'; clear R5. simpl option_map in F5. rewrite LIST in F5.
  destruct cs as [| latest cs0]; [inversion F5 |].
  apply Forall2_cons_iff in F5. destruct F5 as ((SS & SD & SR) & _).
  apply bind_inv in H. destruct H as [(u6 & w6 & H6 & H) | (e & H6 & _)].
  2:{ apply bind_inv in H6. destruct H6 as [(u7 & w7 & H7 & H8) | (e' & H7 & _)].
      - apply db_update_inv in H8. destruct H8 as (_ & _ & H8). rewrite OKS in H8.
        destruct H8; discriminate.
      - apply db_update_now_inv in H7. destruct H7 as (_ & _ & H7). rewrite OKS in H7.
        destruct H7; discriminate. }
  apply bind_inv in H6. destruct H6 as [(u7 & w7 & H7 & H8) | (e' & H7 & _)];
    apply db_update_now_inv in H7; destruct H7 as (_ & _ & H7); rewrite OKS in H7;
    destruct H7 as (R7 & D7 & J7); [| discriminate].
  apply db_update_inv in H8. destruct H8 as (_ & _ & H8). rewrite OKS in H8.
  destruct H8 as (_ & D8 & J8).
  apply bot_send_journal in H. destruct H as (J9 & _).
  set (d7 := update_last_commit_sql repo (sha latest) (date latest) (clock E (nclock w5))
                                    (db w5)) in *.
  exists d7. split; [| split; [| split]].
  - rewrite J9, J8, J7. apply in_or_app. left. apply in_or_app. right. left. reflexivity.
  - unfold d7, is_commit_logged_sql, update_last_commit_sql. cbn [commit_history].
    rewrite D5, D4. unfold add_repository_sql, insert_or_ignore_user.
    assert (HH : commit_history (db w3) = commit_history (db w)) by congruence.
    destruct (user_exists chat_id (db w3)); cbn [commit_history]; rewrite HH; exact FRESH.
  - exists (set_watermark repo (sha latest) (date latest) (clock E (nclock w5))
              (mkRepoRow (repositories_seq (db w3) + 1) chat_id repo repo_url
                         None (Some (clock E (nclock w3))) None branch)).
    split; [| apply set_watermark_name].
    unfold d7, update_last_commit_sql. cbn [repositories]. apply in_map.
    rewrite D5, D4, add_repository_sql_repositories. apply in_or_app. right. left.
    reflexivity.
  - intros row I N. unfold d7, update_last_commit_sql in I. cbn [repositories] in I.
    destruct (set_watermark_row _ _ _ _ _ _ I N) as (A & _). rewrite A, SS. reflexivity.
Qed.

Lemma add_writes_watermark_before_history_witness :
  check_admin (demo_env 5000000000 [demo_raw "c1" 100]) 7 = true /\
  healthy_store (demo_env 5000000000 [demo_raw "c1" 100]) /\
  is_commit_logged_sql (strip demo_repo) "c1" (db fresh_world) = false /\
  exists d,
    In d (journal world_added) /\
    is_commit_logged_sql (strip demo_repo) "c1" d = false /\
    exists row, In row (repositories d) /\ r_repo_full_name row = strip demo_repo.
Proof.
  assert (A : check_admin (demo_env 5000000000 [demo_raw "c1" 100]) 7 = true) by reflexivity.
  assert (S : healthy_store (demo_env 5000000000 [demo_raw "c1" 100]))
    by (intros n; reflexivity).
  assert (C : count_char "/" (strip demo_repo) = 1%nat) by reflexivity.
  assert (F : is_commit_logged_sql (strip demo_repo) "c1" (db fresh_world) = false)
    by reflexivity.
  split; [exact A |]. split; [exact S |]. split; [exact F |].
  destruct (add_writes_watermark_before_history
              (demo_env 5000000000 [demo_raw "c1" 100]) 7
              "/add" demo_repo []
              (mkRepoInfo (Some "main") (Some "https://github.com/acme/widgets"))
              "https://github.com/acme/widgets" (demo_commit "c1" 100) [] fresh_world
              A S (fun n note => eq_refl) C (fun n => eq_refl) eq_refl (fun n => eq_refl) F)
    as (d & I & L & R & _).
  exists d. split; [exact I |]. split; [exact L | exact R].
Defined.

(** The store fails at the one operation that records the head commit:
    [/add] leaves the watermark at a commit the history does not hold, and
    the next pass, which fetches from the watermark on, delivers it. *)
Example add_fault_leaves_head_unrecorded :
  stored_watermarks
    (exec (handle_add (mkEnv (fun _ => 5000000000)
                             (github_http (demo_env 0 [demo_raw "c1" 100]))
                             (fun _ _ _ => true) (fun n => negb (Nat.eqb n 4)) [7])
                      7 ["/add"; demo_repo]) fresh_world)
  = [Some "c1"] /\
  is_commit_logged_sql demo_repo "c1"
    (db (exec (handle_add (mkEnv (fun _ => 5000000000)
                                 (github_http (demo_env 0 [demo_raw "c1" 100]))
                                 (fun _ _ _ => true) (fun n => negb (Nat.eqb n 4)) [7])
                          7 ["/add"; demo_repo]) fresh_world))
  = false /\
  commit_messages_to 7
    (exec (check_repository (demo_env 6000000000 [demo_raw "c1" 100]) demo_repo "main")
          (exec (handle_add (mkEnv (fun _ => 5000000000)
                                   (github_http (demo_env 0 [demo_raw "c1" 100]))
                                   (fun _ _ _ => true) (fun n => negb (Nat.eqb n 4)) [7])
                            7 ["/add"; demo_repo]) fresh_world))
  = ["c1"].
Proof. vm_compute. repeat split. Qed.
